(** * banosser: the batch image pipeline

    A shallow embedding of [scripts/process_images.js] (Google GenAI
    backend), [scripts/process_images_openrouter.js] (OpenRouter backend)
    and the menu of [index.js], and the properties of the batch loop, the
    response decoders, the file-name sanitiser and the menu.

    JavaScript strings are sequences of UTF-16 code units, JSON values are
    an inductive type, objects keep their own properties in key order.
    Calls into Node (file system, https, fetch, the SDK) are fields of a
    [Runtime] class threaded with an explicit [World]; every call and every
    console line is recorded as an [event]. *)

From Stdlib Require Import List NArith ZArith QArith Bool String Ascii Lia.
From Stdlib Require Import Sorting.Sorted.
Import ListNotations.
Close Scope Q_scope.
Open Scope N_scope.
Open Scope list_scope.

Set Implicit Arguments.
Set Warnings "-register-all".

(* ================================================================= *)
(** ** Strings *)

Definition code_unit := N.
Definition jsstring := list code_unit.

(** A source-code string literal, as code units. *)
Definition lit (s : string) : jsstring :=
  map N_of_ascii (list_ascii_of_string s).

Fixpoint str_eqb (a b : jsstring) : bool :=
  match a, b with
  | [], [] => true
  | x :: a', y :: b' => (x =? y) && str_eqb a' b'
  | _, _ => false
  end.

Fixpoint uint_digits (u : Decimal.uint) : jsstring :=
  match u with
  | Decimal.Nil => []
  | Decimal.D0 u => 48 :: uint_digits u
  | Decimal.D1 u => 49 :: uint_digits u
  | Decimal.D2 u => 50 :: uint_digits u
  | Decimal.D3 u => 51 :: uint_digits u
  | Decimal.D4 u => 52 :: uint_digits u
  | Decimal.D5 u => 53 :: uint_digits u
  | Decimal.D6 u => 54 :: uint_digits u
  | Decimal.D7 u => 55 :: uint_digits u
  | Decimal.D8 u => 56 :: uint_digits u
  | Decimal.D9 u => 57 :: uint_digits u
  end.

(** [String(n)] for a non-negative integer counter such as [index]. *)
Definition decimal (n : nat) : jsstring := uint_digits (Nat.to_uint n).

Definition between (lo hi c : code_unit) : bool := (lo <=? c) && (c <=? hi).

(** Case folding of a regular expression with flag [i] and without flag
    [u]: ASCII letters fold to upper case.  A code unit above 127 never
    folds to an ASCII one (ECMAScript Canonicalize), so against the ASCII
    patterns of this program it can be left as it is. *)
Definition canonicalize (c : code_unit) : code_unit :=
  if between 97 122 c then c - 32 else c.

(** The class [[a-z0-9._-]] under flag [i]. *)
Definition filename_class (c : code_unit) : bool :=
  let u := canonicalize c in
  between (canonicalize 97) (canonicalize 122) u
  || between 48 57 u || (u =? 46) || (u =? 95) || (u =? 45).

(** [base.replace(/[^a-z0-9._-]/gi, "_")]: every match of the negated
    class is replaced by the replacement string. *)
Fixpoint replace_unsafe (replacement : jsstring) (base : jsstring) : jsstring :=
  match base with
  | [] => []
  | c :: rest =>
      (if negb (filename_class c) then replacement else [c])
        ++ replace_unsafe replacement rest
  end.

Definition toSafeFilename (base : jsstring) : jsstring :=
  replace_unsafe (lit "_") base.

(** [content.split(/\r?\n/)]: a line feed, with the carriage return just
    before it when there is one, ends a piece. *)
Fixpoint split_newlines (cur : jsstring) (content : jsstring) : list jsstring :=
  match content with
  | [] => [rev cur]
  | c :: rest =>
      if c =? 10 then rev cur :: split_newlines [] rest
      else if c =? 13 then
        match rest with
        | d :: rest' =>
            if d =? 10 then rev cur :: split_newlines [] rest'
            else split_newlines (c :: cur) rest
        | [] => split_newlines (c :: cur) rest
        end
      else split_newlines (c :: cur) rest
  end.

Definition nonempty (s : jsstring) : bool :=
  match s with [] => false | _ => true end.

(** [content.split(/\r?\n/).filter(Boolean)] *)
Definition jsonl_lines (content : jsstring) : list jsstring :=
  filter nonempty (split_newlines [] content).

(* ================================================================= *)
(** ** Numbers and JSON values *)

(** An IEEE double seen through the operations the scripts use on it:
    truthiness and comparison with a counter. *)
Inductive number :=
| NaN
| Infinity (negative : bool)
| Finite (q : Q).

Definition number_truthy (n : number) : bool :=
  match n with
  | NaN => false
  | Infinity _ => true
  | Finite q => negb (Qeq_bool q 0)
  end.

(** [count >= n] for an integer counter [count]. *)
Definition counter_ge (count : nat) (n : number) : bool :=
  match n with
  | NaN => false
  | Infinity negative => negative
  | Finite q => Qle_bool q (inject_Z (Z.of_nat count))
  end.

Inductive value :=
| JNull
| JBool (b : bool)
| JNum (n : number)
| JStr (s : jsstring)
| JArr (elems : list value)
| JObj (fields : list (jsstring * value)).

(** An expression that may be [undefined]. *)
Definition jsval := option value.

Definition truthy (v : jsval) : bool :=
  match v with
  | None => false
  | Some JNull => false
  | Some (JBool b) => b
  | Some (JNum n) => number_truthy n
  | Some (JStr s) => nonempty s
  | Some (JArr _) => true
  | Some (JObj _) => true
  end.

Fixpoint assoc (k : jsstring) (fields : list (jsstring * value)) : jsval :=
  match fields with
  | [] => None
  | (k', v) :: rest => if str_eqb k' k then Some v else assoc k rest
  end.

(** [v.k] for [v] other than [null]/[undefined] and [k] one of the property
    names of the scripts, none of which is ["length"], an index, or a
    member of a built-in prototype: only an object has it. *)
Definition get (v : value) (k : string) : jsval :=
  match v with
  | JObj fields => assoc (lit k) fields
  | _ => None
  end.

(** [v?.k] *)
Definition opt_get (v : jsval) (k : string) : jsval :=
  match v with
  | None | Some JNull => None
  | Some v => get v k
  end.

(** [v?.[0]] *)
Definition opt_first (v : jsval) : jsval :=
  match v with
  | Some (JArr (x :: _)) => Some x
  | Some (JStr (c :: _)) => Some (JStr [c])
  | Some (JObj fields) => assoc (lit "0") fields
  | _ => None
  end.

(** [a || b] *)
Definition or_else (a : jsval) (b : value) : value :=
  match a with
  | Some v => if truthy a then v else b
  | None => b
  end.

(** [v?.type === name] *)
Definition type_is (v : value) (name : string) : bool :=
  match opt_get (Some v) "type" with
  | Some (JStr s) => str_eqb s (lit name)
  | _ => false
  end.

Definition is_string (v : jsval) : bool :=
  match v with Some (JStr _) => true | _ => false end.

(** Code points of a string, as [for ... of] walks them. *)
Fixpoint code_points (s : jsstring) : list jsstring :=
  match s with
  | [] => []
  | c :: rest =>
      match rest with
      | d :: rest' =>
          if between 55296 56319 c && between 56320 57343 d
          then [c; d] :: code_points rest'
          else [c] :: code_points rest
      | [] => [[c]]
      end
  end.

(** Property set: an existing key keeps its place, a new key goes last. *)
Fixpoint set_field (k : jsstring) (v : value) (fields : list (jsstring * value))
  : list (jsstring * value) :=
  match fields with
  | [] => [(k, v)]
  | (k', v') :: rest =>
      if str_eqb k' k then (k, v) :: rest else (k', v') :: set_field k v rest
  end.

Fixpoint indexed {A} (f : A -> value) (i : nat) (l : list A) : list (jsstring * value) :=
  match l with
  | [] => []
  | x :: rest => (decimal i, f x) :: indexed f (S i) rest
  end.

(** Own enumerable properties, as the spread [{...item}] copies them. *)
Definition own_properties (v : value) : list (jsstring * value) :=
  match v with
  | JObj fields => fields
  | JArr elems => indexed (fun x => x) 0 elems
  | JStr s => indexed (fun c => JStr [c]) 0 s
  | _ => []
  end.

(** [{ ...item, localUpdatedFile: finalFile }] *)
Definition output_record (item : value) (finalFile : jsstring) : value :=
  JObj (set_field (lit "localUpdatedFile") (JStr finalFile) (own_properties item)).

(** [typeof possibleDataUrl === "string" &&
     possibleDataUrl.match(/^data:image\/[a-zA-Z0-9+.-]+;base64,(.+)$/i)],
    then [match[1]] or [null].  The media-type run is greedy and cannot
    hold a semicolon, so the match is decided left to right. *)
Fixpoint strip_prefix_ci (pattern s : jsstring) : option jsstring :=
  match pattern, s with
  | [], _ => Some s
  | p :: pattern', c :: s' =>
      if canonicalize p =? canonicalize c then strip_prefix_ci pattern' s' else None
  | _ :: _, [] => None
  end.

(** The class [[a-zA-Z0-9+.-]] under flag [i]. *)
Definition media_type_class (c : code_unit) : bool :=
  let u := canonicalize c in
  between (canonicalize 97) (canonicalize 122) u || between 65 90 u
  || between 48 57 u || (u =? 43) || (u =? 46) || (u =? 45).

Fixpoint skip_class (class : code_unit -> bool) (s : jsstring) : jsstring :=
  match s with
  | c :: rest => if class c then skip_class class rest else s
  | [] => []
  end.

(** [.] matches every code unit but the line terminators. *)
Definition dot (c : code_unit) : bool :=
  negb ((c =? 10) || (c =? 13) || (c =? 8232) || (c =? 8233)).

Definition extractBase64FromDataUrl (possibleDataUrl : jsval) : option jsstring :=
  match possibleDataUrl with
  | Some (JStr s) =>
      match strip_prefix_ci (lit "data:image/") s with
      | Some (c :: after) =>
          if media_type_class c then
            match strip_prefix_ci (lit ";base64,") (skip_class media_type_class after) with
            | Some payload => if nonempty payload && forallb dot payload then Some payload else None
            | None => None
            end
          else None
      | _ => None
      end
  | _ => None
  end.

(* ================================================================= *)
(** ** The Node runtime *)

Inductive exn :=
| TypeError
| Error (message : jsstring).

Definition Buffer := list Init.Byte.byte.

Inductive file_data :=
| Bytes (b : Buffer)
| Text (s : jsstring).

(** What [https.get(url, callback)] does: it throws at once (a string that
    is not an absolute URL), or the request emits ['error'], or the
    callback receives a response. *)
Inductive http_reply :=
| RequestThrows (e : exn)
| RequestError (e : exn)
| Response (statusCode : N) (location : option jsstring).

(** How [response.pipe(file)] ends for the write stream [file]: the stream
    emits ['finish'], the body written; or it emits ['error'], a write
    having failed; or, before that, a request emits ['error'], its
    connection having failed: the request of the body or, after a redirect,
    the first request; or nothing of these happens, the body having broken
    off before its end, which ends no stream it is piped to. *)
Inductive pipe_end :=
| Finished
| WriteFails (e : exn)
| RequestFails (first : bool) (e : exn)
| BreaksOff.

Inductive fetch_request :=
| FetchGet (url : value)
| FetchPost (url : jsstring) (headers : list (jsstring * jsstring)) (body : jsstring).

Record fetch_response := {
  res_ok : bool;
  res_status : nat;
  res_statusText : jsstring;
  res_text : exn + jsstring;
  res_json : exn + value;
  res_arrayBuffer : exn + Buffer
}.

(** What the scripts take from JavaScript and Node.  The functions of the
    language are pure; a call that touches the outside world takes the
    world and returns it with its answer, so that the same call can answer
    differently later in a run. *)
Class Runtime := {
  World : Type;
  (* built-ins *)
  Number_toString : number -> jsstring;
  Number_of_string : jsstring -> number;
  JSON_parse : jsstring -> option value;
  JSON_stringify : value -> jsstring;
  JSON_stringify_indent2 : value -> jsstring;
  base64_decode : jsstring -> Buffer;
  base64_encode : Buffer -> jsstring;
  Buffer_from_other : value -> exn + Buffer;
  path_resolve : jsstring -> jsstring -> jsstring;
  path_join : jsstring -> jsstring -> jsstring;
  (* the process *)
  process_cwd : jsstring;
  process_argv : list jsstring;
  process_env : string -> option jsstring;
  (* the outside world *)
  fs_existsSync : jsstring -> World -> bool * World;
  fs_mkdirSync : jsstring -> World -> (exn + unit) * World;
  fs_readFileSync : jsstring -> World -> (exn + Buffer) * World;
  fs_readFileSync_utf8 : jsstring -> World -> (exn + jsstring) * World;
  fs_writeFileSync : jsstring -> file_data -> World -> (exn + unit) * World;
  (* the file that the stream of [fs.createWriteStream] opens, behind the
     scenes; and the body of a response piped to that stream *)
  fs_createWriteStream : jsstring -> World -> (exn + unit) * World;
  stream_pipe : jsstring -> World -> pipe_end * World;
  https_get : value -> World -> http_reply * World;
  fetch : fetch_request -> World -> (exn + fetch_response) * World;
  GoogleGenAI_new : World -> (exn + unit) * World;
  generateContent : value -> World -> (exn + value) * World
}.

(** What a run does that can be seen from outside, in the order in which
    it does it: each console line, each call into the world with its
    answer, each append to [outputs]. *)
Inductive event :=
| ConsoleLog (line : jsstring)
| ConsoleWarn (args : list jsstring)
| ConsoleError (line : jsstring) (message_of : exn)
| ConsoleErrorObject (e : exn)
| SetExitCode (code : nat)
| ExistsSync (path : jsstring) (result : bool)
| MkdirSync (path : jsstring) (result : exn + unit)
| ReadFile (path : jsstring) (result : exn + Buffer)
| ReadTextFile (path : jsstring) (result : exn + jsstring)
| WriteFile (path : jsstring) (data : file_data) (result : exn + unit)
| CreateWriteStream (path : jsstring)
| HttpsGet (url : value) (reply : http_reply)
| Unlink (path : jsstring)
| StreamToFile (path : jsstring)
| WriteStreamError (path : jsstring) (e : exn)
| LateRequestError (first : bool) (e : exn)
| Fetch (request : fetch_request) (result : exn + fetch_response)
| NewGoogleGenAI (result : exn + unit)
| GenerateContent (request : value) (result : exn + value)
| Push (record : value).

(** How a computation ends: with a value, with an exception that unwinds
    to the nearest [try]/[catch] (a rejected promise, once awaited), or with
    an exception thrown inside an event callback, which no [catch] of the
    script can see and which ends the process; or it does not end: the
    promise it awaits never settles, the script goes no further, and Node
    leaves when nothing else is left to do. *)
Inductive outcome (A : Type) :=
| Ok (a : A)
| Throw (e : exn)
| Fatal (e : exn)
| Pending.

Arguments Ok {A} a.
Arguments Throw {A} e.
Arguments Fatal {A} e.
Arguments Pending {A}.

Definition of_sum {A} (r : exn + A) : outcome A :=
  match r with
  | inl e => Throw e
  | inr a => Ok a
  end.

Inductive backend := Gemini | OpenRouter.

Inductive control := Next | Break.

(** The variables of [main] that the loop changes. *)
Record locals := {
  outputs : list value;
  index : nat;
  processed : nat
}.

(** What the generator [readJsonl] does for a line: it yields the parsed
    value, or it warns that the line is invalid. *)
Inductive gen_action :=
| Yield (item : value)
| InvalidLine (line : jsstring).

(* ================================================================= *)
(** ** The scripts *)

Section Scripts.
Context {R : Runtime}.

(** A computation reads and changes the world and emits events. *)
Definition M (A : Type) := World -> outcome A * World * list event.

Definition ret {A} (a : A) : M A := fun w => (Ok a, w, []).

Definition bind {A B} (m : M A) (f : A -> M B) : M B := fun w =>
  match m w with
  | (Ok a, w1, t1) =>
      match f a w1 with
      | (r, w2, t2) => (r, w2, t1 ++ t2)
      end
  | (Throw e, w1, t1) => (Throw e, w1, t1)
  | (Fatal e, w1, t1) => (Fatal e, w1, t1)
  | (Pending, w1, t1) => (Pending, w1, t1)
  end.

Definition throw {A} (e : exn) : M A := fun w => (Throw e, w, []).

Definition fatal {A} (e : exn) : M A := fun w => (Fatal e, w, []).

Definition pending {A} : M A := fun w => (Pending, w, []).

Definition lift {A} (r : outcome A) : M A := fun w => (r, w, []).

Definition emit (e : event) : M unit := fun w => (Ok tt, w, [e]).

(** [try { body } catch (err) { handler }] *)
Definition try_catch {A} (body : M A) (handler : exn -> M A) : M A := fun w =>
  match body w with
  | (Throw e, w1, t1) =>
      match handler e w1 with
      | (r, w2, t2) => (r, w2, t1 ++ t2)
      end
  | other => other
  end.

(** What the world holds in store, which shows in what follows. *)
Definition ask {A} (oracle : World -> A * World) : M A := fun w =>
  match oracle w with
  | (a, w1) => (Ok a, w1, [])
  end.

(** A call into the world, recorded with its result. *)
Definition call {A} (oracle : World -> A * World) (record : A -> event) : M A := fun w =>
  match oracle w with
  | (a, w1) => (Ok a, w1, [record a])
  end.

Definition call_or_throw {A} (oracle : World -> (exn + A) * World)
    (record : exn + A -> event) : M A :=
  bind (call oracle record) (fun r => lift (of_sum r)).

End Scripts.

Declare Scope js_scope.
Delimit Scope js_scope with js.
Notation "x <- m ;; k" := (bind m (fun x => k))
  (at level 61, m at next level, right associativity) : js_scope.
Notation "m ;; k" := (bind m (fun _ => k))
  (at level 61, right associativity) : js_scope.
Open Scope js_scope.

Section Program.
Context {R : Runtime}.

(** [String(v)], as a template literal applies it: [None] stands for the
    [TypeError] of an object that cannot be converted to a primitive, which
    is one whose own [toString] is not callable. *)
Fixpoint ToString (v : value) : option jsstring :=
  match v with
  | JNull => Some (lit "null")
  | JBool true => Some (lit "true")
  | JBool false => Some (lit "false")
  | JNum n => Some (Number_toString n)
  | JStr s => Some s
  | JArr elems =>
      (fix join (l : list value) : option jsstring :=
         match l with
         | [] => Some []
         | x :: rest =>
             match (match x with JNull => Some [] | _ => ToString x end), join rest with
             | Some s, Some tail =>
                 Some (match rest with [] => s | _ => s ++ lit "," ++ tail end)
             | _, _ => None
             end
         end) elems
  | JObj fields =>
      match assoc (lit "toString") fields with
      | Some _ => None
      | None => Some (lit "[object Object]")
      end
  end.

(** [v.k], which throws on [null]. *)
Definition prop (v : value) (k : string) : outcome jsval :=
  match v with
  | JNull => Throw TypeError
  | _ => Ok (get v k)
  end.

(** A template literal of two values around and between fixed texts. *)
Definition template2 (pre : string) (a : value) (mid : string) (b : value) (post : string)
  : outcome jsstring :=
  match ToString a, ToString b with
  | Some sa, Some sb => Ok (lit pre ++ sa ++ lit mid ++ sb ++ lit post)
  | _, _ => Throw TypeError
  end.

Definition ensureDirSync (dirPath : jsstring) : M unit :=
  found <- call (fs_existsSync dirPath) (ExistsSync dirPath) ;;
  if negb found
  then call_or_throw (fs_mkdirSync dirPath) (MkdirSync dirPath)
  else ret tt.

(** [new Error(`Failed to download ${url}: ${statusCode}`)], built inside
    the response callback. *)
Definition download_error (url : value) (statusCode : N) : M unit :=
  match ToString url with
  | Some s =>
      throw (Error (lit "Failed to download " ++ s ++ lit ": " ++ decimal (N.to_nat statusCode)))
  | None => fatal TypeError
  end.

Definition is_redirect (statusCode : N) (location : option jsstring) : option jsstring :=
  match location with
  | Some l =>
      if negb (statusCode =? 0) && (300 <=? statusCode) && (statusCode <? 400) && nonempty l
      then Some l else None
  | None => None
  end.

Definition is_failure (statusCode : N) : bool :=
  negb (statusCode =? 0) && (400 <=? statusCode).

(** The file of [fs.createWriteStream(destPath)], which the stream opens
    once the executor has made its request.  Nothing listens to the
    ['error'] of the stream: a file that cannot be opened ends the process
    with that error at the next turn of the event loop, which is taken to
    come before the answer to the request.  The run is cut there: what the
    script still does in the turn of a request that has thrown at once
    (the rejection it logs) is not in the trace. *)
Definition open_stream (destPath : jsstring) : M unit :=
  opened <- ask (fs_createWriteStream destPath) ;;
  match opened with
  | inr _ => ret tt
  | inl e => emit (WriteStreamError destPath e) ;; fatal e
  end.

(** [response.pipe(file); file.on("finish", () => file.close(() =>
    resolve(destPath)))]: the promise is resolved when the stream has
    finished; the ['error'] of the stream ends the process; the ['error']
    of a request goes to the handler of that request; and when the body
    breaks off the promise is left as it is. *)
Definition pipe_to_file (destPath : jsstring) (on_error : bool -> exn -> M unit) : M unit :=
  ended <- ask (stream_pipe destPath) ;;
  match ended with
  | Finished => emit (StreamToFile destPath)
  | WriteFails e => emit (WriteStreamError destPath e) ;; fatal e
  | RequestFails first e => emit (LateRequestError first e) ;; on_error first e
  | BreaksOff => pending
  end.

(** The promise of [downloadFile], awaited: [reject] is a [throw]; what is
    thrown inside the response callback, after the executor has returned,
    reaches no [reject] and is [fatal]. *)
Definition downloadFile (url : value) (destPath : jsstring) : M unit :=
  let unlink_and_reject (err : exn) : M unit := emit (Unlink destPath) ;; throw err in
  emit (CreateWriteStream destPath) ;;
  reply <- call (https_get url) (HttpsGet url) ;;
  open_stream destPath ;;
  match reply with
  | RequestThrows e => throw e
  | RequestError e => unlink_and_reject e
  | Response statusCode location =>
      match is_redirect statusCode location with
      | Some l =>
          redirected <- call (https_get (JStr l)) (HttpsGet (JStr l)) ;;
          match redirected with
          | RequestThrows e => fatal e
          | RequestError e => throw e
          | Response statusCode' _ =>
              if is_failure statusCode' then download_error url statusCode'
              else pipe_to_file destPath
                     (fun first err => if first then unlink_and_reject err else throw err)
          end
      | None =>
          if is_failure statusCode then download_error url statusCode
          else pipe_to_file destPath (fun _ err => unlink_and_reject err)
      end
  end.

(** [Buffer.from(data, "base64")] *)
Definition Buffer_from (data : jsval) : M Buffer :=
  match data with
  | Some (JStr s) => ret (base64_decode s)
  | Some v => lift (of_sum (Buffer_from_other v))
  | None => throw TypeError
  end.

(** The values a [for ... of] loop walks. *)
Definition iterate (v : value) : outcome (list value) :=
  match v with
  | JArr elems => Ok elems
  | JStr s => Ok (map JStr (code_points s))
  | _ => Throw TypeError
  end.

Definition gemini_prompt : jsstring := lit
  "Place the provided fragrance bottle onto the provided background image to create a professional studio shot with a clean solid look (white or light neutral). Use soft, diffused, even lighting with realistic reflections and gentle shadows that match the background. Keep the original product, label, and shape unchanged. Remove noise, glare, harsh shadows, and distracting elements. Ensure the final image is a widescreen 16:9 product image (e.g., 1920x1080) with the product centered. Do NOT stretch or distort the product; extend or blend the background canvas as needed to maintain 16:9. Return only the final enhanced image.".

Definition inline_data (mimeType : string) (data : jsstring) : value :=
  JObj [(lit "inlineData",
         JObj [(lit "mimeType", JStr (lit mimeType)); (lit "data", JStr data)])].

(** The loop over [response.candidates?.[0]?.content?.parts || []]. *)
Fixpoint first_inline_image (parts : list value) : M Buffer :=
  match parts with
  | [] => throw (Error (lit "Gemini did not return an image"))
  | part :: rest =>
      inlineData <- lift (prop part "inlineData") ;;
      let data := opt_get inlineData "data" in
      if truthy data then Buffer_from data else first_inline_image rest
  end.

Definition enhanceImageWithGemini (inputBuffer : Buffer) (backgroundBase64 : option jsstring)
  : M Buffer :=
  let base64Image := base64_encode inputBuffer in
  let prompt :=
    [JObj [(lit "text", JStr gemini_prompt)]; inline_data "image/jpeg" base64Image]
      ++ match backgroundBase64 with
         | Some b => if nonempty b then [inline_data "image/png" b] else []
         | None => []
         end in
  let request :=
    JObj [(lit "model", JStr (lit "gemini-2.5-flash-image-preview"));
          (lit "contents", JArr prompt)] in
  response <- call_or_throw (generateContent request) (GenerateContent request) ;;
  candidates <- lift (prop response "candidates") ;;
  let parts := or_else (opt_get (opt_get (opt_first candidates) "content") "parts") (JArr []) in
  elems <- lift (iterate parts) ;;
  first_inline_image elems.

Definition fetchImageAsBuffer (url : value) : M Buffer :=
  res <- call_or_throw (fetch (FetchGet url)) (Fetch (FetchGet url)) ;;
  if negb (res_ok res)
  then throw (Error (lit "Failed to fetch image url: " ++ decimal (res_status res)
                       ++ lit " " ++ res_statusText res))
  else lift (of_sum (res_arrayBuffer res)).

(** A value when it is truthy. *)
Definition when_truthy (v : jsval) : option value :=
  if truthy v then v else None.

(** [a || b], on expressions. *)
Definition or_val (a b : jsval) : jsval :=
  if truthy a then a else b.

(** The loop over [message.images]; [None] when it ends without [return]. *)
Fixpoint scan_images (images : list value) : M (option Buffer) :=
  match images with
  | [] => ret None
  | img :: rest =>
      match (if type_is img "image_url"
             then when_truthy (opt_get (get img "image_url") "url") else None) with
      | Some url =>
          match extractBase64FromDataUrl (Some url) with
          | Some b64 => buf <- Buffer_from (Some (JStr b64)) ;; ret (Some buf)
          | None => buf <- fetchImageAsBuffer url ;; ret (Some buf)
          end
      | None =>
          if is_string (Some img) then
            match extractBase64FromDataUrl (Some img) with
            | Some b64 => buf <- Buffer_from (Some (JStr b64)) ;; ret (Some buf)
            | None => scan_images rest
            end
          else scan_images rest
      end
  end.

(** Case 1 of the loop over a content array: an [output_image] part. *)
Definition output_image_case (part : value) : M (option Buffer) :=
  if type_is part "output_image" then
    let data := get part "data" in
    let base64 :=
      or_val (get part "image_base64")
        (or_val (get part "b64_json")
           (or_val (get part "base64")
              (if is_string data then data else Some JNull))) in
    if truthy base64 then buf <- Buffer_from base64 ;; ret (Some buf)
    else if is_string data then
      match extractBase64FromDataUrl data with
      | Some b64 => buf <- Buffer_from (Some (JStr b64)) ;; ret (Some buf)
      | None => ret None
      end
    else ret None
  else ret None.

(** The loop over a content array; [None] when it ends without [return]. *)
Fixpoint scan_content (content : list value) : M (option Buffer) :=
  match content with
  | [] => ret None
  | part :: rest =>
      found <- output_image_case part ;;
      match found with
      | Some buf => ret (Some buf)
      | None =>
          match (if type_is part "image_url"
                 then when_truthy (opt_get (get part "image_url") "url") else None) with
          | Some url => buf <- fetchImageAsBuffer url ;; ret (Some buf)
          | None =>
              if type_is part "text" && is_string (get part "text") then
                match extractBase64FromDataUrl (get part "text") with
                | Some b64 => buf <- Buffer_from (Some (JStr b64)) ;; ret (Some buf)
                | None => scan_content rest
                end
              else scan_content rest
          end
      end
  end.

Definition extractImageBufferFromOpenRouterResponse (json : value) : M Buffer :=
  let choice := opt_first (opt_get (Some json) "choices") in
  let message := opt_get choice "message" in
  let content := opt_get message "content" in
  let images := opt_get message "images" in
  from_images <- match images with
                 | Some (JArr imgs) => scan_images imgs
                 | _ => ret None
                 end ;;
  match from_images with
  | Some buf => ret buf
  | None =>
      from_content <- match content with
                      | Some (JArr parts) => scan_content parts
                      | _ => ret None
                      end ;;
      match from_content with
      | Some buf => ret buf
      | None =>
          match (if is_string content then extractBase64FromDataUrl content else None) with
          | Some b64 => Buffer_from (Some (JStr b64))
          | None => throw (Error (lit "OpenRouter response did not include an image"))
          end
      end
  end.

(** [process.env.NAME || fallback] *)
Definition env_or (name : string) (fallback : string) : jsstring :=
  match process_env name with
  | Some s => if nonempty s then s else lit fallback
  | None => lit fallback
  end.

Definition image_url_part (url : value) : value :=
  JObj [(lit "type", JStr (lit "image_url")); (lit "image_url", JObj [(lit "url", url)])].

Definition enhanceImageWithOpenRouter (promptText : jsstring) (imageUrl : value)
    (backgroundDataUrl : option jsstring) : M Buffer :=
  match when_truthy (option_map JStr (process_env "OPENROUTER_API_KEY")) with
  | Some (JStr apiKey) =>
      let referer := env_or "OPENROUTER_SITE_URL" "https://localhost" in
      let title := env_or "OPENROUTER_SITE_NAME" "banosser" in
      let body :=
        JObj [(lit "model", JStr (lit "google/gemini-2.5-flash-image-preview"));
              (lit "messages",
               JArr [JObj [(lit "role", JStr (lit "user"));
                           (lit "content",
                            JArr ([JObj [(lit "type", JStr (lit "text"));
                                         (lit "text", JStr promptText)];
                                   image_url_part imageUrl]
                                    ++ match backgroundDataUrl with
                                       | Some b =>
                                           if nonempty b then [image_url_part (JStr b)] else []
                                       | None => []
                                       end))]]);
              (lit "modalities", JArr [JStr (lit "image"); JStr (lit "text")])] in
      let request :=
        FetchPost (lit "https://openrouter.ai/api/v1/chat/completions")
          [(lit "Authorization", lit "Bearer " ++ apiKey);
           (lit "HTTP-Referer", referer);
           (lit "X-Title", title);
           (lit "Content-Type", lit "application/json")]
          (JSON_stringify body) in
      res <- call_or_throw (fetch request) (Fetch request) ;;
      if negb (res_ok res) then
        errText <- lift (of_sum (res_text res)) ;;
        throw (Error (lit "OpenRouter error: " ++ decimal (res_status res) ++ lit " "
                        ++ res_statusText res ++ lit " - " ++ errText))
      else
        json <- lift (of_sum (res_json res)) ;;
        extractImageBufferFromOpenRouterResponse json
  | _ => throw (Error (lit "Missing OPENROUTER_API_KEY env var"))
  end.

Definition openrouter_prompt : jsstring := lit
  "Place the provided fragrance bottle into a professional studio shot on a clean solid background (white or light neutral), with soft diffused, even lighting, realistic reflections and gentle shadows. Keep original product, label and shape unchanged. Remove noise, glare, harsh shadows, distracting elements. Ensure the final image is a widescreen 16:9 product image, with the product centered. Do NOT stretch or distort the product; extend the background canvas to maintain 16:9. Return only the final enhanced image.".

(** What [main] fixes before the loop starts. *)
Record config := {
  which : backend;
  limit : option number;
  workingDir : jsstring;
  finalDir : jsstring;
  background : option jsstring
}.

(** [limit && processed >= limit] *)
Definition limit_reached (limit : option number) (processed : nat) : bool :=
  match limit with
  | Some n => number_truthy n && counter_ge processed n
  | None => false
  end.

(** From the downloaded file to the enhanced image. *)
Definition enhance (c : config) (url : value) (workingFile : jsstring) : M Buffer :=
  match which c with
  | Gemini =>
      inputBuffer <- call_or_throw (fs_readFileSync workingFile) (ReadFile workingFile) ;;
      enhanceImageWithGemini inputBuffer (background c)
  | OpenRouter => enhanceImageWithOpenRouter openrouter_prompt url (background c)
  end.

Definition failed_prefix (b : backend) : string :=
  match b with
  | Gemini => "Failed: "
  | OpenRouter => "Failed (OpenRouter): "
  end.

Definition image_name (baseName : jsstring) : jsstring := baseName ++ lit ".jpg".

(** The [try] block of the loop body. *)
Definition attempt (c : config) (item url : value) (baseName : jsstring) (st : locals)
  : M (control * locals) :=
  let workingFile := path_join (workingDir c) (image_name baseName) in
  let finalFile := path_join (finalDir c) (image_name baseName) in
  emit (ConsoleLog (lit "Began working on: " ++ image_name baseName)) ;;
  downloadFile url workingFile ;;
  enhancedBuffer <- enhance c url workingFile ;;
  call_or_throw (fs_writeFileSync finalFile (Bytes enhancedBuffer))
    (WriteFile finalFile (Bytes enhancedBuffer)) ;;
  emit (Push (output_record item finalFile)) ;;
  emit (ConsoleLog (lit "Completed work: " ++ image_name baseName)) ;;
  let processed' := S (processed st) in
  ret (if limit_reached (limit c) processed' then Break else Next,
       {| outputs := outputs st ++ [output_record item finalFile];
          index := index st;
          processed := processed' |}).

(** One pass through the body of the [for await] loop. *)
Definition iteration (c : config) (item : value) (st0 : locals) : M (control * locals) :=
  let st := {| outputs := outputs st0; index := S (index st0); processed := processed st0 |} in
  item_brand <- lift (prop item "brand") ;;
  let brand := or_else item_brand (JStr (lit "brand")) in
  item_name <- lift (prop item "name") ;;
  let name := or_else item_name (JStr (lit "item_" ++ decimal (index st))) in
  imageUrl <- lift (prop item "imageUrl") ;;
  match when_truthy imageUrl with
  | None =>
      message <- lift (template2 "Skipping item without imageUrl: " brand " " name "") ;;
      emit (ConsoleWarn [message]) ;;
      ret (Next, st)
  | Some url =>
      base <- lift (template2 "" brand "_" name "") ;;
      try_catch (attempt c item url (toSafeFilename base) st)
        (fun err =>
           message <- lift (template2 (failed_prefix (which c)) brand " - " name ":") ;;
           emit (ConsoleError message err) ;;
           ret (Next, st))
  end.

(** [readJsonl], after the file is read: parse each line, yield it or warn. *)
Definition readJsonl_lines (lines : list jsstring) : list gen_action :=
  map (fun line =>
         match JSON_parse line with
         | Some item => Yield item
         | None => InvalidLine line
         end) lines.

Definition readJsonl (filePath : jsstring) : M (list gen_action) :=
  content <- call_or_throw (fs_readFileSync_utf8 filePath) (ReadTextFile filePath) ;;
  ret (readJsonl_lines (jsonl_lines content)).

(** The [for await] loop driving the generator: a line that does not parse
    is reported when the generator passes it, a [break] leaves the rest of
    the generator unrun. *)
Fixpoint for_await (c : config) (actions : list gen_action) (st : locals)
  : M (control * locals) :=
  match actions with
  | [] => ret (Next, st)
  | InvalidLine line :: rest =>
      emit (ConsoleWarn [lit "Skipping invalid JSONL line:"; line]) ;;
      for_await c rest st
  | Yield item :: rest =>
      r <- iteration c item st ;;
      match r with
      | (Next, st') => for_await c rest st'
      | (Break, st') => ret (Break, st')
      end
  end.

(** [process.argv.indexOf("--limit")] and the argument after it. *)
Fixpoint limit_argument (argv : list jsstring) : option (option jsstring) :=
  match argv with
  | [] => None
  | a :: rest => if str_eqb a (lit "--limit") then Some (hd_error rest) else limit_argument rest
  end.

(** [Number(arg)], where a missing argument is [undefined]. *)
Definition Number_of (arg : option jsstring) : number :=
  match arg with
  | Some s => Number_of_string s
  | None => NaN
  end.

Definition cli_limit : option number :=
  option_map Number_of (limit_argument process_argv).

Definition load_background (b : backend) (bgPath : jsstring) : M (option jsstring) :=
  found <- call (fs_existsSync bgPath) (ExistsSync bgPath) ;;
  if found then
    try_catch
      (bgBuffer <- call_or_throw (fs_readFileSync bgPath) (ReadFile bgPath) ;;
       let b64 := base64_encode bgBuffer in
       ret (Some match b with
                 | Gemini => b64
                 | OpenRouter => lit "data:image/png;base64," ++ b64
                 end))
      (fun _ => ret None)
  else
    emit (ConsoleWarn [lit "Background image ./bg.png not found. Proceeding without background."]) ;;
    ret None.

Definition start : locals := {| outputs := []; index := 0; processed := 0 |}.

Definition data_json_path (finalDir : jsstring) : jsstring :=
  path_join finalDir (lit "data.json").

(** The end of [main]: the manifest and the closing line. *)
Definition write_manifest (finalDir : jsstring) (outputs : list value) : M unit :=
  let dataJsonPath := data_json_path finalDir in
  call_or_throw (fs_writeFileSync dataJsonPath (Text (JSON_stringify_indent2 (JArr outputs))))
    (WriteFile dataJsonPath (Text (JSON_stringify_indent2 (JArr outputs)))) ;;
  emit (ConsoleLog (lit "Wrote " ++ decimal (List.length outputs) ++ lit " records to " ++ dataJsonPath)).

(** [main], up to the loop: the configuration and the generator. *)
Definition prepare (b : backend) : M (config * list gen_action) :=
  let projectRoot := process_cwd in
  let jsonlPath := path_resolve projectRoot (lit "fragrances_with_images_fast.jsonl") in
  let workingDir := path_resolve projectRoot (lit "working") in
  let finalDir := path_resolve projectRoot (lit "final") in
  let bgPath := path_resolve projectRoot (lit "bg.png") in
  bg <- load_background b bgPath ;;
  ensureDirSync workingDir ;;
  ensureDirSync finalDir ;;
  match b with
  | Gemini => call_or_throw GoogleGenAI_new NewGoogleGenAI
  | OpenRouter => ret tt
  end ;;
  actions <- readJsonl jsonlPath ;;
  ret ({| which := b; limit := cli_limit; workingDir := workingDir;
          finalDir := finalDir; background := bg |}, actions).

Definition main (b : backend) : M unit :=
  p <- prepare b ;;
  r <- for_await (fst p) (snd p) start ;;
  write_manifest (finalDir (fst p)) (outputs (snd r)).

(** [main().catch((e) => { console.error(e); process.exitCode = 1; })] *)
Definition script (b : backend) : M unit :=
  try_catch (main b) (fun e => emit (ConsoleErrorObject e) ;; emit (SetExitCode 1)).

End Program.

(* ================================================================= *)
(** ** The menu ([index.js]) *)

(** White space and line terminators, as [String.prototype.trim] takes
    them off. *)
Definition white_space (c : code_unit) : bool :=
  between 9 13 c || (c =? 32) || (c =? 160) || (c =? 5760) || between 8192 8202 c
  || (c =? 8232) || (c =? 8233) || (c =? 8239) || (c =? 8287) || (c =? 12288)
  || (c =? 65279).

(** [s.trim()] *)
Definition trim (s : jsstring) : jsstring :=
  rev (skip_class white_space (rev (skip_class white_space s))).

(** [args.join(sep)] *)
Fixpoint Array_join (sep : jsstring) (args : list jsstring) : jsstring :=
  match args with
  | [] => []
  | x :: rest =>
      match rest with
      | [] => x
      | _ => x ++ sep ++ Array_join sep rest
      end
  end.

(** How the promise of [runScript] ends. *)
Inductive settled :=
| Resolved
| Rejected (message : jsstring).

(** [runScript(command, args)], once the child has emitted ['exit'] with
    [code], which is [null] when a signal ended the child.  A child that
    cannot be started emits ['error'], for which [runScript] has no handler;
    that is left out. *)
Definition runScript (command : jsstring) (args : list jsstring) (code : option nat)
  : settled :=
  match code with
  | Some O => Resolved
  | _ =>
      Rejected (command ++ lit " " ++ Array_join (lit " ") args ++ lit " exited with code "
                  ++ match code with
                     | Some n => decimal n
                     | None => lit "null"
                     end)
  end.

Record menu_option := {
  option_id : jsstring;
  option_label : jsstring
}.

Definition options : list menu_option :=
  [ {| option_id := lit "openrouter";
       option_label := lit "Use OpenRouter (process:images:openrouter)" |};
    {| option_id := lit "google";
       option_label := lit "Use Google GenAI SDK (process:images)" |};
    {| option_id := lit "quit"; option_label := lit "Quit" |} ].

(** The flags of Ink's [key] that the handler reads. *)
Record key := {
  upArrow : bool;
  downArrow : bool;
  return_key : bool;
  escape : bool;
  backspace : bool;
  delete : bool
}.

(** The state of [App]: the five [useState] cells ([selected] is the cell
    [index]), and the scripts started by [runScript] that have not exited
    yet, each with its command and arguments.  A handler reads the state
    that the event before it has left: React has rendered in between. *)
Record app_state := {
  selected : nat;
  status : jsstring;
  running : bool;
  askLimit : bool;
  limitInput : jsstring;
  children : list (jsstring * list jsstring)
}.

Definition initial_app : app_state :=
  {| selected := 0; status := lit "Choose backend and press Enter"; running := false;
     askLimit := false; limitInput := []; children := [] |}.

(** What a handler does besides setting state. *)
Inductive effect :=
| ExitApp
| Spawn (command : jsstring) (args : list jsstring).

(** [onEnter]; [None] stands for the [TypeError] of [options[index].id]
    when [index] is no index of [options]. *)
Definition onEnter (s : app_state) : option (app_state * list effect) :=
  if running s then Some (s, [])
  else
    match nth_error options (selected s) with
    | None => None
    | Some opt =>
        if str_eqb (option_id opt) (lit "quit") then Some (s, [ExitApp])
        else
          Some ({| selected := selected s; status := status s; running := running s;
                   askLimit := true; limitInput := limitInput s; children := children s |},
                [])
    end.

(** Enter at the prompt: the [async] block up to its first [await]; with
    a choice that starts no script the block runs to its end at once. *)
Definition start_script (s : app_state) : option (app_state * list effect) :=
  match nth_error options (selected s) with
  | None => None
  | Some opt =>
      let choice := option_id opt in
      let trimmed := trim (limitInput s) in
      let args := if nonempty trimmed then [lit "--limit"; trimmed] else [] in
      let launch (message script : string) :=
        Some ({| selected := selected s; status := lit message; running := true;
                 askLimit := false; limitInput := limitInput s;
                 children := children s ++ [(lit "pnpm", [lit "run"; lit script] ++ args)] |},
              [Spawn (lit "pnpm") ([lit "run"; lit script] ++ args)]) in
      if str_eqb choice (lit "openrouter") then
        launch "Running OpenRouter image processing..."%string
          "process:images:openrouter"%string
      else if str_eqb choice (lit "google") then
        launch "Running Google GenAI SDK image processing..."%string
          "process:images"%string
      else
        Some ({| selected := selected s; status := lit "Done. See ./final for outputs.";
                 running := false; askLimit := false; limitInput := [];
                 children := children s |},
              [])
  end.

(** [/^[0-9]$/.test(input)] *)
Definition one_digit (input : jsstring) : bool :=
  match input with
  | [c] => between 48 57 c
  | _ => false
  end.

(** The handler given to [useInput]. *)
Definition useInput (input : jsstring) (k : key) (s : app_state) : option (app_state * list effect) :=
  if askLimit s then
    if return_key k then start_script s
    else if backspace k || delete k then
      Some ({| selected := selected s; status := status s; running := running s;
               askLimit := askLimit s; limitInput := removelast (limitInput s);
               children := children s |},
            [])
    else if one_digit input then
      Some ({| selected := selected s; status := status s; running := running s;
               askLimit := askLimit s;
               limitInput := if (List.length (limitInput s) <? 6)%nat
                             then limitInput s ++ input else limitInput s;
               children := children s |},
            [])
    else if escape k then
      Some ({| selected := selected s; status := status s; running := running s;
               askLimit := false; limitInput := []; children := children s |},
            [])
    else Some (s, [])
  else if upArrow k then
    Some ({| selected := if (0 <? selected s)%nat then (selected s - 1)%nat
                         else (List.length options - 1)%nat;
             status := status s; running := running s; askLimit := askLimit s;
             limitInput := limitInput s; children := children s |},
          [])
  else if downArrow k then
    Some ({| selected := ((selected s + 1) mod List.length options)%nat;
             status := status s; running := running s; askLimit := askLimit s;
             limitInput := limitInput s; children := children s |},
          [])
  else if return_key k then onEnter s
  else Some (s, []).

Fixpoint without_nth {A} (n : nat) (l : list A) : list A :=
  match n, l with
  | _, [] => []
  | O, _ :: rest => rest
  | S n', x :: rest => x :: without_nth n' rest
  end.

(** The rest of the [async] block when the [n]-th pending child exits:
    the end of [try] or the [catch], then the [finally]. *)
Definition child_exited (n : nat) (code : option nat) (s : app_state) : app_state :=
  match nth_error (children s) n with
  | None => s
  | Some (command, args) =>
      {| selected := selected s;
         status := match runScript command args code with
                   | Resolved => lit "Done. See ./final for outputs."
                   | Rejected message => lit "Error: " ++ message
                   end;
         running := false; askLimit := askLimit s; limitInput := [];
         children := without_nth n (children s) |}
  end.

(** What happens to the app: a key press, or the exit of a child. *)
Inductive ui_event :=
| KeyPress (input : jsstring) (k : key)
| ChildExit (n : nat) (code : option nat).

Definition handle (ev : ui_event) (s : app_state) : option (app_state * list effect) :=
  match ev with
  | KeyPress input k => useInput input k s
  | ChildExit n code => Some (child_exited n code s, [])
  end.

Definition exits (effects : list effect) : bool :=
  existsb (fun e => match e with ExitApp => true | Spawn _ _ => false end) effects.

(** The events of a session, each handled on the state the one before
    left; [exit()] unmounts the app, which handles nothing after it. *)
Fixpoint session (events : list ui_event) (s : app_state) : option (app_state * list effect) :=
  match events with
  | [] => Some (s, [])
  | ev :: rest =>
      match handle ev s with
      | None => None
      | Some (s1, effects) =>
          if exits effects then Some (s1, effects)
          else
            match session rest s1 with
            | None => None
            | Some (s2, later) => Some (s2, effects ++ later)
            end
      end
  end.

(* ================================================================= *)
(** ** Observations on a run *)

Definition result_of {A W} (r : outcome A * W * list event) : outcome A := fst (fst r).
Definition trace_of {A W} (r : outcome A * W * list event) : list event := snd r.

(** The stages of the pipeline that leave an event. *)
Inductive step := Download | CallApi | Decode | WriteFinal | Append.

Definition rank (s : step) : nat :=
  match s with
  | Download => 1
  | CallApi => 2
  | Decode => 3
  | WriteFinal => 4
  | Append => 5
  end.

(** The stage an event belongs to.  Reading the downloaded file back is
    the first half of the call to the Gemini API; a fetch of an image URL
    named in the answer is part of the decoding. *)
Definition step_of (e : event) : option step :=
  match e with
  | CreateWriteStream _ | HttpsGet _ _ | Unlink _ | StreamToFile _
  | WriteStreamError _ _ | LateRequestError _ _ => Some Download
  | ReadFile _ _ | GenerateContent _ _ | Fetch (FetchPost _ _ _) _ => Some CallApi
  | Fetch (FetchGet _) _ => Some Decode
  | WriteFile _ (Bytes _) _ => Some WriteFinal
  | Push _ => Some Append
  | _ => None
  end.

Definition steps (t : list event) : list step :=
  flat_map (fun e => match step_of e with Some s => [s] | None => [] end) t.

Definition in_order (a b : step) : Prop := (rank a <= rank b)%nat.

Definition download_completed (t : list event) : Prop :=
  exists path, In (StreamToFile path) t.

Definition api_answered (t : list event) : Prop :=
  (exists request response, In (GenerateContent request (inr response)) t)
  \/ (exists url headers body res,
        In (Fetch (FetchPost url headers body) (inr res)) t /\ res_ok res = true).

Definition image_written (t : list event) : Prop :=
  exists path bytes, In (WriteFile path (Bytes bytes) (inr tt)) t.

(** The records appended to [outputs], in order. *)
Definition pushes (t : list event) : list value :=
  flat_map (fun e => match e with Push record => [record] | _ => [] end) t.

(** The image files written without error, in order. *)
Definition written_images (t : list event) : list jsstring :=
  flat_map (fun e => match e with
                     | WriteFile path (Bytes _) (inr _) => [path]
                     | _ => []
                     end) t.

(** The manifests written, whatever the result of the write. *)
Definition manifests (t : list event) : list (jsstring * jsstring) :=
  flat_map (fun e => match e with
                     | WriteFile path (Text s) _ => [(path, s)]
                     | _ => []
                     end) t.

(** Downloads started: each attempt on a record opens its working file once. *)
Definition attempts (t : list event) : list jsstring :=
  flat_map (fun e => match e with CreateWriteStream path => [path] | _ => [] end) t.

Definition failures_logged (t : list event) : list exn :=
  flat_map (fun e => match e with ConsoleError _ err => [err] | _ => [] end) t.

(** An own property under any key. *)
Definition field (v : value) (k : jsstring) : jsval :=
  match v with
  | JObj fields => assoc k fields
  | _ => None
  end.

Definition keys (v : value) : list jsstring :=
  match v with
  | JObj fields => map fst fields
  | _ => []
  end.

(** The set [[A-Za-z0-9._-]], spelled out. *)
Definition safe_char (c : code_unit) : bool :=
  between 65 90 c || between 97 122 c || between 48 57 c
  || (c =? 46) || (c =? 95) || (c =? 45).

Section Records.
Context {R : Runtime}.

Definition printable (v : jsval) : bool :=
  match v with
  | Some x => if truthy v then match ToString x with Some _ => true | None => false end else true
  | None => true
  end.

(** A line the loop body can take: a value other than [null] whose
    [brand] and [name], when they are set, can be put in a string. *)
Definition well_formed (item : value) : bool :=
  match item with
  | JNull => false
  | _ => printable (get item "brand") && printable (get item "name")
  end.

Definition yielded (actions : list gen_action) : list value :=
  flat_map (fun a => match a with Yield item => [item] | InvalidLine _ => [] end) actions.

Definition rejected (actions : list gen_action) : list jsstring :=
  flat_map (fun a => match a with Yield _ => [] | InvalidLine line => [line] end) actions.

(** The shapes of an OpenRouter response that hold an image, as what they
    hold: a payload for [Buffer.from], or a URL to fetch. *)
Inductive candidate :=
| Payload (data : jsval)
| Remote (url : value).

Definition data_url_payload (v : jsval) : option candidate :=
  option_map (fun b64 => Payload (Some (JStr b64))) (extractBase64FromDataUrl v).

Definition remote_url (v : value) : option value :=
  if type_is v "image_url" then when_truthy (opt_get (get v "image_url") "url") else None.

(** An entry of [message.images]. *)
Definition image_candidate (img : value) : option candidate :=
  match remote_url img with
  | Some url =>
      match data_url_payload (Some url) with
      | Some p => Some p
      | None => Some (Remote url)
      end
  | None => if is_string (Some img) then data_url_payload (Some img) else None
  end.

(** A part of a content array: [output_image], [image_url], [text]. *)
Definition part_candidate (part : value) : option candidate :=
  if type_is part "output_image" then
    let data := get part "data" in
    let base64 :=
      or_val (get part "image_base64")
        (or_val (get part "b64_json")
           (or_val (get part "base64") (if is_string data then data else Some JNull))) in
    if truthy base64 then Some (Payload base64)
    else if is_string data then data_url_payload data else None
  else
    match remote_url part with
    | Some url => Some (Remote url)
    | None =>
        if type_is part "text" && is_string (get part "text")
        then data_url_payload (get part "text") else None
    end.

Definition choose {A B} (f : A -> option B) (l : list A) : list B :=
  flat_map (fun x => match f x with Some y => [y] | None => [] end) l.

(** Every shape of the response that matches, in the order of the checks. *)
Definition candidates (json : value) : list candidate :=
  let message := opt_get (opt_first (opt_get (Some json) "choices")) "message" in
  let content := opt_get message "content" in
  match opt_get message "images" with
  | Some (JArr imgs) => choose image_candidate imgs
  | _ => []
  end
  ++ match content with
     | Some (JArr parts) => choose part_candidate parts
     | Some (JStr _) => choose data_url_payload [content]
     | _ => []
     end.

Definition use_candidate (c : candidate) : M Buffer :=
  match c with
  | Payload data => Buffer_from data
  | Remote url => fetchImageAsBuffer url
  end.

End Records.

(* ================================================================= *)
(** ** Notions for the proofs *)

Section Notions.
Context {R : Runtime}.

(** Every event of [m], from every world, satisfies [P]. *)
Definition emits {A} (P : event -> Prop) (m : M A) : Prop :=
  forall w, Forall P (trace_of (m w)).

(** The steps of [m] come in order and have ranks from [lo] to [hi]. *)
Definition staged {A} (lo hi : nat) (m : M A) : Prop :=
  forall w,
    StronglySorted in_order (steps (trace_of (m w)))
    /\ Forall (fun s => lo <= rank s <= hi)%nat (steps (trace_of (m w))).

(** [m], with its result wrapped as a loop's [return]. *)
Definition returned {A} (m : M A) : M (option A) :=
  bind m (fun a => ret (Some a)).

Definition brand_of (item : value) : value :=
  or_else (get item "brand") (JStr (lit "brand")).

Definition name_of (item : value) (index : nat) : value :=
  or_else (get item "name") (JStr (lit "item_" ++ decimal index)).

(** [toSafeFilename(`${brand}_${name}`)] for the item read at [index]. *)
Definition base_name (item : value) (index : nat) : option jsstring :=
  match ToString (brand_of item), ToString (name_of item index) with
  | Some b, Some n => Some (toSafeFilename (lit "" ++ b ++ lit "_" ++ n ++ lit ""))
  | _, _ => None
  end.

Definition working_file (c : config) (baseName : jsstring) : jsstring :=
  path_join (workingDir c) (image_name baseName).

Definition final_file (c : config) (baseName : jsstring) : jsstring :=
  path_join (finalDir c) (image_name baseName).

(** The locals after [index += 1]. *)
Definition counted (st : locals) : locals :=
  {| outputs := outputs st; index := S (index st); processed := processed st |}.

(** The locals after a success. *)
Definition appended (st : locals) (record : value) : locals :=
  {| outputs := outputs st ++ [record]; index := S (index st); processed := S (processed st) |}.

(** The ways one pass through the loop body can go: it throws before its
    [try], it skips the record, it appends the record, it logs a failure,
    it is ended by an error that no [catch] sees, or it never ends. *)
Inductive pass (c : config) (item : value) (st : locals)
  : outcome (control * locals) -> list event -> Prop :=
| pass_uncaught :
    item = JNull \/ base_name item (S (index st)) = None ->
    pass c item st (Throw TypeError) []
| pass_skipped message :
    item <> JNull -> truthy (get item "imageUrl") = false ->
    pass c item st (Ok (Next, counted st)) [ConsoleWarn [message]]
| pass_success url baseName t :
    when_truthy (get item "imageUrl") = Some url ->
    base_name item (S (index st)) = Some baseName ->
    pushes t = [output_record item (final_file c baseName)] ->
    written_images t = [final_file c baseName] ->
    attempts t = [working_file c baseName] ->
    failures_logged t = [] ->
    manifests t = [] ->
    pass c item st
      (Ok (if limit_reached (limit c) (S (processed st)) then Break else Next,
           appended st (output_record item (final_file c baseName)))) t
| pass_caught url baseName e t :
    when_truthy (get item "imageUrl") = Some url ->
    base_name item (S (index st)) = Some baseName ->
    pushes t = [] ->
    written_images t = [] ->
    attempts t = [working_file c baseName] ->
    failures_logged t = [e] ->
    manifests t = [] ->
    pass c item st (Ok (Next, counted st)) t
| pass_fatal url baseName e t :
    when_truthy (get item "imageUrl") = Some url ->
    base_name item (S (index st)) = Some baseName ->
    pushes t = [] ->
    written_images t = [] ->
    attempts t = [working_file c baseName] ->
    failures_logged t = [] ->
    manifests t = [] ->
    pass c item st (Fatal e) t
| pass_pending url baseName t :
    when_truthy (get item "imageUrl") = Some url ->
    base_name item (S (index st)) = Some baseName ->
    pushes t = [] ->
    written_images t = [] ->
    attempts t = [working_file c baseName] ->
    failures_logged t = [] ->
    manifests t = [] ->
    pass c item st Pending t.

Definition local_file (record : value) : jsval := field record (lit "localUpdatedFile").

Definition with_limit (l : option number) (c : config) : config :=
  {| which := which c; limit := l; workingDir := workingDir c;
     finalDir := finalDir c; background := background c |}.

(** The working files of the records the loop has to try, from [index] on. *)
Fixpoint due (c : config) (index : nat) (actions : list gen_action) : list jsstring :=
  match actions with
  | [] => []
  | InvalidLine _ :: rest => due c index rest
  | Yield item :: rest =>
      (if truthy (get item "imageUrl") then
         match base_name item (S index) with
         | Some baseName => [working_file c baseName]
         | None => []
         end
       else [])
        ++ due c (S index) rest
  end.

(** A limit that stops the loop at the [N]-th success. *)
Definition stops_at (N : nat) (c : config) : Prop :=
  forall p, limit_reached (limit c) p = true <-> (N <= p)%nat.

(** A limit that never stops the loop. *)
Definition never_stops (c : config) : Prop :=
  forall p, limit_reached (limit c) p = false.

(** A later stage has run only after the earlier ones were completed. *)
Definition orderly (t : list event) : Prop :=
  (forall s, In s (steps t) -> (rank CallApi <= rank s)%nat -> download_completed t)
  /\ (forall s, In s (steps t) -> (rank Decode <= rank s)%nat -> api_answered t)
  /\ (In Append (steps t) -> image_written t)
  /\ (image_written t <-> pushes t <> []).

(** The events of the set-up: no download, no image, no manifest. *)
Definition setup_event (e : event) : Prop :=
  match e with
  | ExistsSync _ _ | MkdirSync _ _ | ReadFile _ _ | ReadTextFile _ _
  | NewGoogleGenAI _ | ConsoleWarn _ => True
  | _ => False
  end.

End Notions.

(** The pieces put back together with line feeds. *)
Fixpoint join_lines (lines : list jsstring) : jsstring :=
  match lines with
  | [] => []
  | l :: rest =>
      match rest with
      | [] => l
      | _ => l ++ 10 :: join_lines rest
      end
  end.

(** The content without the carriage returns that stand before a line feed. *)
Fixpoint without_cr (s : jsstring) : jsstring :=
  match s with
  | [] => []
  | c :: rest =>
      if (c =? 13) && match rest with d :: _ => d =? 10 | [] => false end
      then without_cr rest
      else c :: without_cr rest
  end.

(* ================================================================= *)
(** ** Notions for the further properties *)

(** A decimal digit. *)
Definition digit (c : code_unit) : bool := between 48 57 c.

(** What every state of a session keeps. *)
Definition kept (s : app_state) : Prop :=
  (selected s < List.length options)%nat
  /\ forallb digit (limitInput s) = true
  /\ (List.length (limitInput s) <= 6)%nat
  /\ (askLimit s = true -> running s = false /\ (selected s < 2)%nat)
  /\ (running s = false -> children s = [] )
  /\ (running s = true -> exists child, children s = [child])
  /\ (askLimit s = false -> running s = false -> limitInput s = []).

(** A key press with no flag set, and the Enter key. *)
Definition plain : key :=
  {| upArrow := false; downArrow := false; return_key := false; escape := false;
     backspace := false; delete := false |}.

Definition enter : key :=
  {| upArrow := false; downArrow := false; return_key := true; escape := false;
     backspace := false; delete := false |}.

Definition spawns (effects : list effect) : list (jsstring * list jsstring) :=
  flat_map (fun e => match e with Spawn command args => [(command, args)] | ExitApp => [] end)
    effects.

Definition child_exits (events : list ui_event) : nat :=
  List.length (filter (fun ev => match ev with ChildExit _ _ => true | KeyPress _ _ => false end)
                 events).

(** The commands the menu may start: [pnpm run] with one of the two
    scripts, and after it either nothing or [--limit] and one to six
    digits. *)
Definition batch_command (command : jsstring) (args : list jsstring) : Prop :=
  command = lit "pnpm"
  /\ exists script,
       (script = lit "process:images:openrouter" \/ script = lit "process:images")
       /\ (args = [lit "run"; script]
           \/ exists digits,
                digits <> [] /\ forallb digit digits = true
                /\ (List.length digits <= 6)%nat
                /\ args = [lit "run"; script; lit "--limit"; digits]).

(** The script behind a choice of the menu. *)
Definition script_of (choice : nat) : jsstring :=
  match choice with
  | O => lit "process:images:openrouter"
  | _ => lit "process:images"
  end.

Definition limit_args (digits : jsstring) : list jsstring :=
  if nonempty digits then [lit "--limit"; digits] else [].

(** The scripts that may still be started without a child exiting. *)
Definition free_slots (s : app_state) : nat := if running s then 0%nat else 1%nat.

Definition exit_count (ev : ui_event) : nat :=
  match ev with ChildExit _ _ => 1%nat | KeyPress _ _ => 0%nat end.

Definition up_key : key :=
  {| upArrow := true; downArrow := false; return_key := false; escape := false;
     backspace := false; delete := false |}.

Definition down_key : key :=
  {| upArrow := false; downArrow := true; return_key := false; escape := false;
     backspace := false; delete := false |}.

(** Equal up to the case of the letters [a] to [z]. *)
Definition same_letters (a b : jsstring) : Prop :=
  map canonicalize a = map canonicalize b.

(** The lines written one after the other, each followed by [ending]. *)
Fixpoint written_lines (ending : jsstring) (lines : list jsstring) : jsstring :=
  match lines with
  | [] => []
  | l :: rest => l ++ ending ++ written_lines ending rest
  end.

(** The events of [main]: every event but the two of the script's last
    [catch]. *)
Definition main_event (e : event) : Prop :=
  match e with
  | ConsoleErrorObject _ | SetExitCode _ => False
  | _ => True
  end.

(** A JSON value that is neither [null] nor an object. *)
Definition plain_value (item : value) : bool :=
  match item with
  | JNull | JObj _ => false
  | _ => true
  end.

(** The requests of a download, in order. *)
Definition requests (t : list event) : list value :=
  flat_map (fun e => match e with HttpsGet url _ => [url] | _ => [] end) t.

(** [part.inlineData?.data], when it is truthy. *)
Definition inline_payload (part : value) : option value :=
  when_truthy (opt_get (get part "inlineData") "data").

(** [response.candidates?.[0]?.content?.parts || []] *)
Definition response_parts (response : value) : value :=
  or_else (opt_get (opt_get (opt_first (get response "candidates")) "content") "parts")
    (JArr []).

(** An event the loop leaves when the API is never reached. *)
Definition offline_event (e : event) : Prop :=
  match e with
  | Fetch _ _ | GenerateContent _ _ | WriteFile _ _ _ | Push _ => False
  | _ => True
  end.

(** The events that only the Gemini script leaves in its loop: the read of
    the downloaded file and the call of the SDK. *)
Definition gemini_only (e : event) : bool :=
  match e with
  | ReadFile _ _ | GenerateContent _ _ => true
  | _ => false
  end.

(** The events that only the OpenRouter script leaves: those of [fetch]. *)
Definition openrouter_only (e : event) : bool :=
  match e with
  | Fetch _ _ => true
  | _ => false
  end.

(** A line on the console. *)
Definition console (e : event) : bool :=
  match e with
  | ConsoleLog _ | ConsoleWarn _ | ConsoleError _ _ | ConsoleErrorObject _ => true
  | _ => false
  end.

(** [m] always ends, and never with an error thrown inside a callback. *)
Definition catchable {R : Runtime} {A} (m : M A) : Prop :=
  forall w, result_of (m w) <> Pending /\ forall e, result_of (m w) <> Fatal e.

(* ================================================================= *)
(** ** Sample runs *)

Definition obj (fields : list (string * value)) : value :=
  JObj (map (fun kv => (lit (fst kv), snd kv)) fields).

Definition text (s : string) : value := JStr (lit s).

Definition item_a : value :=
  obj [("brand", text "Afnan"); ("name", text "9am");
       ("imageUrl", text "https://example.com/afnan-9am.jpg")]%string.

Definition item_b : value :=
  obj [("imageUrl", text "https://example.com/second.jpg")]%string.

(** A record that already carries the field the script sets. *)
Definition item_old : value :=
  obj [("imageUrl", text "https://example.com/afnan-9am.jpg");
       ("localUpdatedFile", text "old.jpg")]%string.

Definition item_without_url : value := obj [("brand", text "Afnan")]%string.

Definition gemini_answer : value :=
  obj [("candidates",
        JArr [obj [("content",
                    obj [("parts",
                          JArr [obj [("text", text "done")];
                                obj [("inlineData", obj [("data", text "QUJD")])]])])]])]%string.

Definition openrouter_answer : value :=
  obj [("choices",
        JArr [obj [("message",
                    obj [("images",
                          JArr [obj [("type", text "image_url");
                                     ("image_url",
                                      obj [("url", text "data:image/png;base64,QUJD")])]])])]])]%string.

(** An answer with a remote image first and a data URL as content. *)
Definition mixed_answer : value :=
  obj [("choices",
        JArr [obj [("message",
                    obj [("images",
                          JArr [obj [("type", text "image_url");
                                     ("image_url",
                                      obj [("url", text "https://cdn.example.com/out.png")])]]);
                         ("content", text "data:image/png;base64,QUJD")])]])]%string.

Definition sample_content : jsstring :=
  lit "{}" ++ [13; 10] ++ [10] ++ lit "oops" ++ [10] ++ lit "{}".

Definition answered (json : value) : fetch_response :=
  {| res_ok := true; res_status := 200; res_statusText := lit "OK";
     res_text := inr []; res_json := inr json; res_arrayBuffer := inl TypeError |}.

(** A runtime without state: every call answers from its arguments. *)
Definition scripted (get_reply : value -> http_reply)
    (fetch_reply : fetch_request -> exn + fetch_response)
    (write_reply : file_data -> exn + unit) : Runtime :=
  {| World := unit;
     Number_toString := fun _ => lit "0";
     Number_of_string := fun s => if str_eqb s (lit "2") then Finite (inject_Z 2) else NaN;
     JSON_parse := fun s => if str_eqb s (lit "{}") then Some (JObj []) else None;
     JSON_stringify := fun _ => lit "{}";
     JSON_stringify_indent2 :=
       fun v => match v with JArr l => decimal (List.length l) | _ => [] end;
     base64_decode := fun s => map (fun _ => Init.Byte.x41) s;
     base64_encode := fun b => map (fun _ => 65) b;
     Buffer_from_other := fun _ => inl TypeError;
     path_resolve := fun a b => a ++ lit "/" ++ b;
     path_join := fun a b => a ++ lit "/" ++ b;
     process_cwd := lit "/app";
     process_argv := [lit "node"; lit "process_images.js"; lit "--limit"; lit "2"];
     process_env := fun _ => Some (lit "key");
     fs_existsSync := fun _ w => (true, w);
     fs_mkdirSync := fun _ w => (inr tt, w);
     fs_readFileSync := fun _ w => (inr [Init.Byte.x41], w);
     fs_readFileSync_utf8 := fun _ w => (inr sample_content, w);
     fs_writeFileSync := fun _ d w => (write_reply d, w);
     fs_createWriteStream := fun _ w => (inr tt, w);
     stream_pipe := fun _ w => (Finished, w);
     https_get := fun url w => (get_reply url, w);
     fetch := fun request w => (fetch_reply request, w);
     GoogleGenAI_new := fun w => (inr tt, w);
     generateContent := fun _ w => (inr gemini_answer, w) |}.

Definition post_only (json : value) (request : fetch_request) : exn + fetch_response :=
  match request with
  | FetchPost _ _ _ => inr (answered json)
  | FetchGet _ => inl (Error (lit "fetch failed"))
  end.

(** Every download, call and write succeeds. *)
Definition fair : Runtime :=
  scripted (fun _ => Response 200 None) (post_only openrouter_answer) (fun _ => inr tt).

(** The image server redirects to a relative URL, which [https.get]
    refuses with a [TypeError]. *)
Definition redirecting : Runtime :=
  scripted (fun url => match url with
                       | JStr (47 :: _) => RequestThrows TypeError
                       | _ => Response 302 (Some (lit "/cdn/afnan-9am.jpg"))
                       end)
    (post_only openrouter_answer) (fun _ => inr tt).

(** The final directory cannot be written. *)
Definition full_disk : Runtime :=
  scripted (fun _ => Response 200 None) (post_only openrouter_answer)
    (fun d => match d with
              | Bytes _ => inl (Error (lit "ENOSPC: no space left on device"))
              | Text _ => inr tt
              end).

(** The API answers, the image it points to cannot be fetched. *)
Definition offline : Runtime :=
  scripted (fun _ => Response 200 None) (post_only mixed_answer) (fun _ => inr tt).

Definition sample_config (b : backend) (l : option number) : config :=
  {| which := b; limit := l; workingDir := lit "/app/working";
     finalDir := lit "/app/final"; background := None |}.

(** A runtime with another environment and another answer of Gemini. *)
Definition with_answers (env : string -> option jsstring) (response : value) (R : Runtime)
  : Runtime :=
  {| World := @World R;
     Number_toString := @Number_toString R;
     Number_of_string := @Number_of_string R;
     JSON_parse := @JSON_parse R;
     JSON_stringify := @JSON_stringify R;
     JSON_stringify_indent2 := @JSON_stringify_indent2 R;
     base64_decode := @base64_decode R;
     base64_encode := @base64_encode R;
     Buffer_from_other := @Buffer_from_other R;
     path_resolve := @path_resolve R;
     path_join := @path_join R;
     process_cwd := @process_cwd R;
     process_argv := @process_argv R;
     process_env := env;
     fs_existsSync := @fs_existsSync R;
     fs_mkdirSync := @fs_mkdirSync R;
     fs_readFileSync := @fs_readFileSync R;
     fs_readFileSync_utf8 := @fs_readFileSync_utf8 R;
     fs_writeFileSync := @fs_writeFileSync R;
     fs_createWriteStream := @fs_createWriteStream R;
     stream_pipe := @stream_pipe R;
     https_get := @https_get R;
     fetch := @fetch R;
     GoogleGenAI_new := @GoogleGenAI_new R;
     generateContent := fun _ w => (inr response, w) |}.

(** No API key is set. *)
Definition keyless : Runtime := with_answers (fun _ => None) gemini_answer fair.

(** Gemini answers with text only. *)
Definition text_answer : value :=
  obj [("candidates",
        JArr [obj [("content", obj [("parts", JArr [obj [("text", text "I cannot.")]])])]])]%string.

Definition wordy : Runtime := with_answers (fun _ => Some (lit "key")) text_answer fair.

Definition refusal : fetch_response :=
  {| res_ok := false; res_status := 429; res_statusText := lit "Too Many Requests";
     res_text := inr (lit "slow down"); res_json := inl TypeError;
     res_arrayBuffer := inl TypeError |}.

(** OpenRouter refuses every request. *)
Definition throttled : Runtime :=
  scripted (fun _ => Response 200 None) (fun _ => inr refusal) (fun _ => inr tt).

(** Every request for an image is answered with a redirect. *)
Definition bouncing : Runtime :=
  scripted (fun _ => Response 302 (Some (lit "https://cdn.example.com/next")))
    (post_only openrouter_answer) (fun _ => inr tt).

(** Nothing can be written. *)
Definition read_only : Runtime :=
  scripted (fun _ => Response 200 None) (post_only openrouter_answer)
    (fun _ => inl (Error (lit "EROFS: read-only file system"))).

(** The image server knows none of the images. *)
Definition missing : Runtime :=
  scripted (fun _ => Response 404 None) (post_only openrouter_answer) (fun _ => inr tt).

(** A runtime with other fates of the write streams. *)
Definition with_streams (open_reply : jsstring -> exn + unit)
    (pipe_reply : jsstring -> pipe_end) (R : Runtime) : Runtime :=
  {| World := @World R;
     Number_toString := @Number_toString R;
     Number_of_string := @Number_of_string R;
     JSON_parse := @JSON_parse R;
     JSON_stringify := @JSON_stringify R;
     JSON_stringify_indent2 := @JSON_stringify_indent2 R;
     base64_decode := @base64_decode R;
     base64_encode := @base64_encode R;
     Buffer_from_other := @Buffer_from_other R;
     path_resolve := @path_resolve R;
     path_join := @path_join R;
     process_cwd := @process_cwd R;
     process_argv := @process_argv R;
     process_env := @process_env R;
     fs_existsSync := @fs_existsSync R;
     fs_mkdirSync := @fs_mkdirSync R;
     fs_readFileSync := @fs_readFileSync R;
     fs_readFileSync_utf8 := @fs_readFileSync_utf8 R;
     fs_writeFileSync := @fs_writeFileSync R;
     fs_createWriteStream := fun path w => (open_reply path, w);
     stream_pipe := fun path w => (pipe_reply path, w);
     https_get := @https_get R;
     fetch := @fetch R;
     GoogleGenAI_new := @GoogleGenAI_new R;
     generateContent := @generateContent R |}.

(** No working file can be opened. *)
Definition unopenable : Runtime :=
  with_streams (fun _ => inl (Error (lit "ENAMETOOLONG: name too long")))
    (fun _ => Finished) fair.

(** The body of every image breaks off before its end. *)
Definition stalling : Runtime :=
  with_streams (fun _ => inr tt) (fun _ => BreaksOff) bouncing.

(** A record without image URL whose brand cannot be put in a string:
    the line [{"brand":{"toString":1}}]. *)
Definition item_unprintable : value :=
  obj [("brand", obj [("toString", JNum (Finite 1))])]%string.

(* ================================================================= *)
(** ** Strings and objects *)

Lemma str_eqb_refl (s : jsstring) : str_eqb s s = true.
Proof.
  induction s as [|c s IH]; simpl; [reflexivity|].
  rewrite N.eqb_refl. exact IH.
Qed.

Lemma str_eqb_eq (a b : jsstring) : str_eqb a b = true <-> a = b.
Proof.
  split.
  - revert b. induction a as [|x a IH]; intros [|y b] H; simpl in H;
      try discriminate; [reflexivity|].
    apply andb_true_iff in H. destruct H as [Hx Hr].
    apply N.eqb_eq in Hx. apply IH in Hr. congruence.
  - intros ->. apply str_eqb_refl.
Qed.

Lemma str_eqb_neq (a b : jsstring) : a <> b -> str_eqb a b = false.
Proof.
  intros H. destruct (str_eqb a b) eqn:E; [|reflexivity].
  apply str_eqb_eq in E. contradiction.
Qed.

Lemma assoc_set_same k v fields : assoc k (set_field k v fields) = Some v.
Proof.
  induction fields as [|[k' v'] rest IH]; simpl.
  - rewrite str_eqb_refl. reflexivity.
  - destruct (str_eqb k' k) eqn:E; simpl.
    + rewrite str_eqb_refl. reflexivity.
    + rewrite E. exact IH.
Qed.

Lemma assoc_set_other k k' v fields :
  k' <> k -> assoc k' (set_field k v fields) = assoc k' fields.
Proof.
  intros Hne. induction fields as [|[k0 v0] rest IH]; simpl.
  - rewrite (str_eqb_neq (a:=k) (b:=k')) by congruence. reflexivity.
  - destruct (str_eqb k0 k) eqn:E; simpl.
    + apply str_eqb_eq in E. subst k0.
      rewrite (str_eqb_neq (a:=k) (b:=k')) by congruence. reflexivity.
    + destruct (str_eqb k0 k'); [reflexivity | exact IH].
Qed.

Lemma keys_set_present k v fields :
  In k (map fst fields) -> map fst (set_field k v fields) = map fst fields.
Proof.
  induction fields as [|[k0 v0] rest IH]; simpl; intros H; [contradiction|].
  destruct (str_eqb k0 k) eqn:E; simpl.
  - apply str_eqb_eq in E. congruence.
  - f_equal. apply IH. destruct H as [H|H]; [|exact H].
    subst k0. rewrite str_eqb_refl in E. discriminate.
Qed.

Lemma keys_set_absent k v fields :
  ~ In k (map fst fields) -> map fst (set_field k v fields) = map fst fields ++ [k].
Proof.
  induction fields as [|[k0 v0] rest IH]; simpl; intros H; [reflexivity|].
  destruct (str_eqb k0 k) eqn:E; simpl.
  - apply str_eqb_eq in E. subst k0. exfalso. apply H. left. reflexivity.
  - f_equal. apply IH. intros Hin. apply H. right. exact Hin.
Qed.

(* ================================================================= *)
(** ** The file-name sanitiser *)

Lemma filename_class_safe c : filename_class c = safe_char c.
Proof.
  unfold filename_class, safe_char.
  replace (canonicalize 97) with 65 by reflexivity.
  replace (canonicalize 122) with 90 by reflexivity.
  unfold canonicalize, between.
  destruct ((97 <=? c) && (c <=? 122)) eqn:Lower;
    [|rewrite orb_false_r; reflexivity].
  apply andb_true_iff in Lower. destruct Lower as [L1 L2].
  apply N.leb_le in L1, L2.
  assert (H1 : (65 <=? c - 32) = true) by (apply N.leb_le; lia).
  assert (H2 : (c - 32 <=? 90) = true) by (apply N.leb_le; lia).
  rewrite H1, H2. simpl. rewrite orb_true_r. reflexivity.
Qed.

Lemma replace_unsafe_map base :
  toSafeFilename base = map (fun c => if safe_char c then c else 95) base.
Proof.
  unfold toSafeFilename.
  induction base as [|c rest IH]; simpl; [reflexivity|].
  rewrite IH, filename_class_safe.
  destruct (safe_char c); reflexivity.
Qed.

(* ================================================================= *)
(** ** Traces of computations *)

Lemma flat_map_nil_Forall {A B} (f : A -> list B) (P : A -> Prop) l :
  (forall x, P x -> f x = []) -> Forall P l -> flat_map f l = [].
Proof.
  intros Hf H. induction H as [|x l Hx _ IH]; simpl; [reflexivity|].
  rewrite (Hf x Hx), IH. reflexivity.
Qed.

Lemma sorted_app (l1 l2 : list step) :
  StronglySorted in_order l1 -> StronglySorted in_order l2 ->
  (forall a b, In a l1 -> In b l2 -> in_order a b) ->
  StronglySorted in_order (l1 ++ l2).
Proof.
  intros H1 H2 H12. induction H1 as [|a l1 Hs IH Ha]; simpl; [exact H2|].
  constructor.
  - apply IH. intros x y Hx Hy. apply H12; [right; exact Hx | exact Hy].
  - apply Forall_app. split; [exact Ha|].
    apply Forall_forall. intros y Hy. apply H12; [left; reflexivity | exact Hy].
Qed.

Lemma steps_app t1 t2 : steps (t1 ++ t2) = steps t1 ++ steps t2.
Proof. apply flat_map_app. Qed.

Lemma pushes_app t1 t2 : pushes (t1 ++ t2) = pushes t1 ++ pushes t2.
Proof. apply flat_map_app. Qed.

Lemma written_images_app t1 t2 :
  written_images (t1 ++ t2) = written_images t1 ++ written_images t2.
Proof. apply flat_map_app. Qed.

Lemma attempts_app t1 t2 : attempts (t1 ++ t2) = attempts t1 ++ attempts t2.
Proof. apply flat_map_app. Qed.

Lemma manifests_app t1 t2 : manifests (t1 ++ t2) = manifests t1 ++ manifests t2.
Proof. apply flat_map_app. Qed.

Lemma failures_logged_app t1 t2 :
  failures_logged (t1 ++ t2) = failures_logged t1 ++ failures_logged t2.
Proof. apply flat_map_app. Qed.

Lemma manifests_in path json result t :
  In (WriteFile path (Text json) result) t -> In (path, json) (manifests t).
Proof.
  intros H. unfold manifests. apply in_flat_map.
  exists (WriteFile path (Text json) result). split; [exact H | left; reflexivity].
Qed.

Section Traces.
Context {R : Runtime}.

Lemma emits_ret {A} P (a : A) : emits P (ret a).
Proof. intros w. constructor. Qed.

Lemma emits_throw {A} P e : emits P (@throw R A e).
Proof. intros w. constructor. Qed.

Lemma emits_fatal {A} P e : emits P (@fatal R A e).
Proof. intros w. constructor. Qed.

Lemma emits_lift {A} P (r : outcome A) : emits P (lift r).
Proof. intros w. constructor. Qed.

Lemma emits_emit (P : event -> Prop) e : P e -> emits P (emit e).
Proof. intros H w. constructor; [exact H | constructor]. Qed.

Lemma emits_bind {A B} P (m : M A) (f : A -> M B) :
  emits P m -> (forall a, emits P (f a)) -> emits P (bind m f).
Proof.
  intros Hm Hf w. unfold bind, trace_of. specialize (Hm w). unfold trace_of in Hm.
  destruct (m w) as [[[a|e|e|] w1] t1]; simpl in *; try exact Hm.
  specialize (Hf a w1). unfold trace_of in Hf.
  destruct (f a w1) as [[r w2] t2]; simpl in *.
  apply Forall_app. split; assumption.
Qed.

Lemma emits_call {A} (P : event -> Prop) (oracle : World -> A * World) record :
  (forall a, P (record a)) -> emits P (call oracle record).
Proof.
  intros H w. unfold call, trace_of. destruct (oracle w) as [a w1]; simpl.
  constructor; [apply H | constructor].
Qed.

Lemma emits_call_or_throw {A} (P : event -> Prop)
    (oracle : World -> (exn + A) * World) record :
  (forall r, P (record r)) -> emits P (call_or_throw oracle record).
Proof.
  intros H. apply emits_bind; [apply emits_call; exact H|].
  intros r. apply emits_lift.
Qed.

Lemma emits_pending {A} P : emits P (@pending R A).
Proof. intros w. constructor. Qed.

Lemma emits_ask {A} P (oracle : World -> A * World) : emits P (ask oracle).
Proof. intros w. unfold ask, trace_of. destruct (oracle w) as [a w1]. constructor. Qed.

Lemma emits_weaken {A} (P Q : event -> Prop) (m : M A) :
  (forall e, P e -> Q e) -> emits P m -> emits Q m.
Proof.
  intros HPQ Hm w. eapply Forall_impl; [exact HPQ | apply Hm].
Qed.

Lemma emits_steps {A} (s : step) (m : M A) :
  emits (fun e => step_of e = Some s) m -> staged (rank s) (rank s) m.
Proof.
  intros Hm w. specialize (Hm w).
  induction Hm as [|e t He _ [IH1 IH2]]; simpl.
  - split; constructor.
  - unfold steps in *. simpl. rewrite He. simpl. split.
    + constructor; [exact IH1|]. eapply Forall_impl; [|exact IH2].
      intros a Ha. unfold in_order. simpl in Ha. lia.
    + constructor; [lia | exact IH2].
Qed.

Lemma emits_no_steps {A} lo hi (m : M A) :
  emits (fun e => step_of e = None) m -> staged lo hi m.
Proof.
  intros Hm w. specialize (Hm w).
  assert (E : steps (trace_of (m w)) = []).
  { eapply flat_map_nil_Forall; [|exact Hm]. intros e He. simpl in He. rewrite He. reflexivity. }
  rewrite E. split; constructor.
Qed.

Lemma staged_weaken {A} lo hi lo' hi' (m : M A) :
  (lo' <= lo)%nat -> (hi <= hi')%nat -> staged lo hi m -> staged lo' hi' m.
Proof.
  intros Hlo Hhi Hm w. destruct (Hm w) as [Hs Hb]. split; [exact Hs|].
  eapply Forall_impl; [|exact Hb]. intros s Hs'. simpl in Hs'. lia.
Qed.

Lemma staged_bind {A B} lo mid hi (m : M A) (f : A -> M B) :
  (lo <= mid)%nat -> (mid <= hi)%nat ->
  staged lo mid m -> (forall a, staged mid hi (f a)) -> staged lo hi (bind m f).
Proof.
  intros Hlo Hhi Hm Hf w. unfold bind, trace_of.
  destruct (Hm w) as [Hs Hb]. unfold trace_of in Hs, Hb.
  assert (Hb' : Forall (fun s => lo <= rank s <= hi)%nat (steps (snd (m w)))).
  { eapply Forall_impl; [|exact Hb]. intros s Hs'. simpl in Hs'. lia. }
  destruct (m w) as [[[a|e|e|] w1] t1]; simpl in *; try (split; assumption).
  destruct (Hf a w1) as [Hs2 Hb2]. unfold trace_of in Hs2, Hb2.
  destruct (f a w1) as [[r w2] t2]; simpl in *.
  rewrite steps_app. split.
  - apply sorted_app; [exact Hs | exact Hs2 |].
    intros x y Hx Hy. unfold in_order.
    rewrite Forall_forall in Hb, Hb2.
    specialize (Hb x Hx). specialize (Hb2 y Hy). simpl in *. lia.
  - apply Forall_app. split; [exact Hb'|].
    eapply Forall_impl; [|exact Hb2]. intros s Hs'. simpl in Hs'. lia.
Qed.

Lemma staged_try_catch {A} lo hi (body : M A) (handler : exn -> M A) :
  staged lo hi body -> (forall e, emits (fun ev => step_of ev = None) (handler e)) ->
  staged lo hi (try_catch body handler).
Proof.
  intros Hb Hh w. unfold try_catch, trace_of.
  destruct (Hb w) as [Hs Hr]. unfold trace_of in Hs, Hr.
  destruct (body w) as [[[a|e|e|] w1] t1]; simpl in *; try (split; assumption).
  specialize (Hh e w1). unfold trace_of in Hh.
  destruct (handler e w1) as [[r w2] t2]; simpl in *.
  assert (E : steps t2 = []).
  { eapply flat_map_nil_Forall; [|exact Hh]. intros ev He. simpl in He. rewrite He. reflexivity. }
  rewrite steps_app, E, app_nil_r. split; assumption.
Qed.

Lemma emits_try_catch {A} P (body : M A) (handler : exn -> M A) :
  emits P body -> (forall e, emits P (handler e)) -> emits P (try_catch body handler).
Proof.
  intros Hb Hh w. unfold try_catch, trace_of. specialize (Hb w). unfold trace_of in Hb.
  destruct (body w) as [[[a|e|e|] w1] t1]; simpl in *; try exact Hb.
  specialize (Hh e w1). unfold trace_of in Hh.
  destruct (handler e w1) as [[r w2] t2]; simpl in *.
  apply Forall_app. split; assumption.
Qed.

End Traces.

(** Case analysis on a scrutinee that holds no other case analysis. *)
Ltac destruct_inner :=
  match goal with
  | |- context [match ?x with _ => _ end] =>
      lazymatch x with
      | context [match _ with _ => _ end] => fail
      | _ => destruct x eqn:?
      end
  end.

Ltac emits_auto :=
  repeat first
    [ apply emits_ret | apply emits_throw | apply emits_fatal | apply emits_lift
    | apply emits_pending | apply emits_ask
    | apply emits_emit; simpl; auto
    | apply emits_call; intros; simpl; auto
    | apply emits_call_or_throw; intros; simpl; auto
    | apply emits_bind; [|intros ?]
    | match goal with |- emits _ (match ?x with _ => _ end) => destruct x end
    | match goal with |- emits _ (if ?x then _ else _) => destruct x end ].

(* ================================================================= *)
(** ** The download, the decoders, the API calls *)

Section Stages.
Context {R : Runtime}.

Lemma downloadFile_emits url destPath :
  emits (fun e => step_of e = Some Download) (downloadFile url destPath).
Proof. unfold downloadFile, download_error, open_stream, pipe_to_file. emits_auto. Qed.

Lemma downloadFile_attempts url destPath w :
  attempts (trace_of (downloadFile url destPath w)) = [destPath].
Proof.
  unfold downloadFile, download_error, open_stream, pipe_to_file,
    bind, emit, call, ask, ret, throw, fatal, pending, trace_of.
  repeat (simpl; destruct_inner); reflexivity.
Qed.

Lemma downloadFile_completed url destPath w u w' t :
  downloadFile url destPath w = (Ok u, w', t) -> In (StreamToFile destPath) t.
Proof.
  unfold downloadFile, download_error, open_stream, pipe_to_file,
    bind, emit, call, ask, ret, throw, fatal, pending.
  repeat (simpl; destruct_inner);
    intros H; inversion H; subst; simpl; rewrite ?in_app_iff; simpl; auto 10.
Qed.

Lemma bind_ret_run {A B} (a : A) (k : A -> M B) w : bind (ret a) k w = k a w.
Proof. unfold bind, ret. destruct (k a w) as [[r w2] t2]. reflexivity. Qed.

Lemma bind_lift_run {A B} (r : outcome A) (k : A -> M B) w :
  bind (lift r) k w =
  match r with
  | Ok a => k a w
  | Throw e => (Throw e, w, [])
  | Fatal e => (Fatal e, w, [])
  | Pending => (Pending, w, [])
  end.
Proof.
  unfold bind, lift. destruct r as [a|e|e|]; try reflexivity.
  destruct (k a w) as [[r w2] t2]. reflexivity.
Qed.

Lemma bind_emit_run {B} (e : event) (k : unit -> M B) w :
  bind (emit e) k w = match k tt w with (r, w2, t2) => (r, w2, e :: t2) end.
Proof. reflexivity. Qed.

Lemma bind_call_or_throw_run {A B} (oracle : World -> (exn + A) * World) record
    (k : A -> M B) w :
  bind (call_or_throw oracle record) k w =
  match oracle w with
  | (inl e, w1) => (Throw e, w1, [record (inl e)])
  | (inr a, w1) => match k a w1 with (r, w2, t2) => (r, w2, record (inr a) :: t2) end
  end.
Proof.
  cbv beta delta [bind call_or_throw call lift].
  destruct (oracle w) as [[e|a] w1]; simpl; [reflexivity|].
  destruct (k a w1) as [[r w2] t2]. reflexivity.
Qed.

Lemma emits_nothing {A} (m : M A) w :
  emits (fun _ => False) m -> trace_of (m w) = [].
Proof.
  intros H. specialize (H w). destruct (trace_of (m w)); [reflexivity|].
  inversion H; contradiction.
Qed.

Lemma Buffer_from_quiet data : emits (fun _ => False) (Buffer_from data).
Proof. unfold Buffer_from. emits_auto. Qed.

Lemma first_inline_image_quiet parts : emits (fun _ => False) (first_inline_image parts).
Proof.
  induction parts as [|part rest IH]; simpl; [apply emits_throw|].
  apply emits_bind; [apply emits_lift|]. intros inlineData.
  destruct (truthy (opt_get inlineData "data")); [apply Buffer_from_quiet | exact IH].
Qed.

(** The Gemini call leaves one event, the request with its answer. *)
Lemma gemini_trace inputBuffer bg w :
  exists request answer,
    trace_of (enhanceImageWithGemini inputBuffer bg w) = [GenerateContent request answer]
    /\ (forall buf, result_of (enhanceImageWithGemini inputBuffer bg w) = Ok buf ->
        exists response, answer = inr response).
Proof.
  unfold enhanceImageWithGemini.
  match goal with
  | |- context [call_or_throw (generateContent ?req)] => exists req
  end.
  rewrite bind_call_or_throw_run.
  destruct (generateContent _ w) as [[e|response] w1].
  - exists (inl e). split; [reflexivity|]. intros buf H. discriminate H.
  - exists (inr response).
    match goal with
    | |- context [match ?k w1 with _ => _ end] =>
        assert (Q : trace_of (k w1) = []);
        [ apply emits_nothing; emits_auto; apply first_inline_image_quiet
        | destruct (k w1) as [[r w2] t2] ]
    end.
    unfold trace_of in *. simpl in *. subst t2.
    split; [reflexivity|]. intros buf _. exists response. reflexivity.
Qed.

Lemma fetchImageAsBuffer_emits url :
  emits (fun e => step_of e = Some Decode) (fetchImageAsBuffer url).
Proof. unfold fetchImageAsBuffer. emits_auto. Qed.

Lemma Buffer_from_emits P data : emits P (Buffer_from data).
Proof. unfold Buffer_from. emits_auto. Qed.

Lemma scan_images_emits images :
  emits (fun e => step_of e = Some Decode) (scan_images images).
Proof.
  induction images as [|img rest IH]; simpl; [apply emits_ret|].
  repeat first
    [ exact IH | apply fetchImageAsBuffer_emits | apply Buffer_from_emits
    | apply emits_ret | apply emits_bind; [|intros ?]
    | match goal with |- emits _ (match ?x with _ => _ end) => destruct x end ].
Qed.

Lemma output_image_case_emits P part : emits P (output_image_case part).
Proof.
  unfold output_image_case.
  repeat first
    [ apply Buffer_from_emits | apply emits_ret | apply emits_bind; [|intros ?]
    | match goal with |- emits _ (match ?x with _ => _ end) => destruct x end ].
Qed.

Lemma scan_content_emits content :
  emits (fun e => step_of e = Some Decode) (scan_content content).
Proof.
  induction content as [|part rest IH]; simpl; [apply emits_ret|].
  apply emits_bind; [apply output_image_case_emits|]. intros found.
  repeat first
    [ exact IH | apply fetchImageAsBuffer_emits | apply Buffer_from_emits
    | apply emits_ret | apply emits_bind; [|intros ?]
    | match goal with |- emits _ (match ?x with _ => _ end) => destruct x end ].
Qed.

Lemma extract_emits json :
  emits (fun e => step_of e = Some Decode) (extractImageBufferFromOpenRouterResponse json).
Proof.
  unfold extractImageBufferFromOpenRouterResponse.
  repeat first
    [ apply scan_images_emits | apply scan_content_emits | apply Buffer_from_emits
    | apply emits_ret | apply emits_throw | apply emits_bind; [|intros ?]
    | match goal with |- emits _ (match ?x with _ => _ end) => destruct x end ].
Qed.

Lemma gemini_emits inputBuffer bg :
  emits (fun e => step_of e = Some CallApi) (enhanceImageWithGemini inputBuffer bg).
Proof.
  intros w. destruct (gemini_trace inputBuffer bg w) as [request [answer [E _]]].
  rewrite E. constructor; [reflexivity | constructor].
Qed.

Lemma openrouter_staged promptText url bg :
  staged 2 3 (enhanceImageWithOpenRouter promptText url bg).
Proof.
  unfold enhanceImageWithOpenRouter.
  destruct (when_truthy _) as [[| | |apiKey| |]|];
    try (apply emits_no_steps; apply emits_throw).
  apply staged_bind with (mid := 2%nat); [lia | lia | |].
  - apply (emits_steps (s := CallApi)). apply emits_call_or_throw. reflexivity.
  - intros res. apply staged_weaken with (lo := 3%nat) (hi := 3%nat); [lia | lia |].
    apply (emits_steps (s := Decode)).
    destruct (negb (res_ok res)).
    + emits_auto.
    + apply emits_bind; [apply emits_lift | intros json; apply extract_emits].
Qed.

Lemma enhance_staged c url workingFile : staged 2 3 (enhance c url workingFile).
Proof.
  unfold enhance. destruct (which c).
  - apply staged_weaken with (lo := 2%nat) (hi := 2%nat); [lia | lia |].
    apply (emits_steps (s := CallApi)).
    apply emits_bind; [apply emits_call_or_throw; reflexivity|].
    intros inputBuffer. apply gemini_emits.
  - apply openrouter_staged.
Qed.

Lemma enhance_emits c url workingFile :
  emits (fun e => step_of e = Some CallApi \/ step_of e = Some Decode)
    (enhance c url workingFile).
Proof.
  unfold enhance. destruct (which c).
  - apply emits_bind; [apply emits_call_or_throw; intros; left; reflexivity|].
    intros inputBuffer. eapply emits_weaken; [|apply gemini_emits].
    intros e He. left. exact He.
  - unfold enhanceImageWithOpenRouter.
    destruct (when_truthy _) as [[| | |apiKey| |]|]; try apply emits_throw.
    apply emits_bind; [apply emits_call_or_throw; intros; left; reflexivity|].
    intros res. destruct (negb (res_ok res)).
    + emits_auto.
    + apply emits_bind; [apply emits_lift|]. intros json.
      eapply emits_weaken; [|apply extract_emits]. intros e He. right. exact He.
Qed.

(** The decoder runs, and the enhancement returns, only on an answer of
    the API. *)
Lemma enhance_answered c url workingFile w r w' t :
  enhance c url workingFile w = (r, w', t) ->
  (exists buf, r = Ok buf) \/ (exists s, In s (steps t) /\ (3 <= rank s)%nat) ->
  api_answered t.
Proof.
  unfold enhance. destruct (which c).
  - rewrite bind_call_or_throw_run.
    destruct (fs_readFileSync workingFile w) as [[e|inputBuffer] w1].
    + intros H. inversion H; subst. intros [[buf Hb]|[s [Hs Hr]]]; [discriminate|].
      simpl in Hs. destruct Hs as [<-|[]]. simpl in Hr. lia.
    + destruct (gemini_trace inputBuffer (background c) w1) as [request [answer [Et Eok]]].
      unfold trace_of, result_of in Et, Eok.
      destruct (enhanceImageWithGemini inputBuffer (background c) w1) as [[r2 w2] t2].
      simpl in Et, Eok. subst t2.
      intros H. inversion H; subst. intros [[buf Hb]|[s [Hs Hr]]].
      * destruct (Eok buf Hb) as [response ->].
        left. exists request, response. right. left. reflexivity.
      * simpl in Hs. destruct Hs as [<-|[<-|[]]]; simpl in Hr; lia.
  - unfold enhanceImageWithOpenRouter.
    destruct (when_truthy _) as [[| | |apiKey| |]|];
      try (intros H; inversion H; subst;
           intros [[buf Hb]|[s [[] _]]]; discriminate).
    rewrite bind_call_or_throw_run.
    match goal with |- context [fetch ?req w] => set (request := req) end.
    destruct (fetch request w) as [[e|res] w1].
    + intros H. inversion H; subst. intros [[buf Hb]|[s [Hs Hr]]]; [discriminate|].
      simpl in Hs. destruct Hs as [<-|[]]. simpl in Hr. lia.
    + destruct (res_ok res) eqn:Hok; simpl.
      * rewrite bind_lift_run. destruct (res_json res) as [e|json]; simpl.
        -- intros H. inversion H; subst. intros [[buf Hb]|[s [Hs Hr]]]; [discriminate|].
           simpl in Hs. destruct Hs as [<-|[]]. simpl in Hr. lia.
        -- destruct (extractImageBufferFromOpenRouterResponse json w1) as [[r2 w2] t2].
           intros H. inversion H; subst. intros _.
           right. eexists _, _, _, res. split; [left; reflexivity | exact Hok].
      * rewrite bind_lift_run. destruct (res_text res) as [e|text]; simpl;
          intros H; inversion H; subst;
          (intros [[buf Hb]|[s [Hs Hr]]]; [discriminate|]);
          simpl in Hs; destruct Hs as [<-|[]]; simpl in Hr; lia.
Qed.

(** The [try] block, step by step. *)
Lemma attempt_run c item url baseName st w :
  attempt c item url baseName st w =
  let workingFile := path_join (workingDir c) (image_name baseName) in
  let finalFile := path_join (finalDir c) (image_name baseName) in
  let began := ConsoleLog (lit "Began working on: " ++ image_name baseName) in
  match downloadFile url workingFile w with
  | (Ok _, w1, t1) =>
      match enhance c url workingFile w1 with
      | (Ok buf, w2, t2) =>
          match fs_writeFileSync finalFile (Bytes buf) w2 with
          | (inr u, w3) =>
              (Ok (if limit_reached (limit c) (S (processed st)) then Break else Next,
                   {| outputs := outputs st ++ [output_record item finalFile];
                      index := index st;
                      processed := S (processed st) |}),
               w3,
               began :: t1 ++ t2
                 ++ [WriteFile finalFile (Bytes buf) (inr u);
                     Push (output_record item finalFile);
                     ConsoleLog (lit "Completed work: " ++ image_name baseName)])
          | (inl e, w3) =>
              (Throw e, w3, began :: t1 ++ t2 ++ [WriteFile finalFile (Bytes buf) (inl e)])
          end
      | (Throw e, w2, t2) => (Throw e, w2, began :: t1 ++ t2)
      | (Fatal e, w2, t2) => (Fatal e, w2, began :: t1 ++ t2)
      | (Pending, w2, t2) => (Pending, w2, began :: t1 ++ t2)
      end
  | (Throw e, w1, t1) => (Throw e, w1, began :: t1)
  | (Fatal e, w1, t1) => (Fatal e, w1, began :: t1)
  | (Pending, w1, t1) => (Pending, w1, began :: t1)
  end.
Proof.
  unfold attempt. cbv zeta. rewrite bind_emit_run. unfold bind at 1.
  destruct (downloadFile url _ w) as [[[u|e|e|] w1] t1]; try reflexivity.
  unfold bind at 1.
  destruct (enhance c url _ w1) as [[[buf|e|e|] w2] t2]; try reflexivity.
  rewrite bind_call_or_throw_run.
  destruct (fs_writeFileSync _ (Bytes buf) w2) as [[e|u'] w3]; reflexivity.
Qed.

End Stages.

(* ================================================================= *)
(** ** One pass of the loop *)

Section Iteration.
Context {R : Runtime}.

Lemma iteration_run c item st w :
  iteration c item st w =
  match item with
  | JNull => (Throw TypeError, w, [])
  | _ =>
      match ToString (brand_of item), ToString (name_of item (S (index st))) with
      | Some b, Some n =>
          match when_truthy (get item "imageUrl") with
          | None =>
              (Ok (Next, counted st), w,
               [ConsoleWarn [lit "Skipping item without imageUrl: " ++ b ++ lit " " ++ n ++ lit ""]])
          | Some url =>
              match attempt c item url (toSafeFilename (lit "" ++ b ++ lit "_" ++ n ++ lit ""))
                      (counted st) w with
              | (Throw e, w1, t1) =>
                  (Ok (Next, counted st), w1,
                   t1 ++ [ConsoleError (lit (failed_prefix (which c)) ++ b ++ lit " - " ++ n ++ lit ":") e])
              | other => other
              end
          end
      | _, _ => (Throw TypeError, w, [])
      end
  end.
Proof.
  unfold iteration. cbv zeta. fold (counted st).
  destruct item; try reflexivity;
    (unfold prop; rewrite !bind_lift_run;
     change (index (counted st)) with (S (index st));
     match goal with
     | |- context [or_else (get ?i "brand")] => fold (brand_of i)
     end;
     match goal with
     | |- context [or_else (get ?i "name") _] => fold (name_of i (S (index st)))
     end;
     destruct (when_truthy _) as [url|];
     rewrite bind_lift_run; unfold template2;
     (destruct (ToString (brand_of _)) as [b|];
      [destruct (ToString (name_of _ _)) as [n|]|]); try reflexivity;
     unfold try_catch;
     match goal with
     | |- context [attempt ?c ?i ?u ?b ?s ?w] =>
         destruct (attempt c i u b s w) as [[[a|e|e|] w1] t1]; try reflexivity
     end;
     rewrite bind_lift_run; reflexivity).
Qed.

Lemma download_trace_facts url destPath w r w' t :
  downloadFile url destPath w = (r, w', t) ->
  pushes t = [] /\ written_images t = [] /\ attempts t = [destPath]
  /\ failures_logged t = [] /\ manifests t = [].
Proof.
  intros E.
  pose proof (downloadFile_emits url destPath w) as Hemit.
  pose proof (downloadFile_attempts url destPath w) as Hatt.
  rewrite E in Hemit, Hatt. unfold trace_of in Hemit, Hatt. simpl in Hemit, Hatt.
  repeat split; try exact Hatt;
    (eapply flat_map_nil_Forall; [|exact Hemit]);
    intros [] He; simpl in He; try discriminate; try reflexivity;
    destruct data; try discriminate; reflexivity.
Qed.

Lemma enhance_trace_facts c url workingFile w r w' t :
  enhance c url workingFile w = (r, w', t) ->
  pushes t = [] /\ written_images t = [] /\ attempts t = []
  /\ failures_logged t = [] /\ manifests t = [].
Proof.
  intros E.
  pose proof (enhance_emits c url workingFile w) as Hemit.
  rewrite E in Hemit. unfold trace_of in Hemit. simpl in Hemit.
  repeat split;
    (eapply flat_map_nil_Forall; [|exact Hemit]);
    intros [] [He|He]; simpl in He; try discriminate; try reflexivity;
    destruct data; try discriminate; reflexivity.
Qed.

Lemma attempt_pass c item url baseName st w r w' t :
  when_truthy (get item "imageUrl") = Some url ->
  base_name item (S (index st)) = Some baseName ->
  attempt c item url baseName (counted st) w = (r, w', t) ->
  match r with
  | Throw e =>
      forall line, pass c item st (Ok (Next, counted st)) (t ++ [ConsoleError line e])
  | _ => pass c item st r t
  end.
Proof.
  intros Hurl Hbase. rewrite attempt_run. cbv zeta.
  fold (working_file c baseName). fold (final_file c baseName).
  destruct (downloadFile url (working_file c baseName) w) as [[[u|e|e|] w1] t1] eqn:Ed;
    destruct (download_trace_facts _ _ _ Ed) as [P1 [W1 [A1 [F1 M1]]]].
  - destruct (enhance c url (working_file c baseName) w1) as [[[buf|e|e|] w2] t2] eqn:Ee;
      destruct (enhance_trace_facts _ _ _ _ Ee) as [P2 [W2 [A2 [F2 M2]]]].
    + destruct (fs_writeFileSync (final_file c baseName) (Bytes buf) w2) as [[e|u'] w3];
        intros H; inversion H; subst; clear H.
      * intros line.
        apply pass_caught with (url := url) (baseName := baseName) (e := e); try assumption;
          rewrite <- ?app_comm_cons, <- ?app_assoc; simpl;
          rewrite ?pushes_app, ?written_images_app, ?attempts_app,
            ?failures_logged_app, ?manifests_app, ?P1, ?P2, ?W1, ?W2, ?A1, ?A2,
            ?F1, ?F2, ?M1, ?M2; reflexivity.
      * apply pass_success with (url := url); try assumption;
          simpl;
          rewrite ?pushes_app, ?written_images_app, ?attempts_app,
            ?failures_logged_app, ?manifests_app, ?P1, ?P2, ?W1, ?W2, ?A1, ?A2,
            ?F1, ?F2, ?M1, ?M2; reflexivity.
    + intros H; inversion H; subst; clear H. intros line.
      apply pass_caught with (url := url) (baseName := baseName) (e := e); try assumption;
        rewrite <- ?app_comm_cons, <- ?app_assoc; simpl;
        rewrite ?pushes_app, ?written_images_app, ?attempts_app,
          ?failures_logged_app, ?manifests_app, ?P1, ?P2, ?W1, ?W2, ?A1, ?A2,
          ?F1, ?F2, ?M1, ?M2; reflexivity.
    + intros H; inversion H; subst; clear H.
      apply pass_fatal with (url := url) (baseName := baseName); try assumption;
        simpl;
        rewrite ?pushes_app, ?written_images_app, ?attempts_app,
          ?failures_logged_app, ?manifests_app, ?P1, ?P2, ?W1, ?W2, ?A1, ?A2,
          ?F1, ?F2, ?M1, ?M2; reflexivity.
    + intros H; inversion H; subst; clear H.
      apply pass_pending with (url := url) (baseName := baseName); try assumption;
        simpl;
        rewrite ?pushes_app, ?written_images_app, ?attempts_app,
          ?failures_logged_app, ?manifests_app, ?P1, ?P2, ?W1, ?W2, ?A1, ?A2,
          ?F1, ?F2, ?M1, ?M2; reflexivity.
  - intros H; inversion H; subst; clear H. intros line.
    apply pass_caught with (url := url) (baseName := baseName) (e := e); try assumption;
      rewrite <- ?app_comm_cons; simpl;
      rewrite ?pushes_app, ?written_images_app, ?attempts_app,
        ?failures_logged_app, ?manifests_app, ?P1, ?W1, ?A1, ?F1, ?M1; reflexivity.
  - intros H; inversion H; subst; clear H.
    apply pass_fatal with (url := url) (baseName := baseName); try assumption;
      simpl; assumption.
  - intros H; inversion H; subst; clear H.
    apply pass_pending with (url := url) (baseName := baseName); try assumption;
      simpl; assumption.
Qed.

Lemma when_truthy_none v : when_truthy v = None -> truthy v = false.
Proof.
  unfold when_truthy. destruct (truthy v) eqn:E; [|reflexivity].
  destruct v; [discriminate | discriminate E].
Qed.

Lemma when_truthy_some v x : when_truthy v = Some x -> truthy v = true /\ v = Some x.
Proof.
  unfold when_truthy. destruct (truthy v); [|discriminate].
  intros ->. split; reflexivity.
Qed.

(** Every pass through the loop body goes one of the five ways. *)
Lemma iteration_pass c item st w r w' t :
  iteration c item st w = (r, w', t) -> pass c item st r t.
Proof.
  rewrite iteration_run.
  destruct item as [|b|n|s|elems|fields];
    try (intros H; inversion H; subst; apply pass_uncaught; left; reflexivity).
  all: destruct (ToString (brand_of _)) as [bs|] eqn:Eb;
    [destruct (ToString (name_of _ _)) as [ns|] eqn:En|];
    try (intros H; inversion H; subst; apply pass_uncaught; right;
         unfold base_name; rewrite Eb, ?En; reflexivity).
  all: destruct (when_truthy _) as [url|] eqn:Eu.
  all: try (intros H; inversion H; subst; apply pass_skipped; [discriminate|];
            apply when_truthy_none; exact Eu).
  all: match goal with
       | |- context [attempt ?c ?i ?u ?bn ?s ?w] =>
           destruct (attempt c i u bn s w) as [[ra wa] ta] eqn:Ea;
           apply attempt_pass in Ea;
           [ | exact Eu | unfold base_name; rewrite Eb, En; reflexivity ]
       end.
  all: destruct ra as [a|e|e|]; intros H; inversion H; subst; clear H;
    try exact Ea; apply Ea.
Qed.

End Iteration.

(* ================================================================= *)
(** ** The loop *)

Section Loop.
Context {R : Runtime}.

Lemma for_await_cons_yield c item rest st w :
  for_await c (Yield item :: rest) st w =
  match iteration c item st w with
  | (Ok (Next, st1), w1, t1) =>
      match for_await c rest st1 w1 with
      | (r, w2, t2) => (r, w2, t1 ++ t2)
      end
  | (Ok (Break, st1), w1, t1) => (Ok (Break, st1), w1, t1)
  | (Throw e, w1, t1) => (Throw e, w1, t1)
  | (Fatal e, w1, t1) => (Fatal e, w1, t1)
  | (Pending, w1, t1) => (Pending, w1, t1)
  end.
Proof.
  simpl. unfold bind at 1.
  destruct (iteration c item st w) as [[[[[|] st1]|e|e|] w1] t1]; try reflexivity.
  simpl. rewrite app_nil_r. reflexivity.
Qed.

Lemma for_await_cons_invalid c line rest st w :
  for_await c (InvalidLine line :: rest) st w =
  match for_await c rest st w with
  | (r, w2, t2) => (r, w2, ConsoleWarn [lit "Skipping invalid JSONL line:"; line] :: t2)
  end.
Proof. reflexivity. Qed.

(** A loop over [a ++ b] runs [b] only when the loop over [a] has used up
    its input without [break] and without an uncaught error. *)
Lemma for_await_app c a b st w :
  for_await c (a ++ b) st w =
  match for_await c a st w with
  | (Ok (Next, st1), w1, t1) =>
      match for_await c b st1 w1 with
      | (r, w2, t2) => (r, w2, t1 ++ t2)
      end
  | other => other
  end.
Proof.
  revert st w. induction a as [|[item|line] a IH]; intros st w.
  - simpl. destruct (for_await c b st w) as [[r w2] t2]. reflexivity.
  - rewrite <- app_comm_cons, !for_await_cons_yield.
    destruct (iteration c item st w) as [[[[[|] st1]|e|e|] w1] t1]; try reflexivity.
    rewrite IH.
    destruct (for_await c a st1 w1) as [[[[[|] st2]|e|e|] w2] t2]; try reflexivity.
    destruct (for_await c b st2 w2) as [[r w3] t3].
    rewrite app_assoc. reflexivity.
  - rewrite <- app_comm_cons, !for_await_cons_invalid, IH.
    destruct (for_await c a st w) as [[[[[|] st2]|e|e|] w2] t2]; try reflexivity.
    destruct (for_await c b st2 w2) as [[r w3] t3]. reflexivity.
Qed.

Lemma local_file_output item finalFile :
  local_file (output_record item finalFile) = Some (JStr finalFile).
Proof. unfold local_file, output_record, field. apply assoc_set_same. Qed.

(** Pushes and successful image writes go in pairs; no manifest is written
    inside the loop. *)
Lemma loop_pushes_written c actions st w r w' t :
  for_await c actions st w = (r, w', t) ->
  map local_file (pushes t) = map (fun p => Some (JStr p)) (written_images t)
  /\ manifests t = [].
Proof.
  revert st w r w' t. induction actions as [|[item|line] rest IH]; intros st w r w' t.
  - intros H. inversion H. split; reflexivity.
  - rewrite for_await_cons_yield.
    destruct (iteration c item st w) as [[ri wi] ti] eqn:Ei.
    apply iteration_pass in Ei.
    assert (Hi : map local_file (pushes ti) = map (fun p => Some (JStr p)) (written_images ti)
                 /\ manifests ti = []).
    { inversion Ei; subst;
        repeat match goal with H : _ = _ |- _ => rewrite H end;
        cbn [map pushes written_images manifests flat_map app];
        rewrite ?local_file_output; split; reflexivity. }
    destruct Hi as [Hp Hm].
    destruct ri as [[[|] st1]|e|e|];
      try (intros H; inversion H; subst; split; assumption).
    destruct (for_await c rest st1 wi) as [[r2 w2] t2] eqn:E2.
    destruct (IH _ _ _ _ _ E2) as [Hp2 Hm2].
    intros H; inversion H; subst.
    rewrite pushes_app, written_images_app, manifests_app, !map_app, Hp, Hp2, Hm, Hm2.
    split; reflexivity.
  - rewrite for_await_cons_invalid.
    destruct (for_await c rest st w) as [[r2 w2] t2] eqn:E2.
    destruct (IH _ _ _ _ _ E2) as [Hp2 Hm2].
    intros H; inversion H; subst. simpl. split; assumption.
Qed.

(** The locals at the end of the loop, from the trace. *)
Lemma loop_state c actions st w ctl st' w' t :
  for_await c actions st w = (Ok (ctl, st'), w', t) ->
  outputs st' = outputs st ++ pushes t
  /\ processed st' = (processed st + List.length (pushes t))%nat.
Proof.
  revert st w ctl st' w' t. induction actions as [|[item|line] rest IH];
    intros st w ctl st' w' t.
  - intros H. inversion H; subst. simpl. rewrite app_nil_r. split; [reflexivity | lia].
  - rewrite for_await_cons_yield.
    destruct (iteration c item st w) as [[ri wi] ti] eqn:Ei.
    apply iteration_pass in Ei.
    assert (Hi : forall ctl1 st1, ri = Ok (ctl1, st1) ->
                 outputs st1 = outputs st ++ pushes ti
                 /\ processed st1 = (processed st + List.length (pushes ti))%nat).
    { intros ctl1 st1 ->. inversion Ei; subst; simpl;
        repeat match goal with H : pushes _ = _ |- _ => rewrite H end;
        simpl; rewrite ?app_nil_r; split; try reflexivity; lia. }
    destruct ri as [[[|] st1]|e|e|]; try discriminate.
    + destruct (for_await c rest st1 wi) as [[r2 w2] t2] eqn:E2.
      intros H; inversion H; subst.
      destruct (IH _ _ _ _ _ _ E2) as [Ho Hp].
      destruct (Hi _ _ eq_refl) as [Ho1 Hp1].
      rewrite pushes_app, length_app, Ho, Hp, Ho1, Hp1, app_assoc.
      split; [reflexivity | lia].
    + intros H; inversion H; subst. apply (Hi _ _ eq_refl).
  - rewrite for_await_cons_invalid.
    destruct (for_await c rest st w) as [[r2 w2] t2] eqn:E2.
    intros H; inversion H; subst. simpl. apply (IH _ _ _ _ _ _ E2).
Qed.

Lemma positive_integer_truthy N :
  (1 <= N)%nat -> number_truthy (Finite (inject_Z (Z.of_nat N))) = true.
Proof.
  intros HN. unfold number_truthy.
  destruct (Qeq_bool (inject_Z (Z.of_nat N)) 0) eqn:E; [|reflexivity].
  apply Qeq_bool_iff in E. unfold Qeq in E. simpl in E. lia.
Qed.

Lemma counter_ge_integer N p :
  counter_ge p (Finite (inject_Z (Z.of_nat N))) = true <-> (N <= p)%nat.
Proof.
  unfold counter_ge. rewrite Qle_bool_iff. unfold Qle. simpl. lia.
Qed.

Lemma integer_limit_stops N c :
  (1 <= N)%nat -> limit c = Some (Finite (inject_Z (Z.of_nat N))) -> stops_at N c.
Proof.
  intros HN Hl p. rewrite Hl. unfold limit_reached.
  rewrite (positive_integer_truthy HN). simpl. apply counter_ge_integer.
Qed.

Lemma empty_limit_never_stops c :
  limit c = None \/ limit c = Some NaN
  \/ (exists q, limit c = Some (Finite q) /\ Qeq q 0) ->
  never_stops c.
Proof.
  intros [H|[H|[q [H Hq]]]] p; rewrite H; try reflexivity.
  unfold limit_reached, number_truthy.
  apply Qeq_bool_iff in Hq. rewrite Hq. reflexivity.
Qed.

Lemma loop_limit c N actions st w r w' t :
  stops_at N c -> (processed st < N)%nat ->
  for_await c actions st w = (r, w', t) ->
  (processed st + List.length (pushes t) <= N)%nat
  /\ (forall ctl st', r = Ok (ctl, st') -> (ctl = Break <-> processed st' = N)).
Proof.
  intros Hstop. revert st w r w' t.
  induction actions as [|[item|line] rest IH]; intros st w r w' t Hlt.
  - intros Hrun. inversion Hrun; subst. simpl. split; [lia|].
    intros ctl st' E. inversion E; subst. split; [discriminate | lia].
  - rewrite for_await_cons_yield.
    destruct (iteration c item st w) as [[ri wi] ti] eqn:Ei.
    apply iteration_pass in Ei. inversion Ei; subst.
    + intros Hrun. inversion Hrun; subst. simpl. split; [lia | discriminate].
    + destruct (for_await c rest (counted st) wi) as [[r2 w2] t2] eqn:E2.
      intros Hrun. inversion Hrun; subst. simpl.
      apply (IH (counted st) _ _ _ _ Hlt E2).
    + destruct (limit_reached (limit c) (S (processed st))) eqn:El.
      * apply Hstop in El. intros Hrun. inversion Hrun; subst.
        match goal with H : pushes _ = _ |- _ => rewrite H end. simpl.
        split; [lia|]. intros ctl st' E. inversion E; subst. simpl.
        split; [lia | reflexivity].
      * assert (Hlt' : (S (processed st) < N)%nat).
        { destruct (Nat.le_gt_cases N (S (processed st))) as [Hle|Hgt]; [|exact Hgt].
          apply Hstop in Hle. congruence. }
        match goal with
        | |- context [for_await c rest ?s wi] =>
            destruct (for_await c rest s wi) as [[r2 w2] t2] eqn:E2
        end.
        intros Hrun. inversion Hrun; subst.
        destruct (IH (appended st (output_record item (final_file c baseName)))
                    _ _ _ _ Hlt' E2) as [Hb Hc]. simpl in Hb.
        rewrite pushes_app, length_app.
        match goal with H : pushes ti = _ |- _ => rewrite H end. simpl.
        split; [lia | exact Hc].
    + destruct (for_await c rest (counted st) wi) as [[r2 w2] t2] eqn:E2.
      intros Hrun. inversion Hrun; subst.
      destruct (IH (counted st) _ _ _ _ Hlt E2) as [Hb Hc]. simpl in Hb.
      rewrite pushes_app, length_app.
      match goal with H : pushes ti = _ |- _ => rewrite H end. simpl.
      split; [lia | exact Hc].
    + intros Hrun. inversion Hrun; subst.
      match goal with H : pushes _ = _ |- _ => rewrite H end. simpl.
      split; [lia | discriminate].
    + intros Hrun. inversion Hrun; subst.
      match goal with H : pushes _ = _ |- _ => rewrite H end. simpl.
      split; [lia | discriminate].
  - rewrite for_await_cons_invalid.
    destruct (for_await c rest st w) as [[r2 w2] t2] eqn:E2.
    intros Hrun. inversion Hrun; subst. simpl. apply (IH _ _ _ _ _ Hlt E2).
Qed.

Lemma loop_never_breaks c actions st w ctl st' w' t :
  never_stops c -> for_await c actions st w = (Ok (ctl, st'), w', t) -> ctl = Next.
Proof.
  intros Hnever. revert st w ctl st' w' t.
  induction actions as [|[item|line] rest IH]; intros st w ctl st' w' t.
  - intros Hrun. inversion Hrun. reflexivity.
  - rewrite for_await_cons_yield.
    destruct (iteration c item st w) as [[ri wi] ti] eqn:Ei.
    apply iteration_pass in Ei.
    inversion Ei; subst; try discriminate; try rewrite Hnever;
      match goal with
      | |- context [for_await c rest ?s wi] =>
          destruct (for_await c rest s wi) as [[r2 w2] t2] eqn:E2
      end;
      intros Hrun; inversion Hrun; subst; apply (IH _ _ _ _ _ _ E2).
  - rewrite for_await_cons_invalid.
    destruct (for_await c rest st w) as [[r2 w2] t2] eqn:E2.
    intros Hrun. inversion Hrun; subst. apply (IH _ _ _ _ _ _ E2).
Qed.

(** A loop that uses up its input has tried every record that was due. *)
Lemma loop_attempts_all c actions st w st' w' t :
  for_await c actions st w = (Ok (Next, st'), w', t) ->
  attempts t = due c (index st) actions
  /\ index st' = (index st + List.length (yielded actions))%nat.
Proof.
  revert st w st' w' t.
  induction actions as [|[item|line] rest IH]; intros st w st' w' t.
  - intros Hrun. inversion Hrun; subst. simpl. split; [reflexivity | lia].
  - rewrite for_await_cons_yield.
    destruct (iteration c item st w) as [[ri wi] ti] eqn:Ei.
    apply iteration_pass in Ei. inversion Ei; subst; try discriminate.
    + destruct (for_await c rest (counted st) wi) as [[r2 w2] t2] eqn:E2.
      intros Hrun. inversion Hrun; subst.
      destruct (IH _ _ _ _ _ E2) as [Ha Hi]. simpl in Ha, Hi.
      simpl.
      match goal with H : truthy _ = false |- _ => rewrite H end.
      simpl. split; [exact Ha | lia].
    + destruct (limit_reached (limit c) (S (processed st))); [discriminate|].
      match goal with
      | |- context [for_await c rest ?s wi] =>
          destruct (for_await c rest s wi) as [[r2 w2] t2] eqn:E2
      end.
      intros Hrun. inversion Hrun; subst.
      destruct (IH _ _ _ _ _ E2) as [Ha Hi]. simpl in Ha, Hi.
      match goal with H : when_truthy _ = Some _ |- _ =>
        apply when_truthy_some in H; destruct H as [Ht _] end.
      rewrite attempts_app. simpl. rewrite Ht.
      match goal with H : base_name _ _ = _ |- _ => rewrite H end.
      match goal with H : attempts ti = _ |- _ => rewrite H end.
      simpl. split; [f_equal; exact Ha | lia].
    + destruct (for_await c rest (counted st) wi) as [[r2 w2] t2] eqn:E2.
      intros Hrun. inversion Hrun; subst.
      destruct (IH _ _ _ _ _ E2) as [Ha Hi]. simpl in Ha, Hi.
      match goal with H : when_truthy _ = Some _ |- _ =>
        apply when_truthy_some in H; destruct H as [Ht _] end.
      rewrite attempts_app. simpl. rewrite Ht.
      match goal with H : base_name _ _ = _ |- _ => rewrite H end.
      match goal with H : attempts ti = _ |- _ => rewrite H end.
      simpl. split; [f_equal; exact Ha | lia].
  - rewrite for_await_cons_invalid.
    destruct (for_await c rest st w) as [[r2 w2] t2] eqn:E2.
    intros Hrun. inversion Hrun; subst. simpl. apply (IH _ _ _ _ _ E2).
Qed.

Lemma attempt_limit c l1 l2 item url baseName st w :
  (forall p, limit_reached l1 p = limit_reached l2 p) ->
  attempt (with_limit l1 c) item url baseName st w
  = attempt (with_limit l2 c) item url baseName st w.
Proof.
  intros H. rewrite !attempt_run. cbv zeta.
  change (workingDir (with_limit l1 c)) with (workingDir c).
  change (workingDir (with_limit l2 c)) with (workingDir c).
  change (finalDir (with_limit l1 c)) with (finalDir c).
  change (finalDir (with_limit l2 c)) with (finalDir c).
  change (limit (with_limit l1 c)) with l1.
  change (limit (with_limit l2 c)) with l2.
  destruct (downloadFile _ _ w) as [[[u|e|e|] w1] t1]; try reflexivity.
  change (enhance (with_limit l1 c)) with (enhance c).
  change (enhance (with_limit l2 c)) with (enhance c).
  rewrite H. reflexivity.
Qed.

Lemma iteration_limit c l1 l2 item st w :
  (forall p, limit_reached l1 p = limit_reached l2 p) ->
  iteration (with_limit l1 c) item st w = iteration (with_limit l2 c) item st w.
Proof.
  intros H. rewrite !iteration_run.
  change (which (with_limit l1 c)) with (which c).
  change (which (with_limit l2 c)) with (which c).
  destruct item; try reflexivity;
    destruct (ToString _); try reflexivity;
    destruct (ToString _); try reflexivity;
    destruct (when_truthy _); try reflexivity;
    rewrite (attempt_limit c l1 l2 _ _ _ _ _ H); reflexivity.
Qed.

Lemma for_await_limit c l1 l2 actions st w :
  (forall p, limit_reached l1 p = limit_reached l2 p) ->
  for_await (with_limit l1 c) actions st w = for_await (with_limit l2 c) actions st w.
Proof.
  intros H. revert st w. induction actions as [|[item|line] rest IH]; intros st w.
  - reflexivity.
  - rewrite !for_await_cons_yield, (iteration_limit c l1 l2 _ _ _ H).
    destruct (iteration _ item st w) as [[[[[|] st1]|e|e|] w1] t1]; try reflexivity.
    rewrite IH. reflexivity.
  - rewrite !for_await_cons_invalid, IH. reflexivity.
Qed.

End Loop.

(* ================================================================= *)
(** ** The OpenRouter decoder and its candidates *)

Arguments extractBase64FromDataUrl : simpl never.

Section Decoder.
Context {R : Runtime}.

Lemma bind_returned {A B} (m : M A) (g : A -> M B) (k : M B) w :
  bind (returned m) (fun found => match found with Some a => g a | None => k end) w
  = bind m g w.
Proof.
  unfold returned, bind, ret.
  destruct (m w) as [[[a|e|e|] w1] t1]; try reflexivity.
  destruct (g a w1) as [[r w2] t2]. rewrite app_nil_r. reflexivity.
Qed.

Lemma type_is_output_image part :
  type_is part "output_image" = true ->
  type_is part "image_url" = false /\ type_is part "text" = false.
Proof.
  unfold type_is. destruct (opt_get (Some part) "type") as [[| | |s| |]|];
    try discriminate.
  intros H. apply str_eqb_eq in H. subst s. split; reflexivity.
Qed.

Lemma choose_cons {A B} (f : A -> option B) x l :
  choose f (x :: l) = match f x with Some y => y :: choose f l | None => choose f l end.
Proof. unfold choose. simpl. destruct (f x); reflexivity. Qed.

Lemma scan_images_step img rest w :
  scan_images (img :: rest) w =
  match image_candidate img with
  | Some c => returned (use_candidate c) w
  | None => scan_images rest w
  end.
Proof.
  cbn [scan_images]. fold (remote_url img). unfold image_candidate, data_url_payload.
  destruct (remote_url img) as [url|].
  - destruct (extractBase64FromDataUrl (Some url)); reflexivity.
  - destruct (is_string (Some img)); [|reflexivity].
    destruct (extractBase64FromDataUrl (Some img)); reflexivity.
Qed.

Lemma scan_images_first images w :
  scan_images images w =
  match choose image_candidate images with
  | [] => ret None w
  | c :: _ => returned (use_candidate c) w
  end.
Proof.
  induction images as [|img rest IH]; [reflexivity|].
  rewrite scan_images_step, choose_cons.
  destruct (image_candidate img); [reflexivity | exact IH].
Qed.

Lemma scan_content_step part rest w :
  scan_content (part :: rest) w =
  match part_candidate part with
  | Some c => returned (use_candidate c) w
  | None => scan_content rest w
  end.
Proof.
  cbn [scan_content]. fold (remote_url part).
  unfold part_candidate, output_image_case, data_url_payload.
  destruct (type_is part "output_image") eqn:Eo.
  - destruct (type_is_output_image part Eo) as [Eu Et].
    set (base64 := or_val _ _).
    destruct (truthy base64).
    + fold (returned (Buffer_from base64)).
      rewrite bind_returned. reflexivity.
    + unfold remote_url. rewrite Eu, Et. cbn [andb].
      destruct (is_string (get part "data")).
      * destruct (extractBase64FromDataUrl (get part "data")) as [b64|].
        -- fold (returned (Buffer_from (Some (JStr b64)))).
           rewrite bind_returned. reflexivity.
        -- rewrite bind_ret_run. reflexivity.
      * rewrite bind_ret_run. reflexivity.
  - rewrite bind_ret_run.
    destruct (remote_url part) as [url|]; [reflexivity|].
    destruct (type_is part "text" && is_string (get part "text")); [|reflexivity].
    destruct (extractBase64FromDataUrl (get part "text")); reflexivity.
Qed.

Lemma scan_content_first content w :
  scan_content content w =
  match choose part_candidate content with
  | [] => ret None w
  | c :: _ => returned (use_candidate c) w
  end.
Proof.
  induction content as [|part rest IH]; [reflexivity|].
  rewrite scan_content_step, choose_cons.
  destruct (part_candidate part); [reflexivity | exact IH].
Qed.

(** C4, as amended. The decoder goes by the first shape of the response
    that matches, in the fixed order of the entries of [message.images],
    then the parts of a content array, then a string content: it returns or
    throws what the use of that one candidate returns or throws, so that a
    failed fetch for it goes up at once and later shapes are not tried; it
    throws its own error exactly when no shape matches. *)
Theorem decoder_uses_first_match json w :
  extractImageBufferFromOpenRouterResponse json w =
  match candidates json with
  | [] => throw (Error (lit "OpenRouter response did not include an image")) w
  | first :: _ => use_candidate first w
  end.
Proof.
  unfold extractImageBufferFromOpenRouterResponse, candidates.
  set (message := opt_get (opt_first (opt_get (Some json) "choices")) "message").
  set (content := opt_get message "content").
  set (found_images := match opt_get message "images" with
                       | Some (JArr imgs) => choose image_candidate imgs
                       | _ => []
                       end).
  assert (Himages :
    forall w, match opt_get message "images" with
              | Some (JArr imgs) => scan_images imgs
              | _ => ret None
              end w
              = match found_images with
                | [] => ret None w
                | c :: _ => returned (use_candidate c) w
                end).
  { intros w0. unfold found_images.
    destruct (opt_get message "images") as [[| | | |imgs|]|]; try reflexivity.
    apply scan_images_first. }
  unfold bind at 1. rewrite Himages.
  destruct found_images as [|c rest].
  - simpl.
    assert (Hcontent :
      forall w, match content with
                | Some (JArr parts) => scan_content parts
                | _ => ret None
                end w
                = match (match content with
                         | Some (JArr parts) => choose part_candidate parts
                         | _ => []
                         end) with
                  | [] => ret None w
                  | c :: _ => returned (use_candidate c) w
                  end).
    { intros w0. destruct content as [[| | | |parts|]|]; try reflexivity.
      apply scan_content_first. }
    unfold bind at 1. rewrite Hcontent.
    destruct content as [[| | |s|parts|]|]; simpl; try reflexivity.
    + unfold data_url_payload.
      destruct (extractBase64FromDataUrl (Some (JStr s))); reflexivity.
    + destruct (choose part_candidate parts) as [|c rest]; [reflexivity|].
      unfold returned, bind, ret.
      destruct (use_candidate c w) as [[[a|e|e|] w1] t1]; try reflexivity.
      simpl. rewrite !app_nil_r. reflexivity.
  - simpl. unfold returned, bind, ret.
    destruct (use_candidate c w) as [[[a|e|e|] w1] t1]; try reflexivity.
    simpl. rewrite !app_nil_r. reflexivity.
Qed.

End Decoder.

(* ================================================================= *)
(** ** The order of the stages *)

Section Order.
Context {R : Runtime}.

Lemma attempt_staged c item url baseName st : staged 1 5 (attempt c item url baseName st).
Proof.
  unfold attempt. cbv zeta.
  apply staged_bind with (mid := 1%nat); [lia | lia | |].
  { apply emits_no_steps. apply emits_emit. reflexivity. }
  intros _. apply staged_bind with (mid := 1%nat); [lia | lia | |].
  { apply (emits_steps (s := Download)). apply downloadFile_emits. }
  intros _. apply staged_weaken with (lo := 2%nat) (hi := 5%nat); [lia | lia |].
  apply staged_bind with (mid := 3%nat); [lia | lia | apply enhance_staged |].
  intros buf. apply staged_weaken with (lo := 4%nat) (hi := 5%nat); [lia | lia |].
  apply staged_bind with (mid := 4%nat); [lia | lia | |].
  { apply (emits_steps (s := WriteFinal)). apply emits_call_or_throw. reflexivity. }
  intros _. apply staged_weaken with (lo := 5%nat) (hi := 5%nat); [lia | lia |].
  apply staged_bind with (mid := 5%nat); [lia | lia | |].
  { apply (emits_steps (s := Append)). apply emits_emit. reflexivity. }
  intros _. apply emits_no_steps. emits_auto.
Qed.

Lemma iteration_staged c item st : staged 1 5 (iteration c item st).
Proof.
  unfold iteration. cbv zeta.
  do 3 (apply staged_bind with (mid := 1%nat);
        [lia | lia | apply emits_no_steps; apply emits_lift | intros ?]).
  destruct (when_truthy _) as [url|].
  - apply staged_bind with (mid := 1%nat);
      [lia | lia | apply emits_no_steps; apply emits_lift | intros base].
    apply staged_try_catch; [apply attempt_staged|].
    intros e. emits_auto.
  - apply emits_no_steps. emits_auto.
Qed.

Lemma steps_inv s t : In s (steps t) -> exists e, In e t /\ step_of e = Some s.
Proof.
  unfold steps. rewrite in_flat_map. intros [e [He Hs]].
  exists e. split; [exact He|].
  destruct (step_of e) as [s'|]; [|contradiction].
  destruct Hs as [->|[]]. reflexivity.
Qed.

Lemma image_written_pushes t :
  written_images t <> [] <-> image_written t.
Proof.
  unfold image_written, written_images. split.
  - intros H. destruct (flat_map _ t) as [|p l] eqn:E; [contradiction|].
    assert (Hin : In p (flat_map (fun e => match e with
                                           | WriteFile path (Bytes _) (inr _) => [path]
                                           | _ => []
                                           end) t)) by (rewrite E; left; reflexivity).
    apply in_flat_map in Hin. destruct Hin as [e [He Hp]].
    destruct e; try contradiction. destruct data; try contradiction.
    destruct result as [e|[]]; try contradiction.
    destruct Hp as [->|[]]. exists p, b. exact He.
  - intros [p [b H]] E.
    assert (Hin : In p (flat_map (fun e => match e with
                                           | WriteFile path (Bytes _) (inr _) => [path]
                                           | _ => []
                                           end) t)).
    { apply in_flat_map. exists (WriteFile p (Bytes b) (inr tt)).
      split; [exact H | left; reflexivity]. }
    rewrite E in Hin. contradiction.
Qed.

Lemma download_completed_incl t t' :
  incl t t' -> download_completed t -> download_completed t'.
Proof. intros Hi [p Hp]. exists p. apply Hi. exact Hp. Qed.

Lemma api_answered_incl t t' : incl t t' -> api_answered t -> api_answered t'.
Proof.
  intros Hi [[rq [rs H]]|[u [h [b [res [H Hok]]]]]].
  - left. exists rq, rs. apply Hi. exact H.
  - right. exists u, h, b, res. split; [apply Hi; exact H | exact Hok].
Qed.

Lemma steps_of_download t :
  Forall (fun e => step_of e = Some Download) t ->
  forall s, In s (steps t) -> rank s = 1%nat.
Proof.
  intros H s Hs. apply steps_inv in Hs. destruct Hs as [e [He Hse]].
  rewrite Forall_forall in H. rewrite (H e He) in Hse. inversion Hse. reflexivity.
Qed.

Ltac incl_app :=
  let e := fresh "e" in
  let He := fresh "He" in
  intros e He; simpl; rewrite ?in_app_iff; simpl; auto 10.

Lemma attempt_precedence c item url baseName st w :
  let t := trace_of (attempt c item url baseName st w) in
  (forall s, In s (steps t) -> (rank CallApi <= rank s)%nat -> download_completed t)
  /\ (forall s, In s (steps t) -> (rank Decode <= rank s)%nat -> api_answered t).
Proof.
  rewrite attempt_run. cbv zeta.
  set (workingFile := path_join (workingDir c) (image_name baseName)).
  set (finalFile := path_join (finalDir c) (image_name baseName)).
  set (began := ConsoleLog _).
  pose proof (downloadFile_emits url workingFile w) as Hd.
  destruct (downloadFile url workingFile w) as [[[u|e|e|] w1] t1] eqn:Ed;
    unfold trace_of in Hd; simpl in Hd;
    pose proof (steps_of_download Hd) as Hrank.
  - assert (Hdone : forall rest, download_completed (began :: t1 ++ rest)).
    { intros rest. apply download_completed_incl with (t := t1); [incl_app|].
      exists workingFile. apply (downloadFile_completed _ _ _ Ed). }
    destruct (enhance c url workingFile w1) as [[[buf|e|e|] w2] t2] eqn:Ee.
    + assert (Hans : forall rest, api_answered (began :: t1 ++ t2 ++ rest)).
      { intros rest. apply api_answered_incl with (t := t2); [incl_app|].
        apply (enhance_answered _ _ _ _ Ee). left. exists buf. reflexivity. }
      destruct (fs_writeFileSync finalFile (Bytes buf) w2) as [[e|u'] w3];
        unfold trace_of; simpl; split; intros; first [apply Hdone | apply Hans].
    + unfold trace_of; simpl. split; [intros; apply Hdone|].
      intros s Hs Hr. change (began :: t1 ++ t2) with ([began] ++ t1 ++ t2) in Hs.
      rewrite !steps_app in Hs. simpl in Hs. apply in_app_or in Hs.
      destruct Hs as [Hs|Hs]; [apply Hrank in Hs; simpl in Hr; lia|].
      apply api_answered_incl with (t := t2); [incl_app|].
      apply (enhance_answered _ _ _ _ Ee). right. exists s. split; [exact Hs | exact Hr].
    + unfold trace_of; simpl. split; [intros; apply Hdone|].
      intros s Hs Hr. change (began :: t1 ++ t2) with ([began] ++ t1 ++ t2) in Hs.
      rewrite !steps_app in Hs. simpl in Hs. apply in_app_or in Hs.
      destruct Hs as [Hs|Hs]; [apply Hrank in Hs; simpl in Hr; lia|].
      apply api_answered_incl with (t := t2); [incl_app|].
      apply (enhance_answered _ _ _ _ Ee). right. exists s. split; [exact Hs | exact Hr].
    + unfold trace_of; simpl. split; [intros; apply Hdone|].
      intros s Hs Hr. change (began :: t1 ++ t2) with ([began] ++ t1 ++ t2) in Hs.
      rewrite !steps_app in Hs. simpl in Hs. apply in_app_or in Hs.
      destruct Hs as [Hs|Hs]; [apply Hrank in Hs; simpl in Hr; lia|].
      apply api_answered_incl with (t := t2); [incl_app|].
      apply (enhance_answered _ _ _ _ Ee). right. exists s. split; [exact Hs | exact Hr].
  - unfold trace_of; simpl. split; intros s Hs Hr;
      apply Hrank in Hs; simpl in Hr; lia.
  - unfold trace_of; simpl. split; intros s Hs Hr;
      apply Hrank in Hs; simpl in Hr; lia.
  - unfold trace_of; simpl. split; intros s Hs Hr;
      apply Hrank in Hs; simpl in Hr; lia.
Qed.

Lemma pushes_nonempty record t : In (Push record) t -> pushes t <> [].
Proof.
  intros H E.
  assert (Hin : In record (pushes t)).
  { unfold pushes. apply in_flat_map. exists (Push record). split; [exact H | left; reflexivity]. }
  rewrite E in Hin. contradiction.
Qed.

Lemma iteration_precedence c item st w r w' t :
  iteration c item st w = (r, w', t) ->
  (forall s, In s (steps t) -> (rank CallApi <= rank s)%nat -> download_completed t)
  /\ (forall s, In s (steps t) -> (rank Decode <= rank s)%nat -> api_answered t).
Proof.
  rewrite iteration_run.
  destruct item as [|b|n|str|elems|fields];
    try (intros H; inversion H; subst; split; intros s0 []).
  all: destruct (ToString _);
    try (intros H; inversion H; subst; split; intros s0 []).
  all: destruct (ToString _);
    try (intros H; inversion H; subst; split; intros s0 []).
  all: destruct (when_truthy _) as [url|];
    try (intros H; inversion H; subst; split; intros s0 []).
  all: match goal with
       | |- context [attempt ?c ?i ?u ?b ?s ?w] =>
           destruct (attempt_precedence c i u b s w) as [Hp1 Hp2];
           destruct (attempt c i u b s w) as [[[a|e|e|] w1] t1]
       end; unfold trace_of in *; simpl in Hp1, Hp2;
    intros H; inversion H; subst; try (split; assumption).
  all: split; intros s0 Hs Hr; rewrite steps_app in Hs; simpl in Hs;
    rewrite app_nil_r in Hs.
  all: first [ apply download_completed_incl with (t := t1);
               [incl_app | exact (Hp1 s0 Hs Hr)]
             | apply api_answered_incl with (t := t1);
               [incl_app | exact (Hp2 s0 Hs Hr)] ].
Qed.

(** Every pass through the loop body keeps the order of the stages. *)
Lemma iteration_orderly c item st w : orderly (trace_of (iteration c item st w)).
Proof.
  destruct (iteration c item st w) as [[r w'] t] eqn:Ei. unfold trace_of. simpl.
  destruct (iteration_precedence _ _ _ _ Ei) as [Hp1 Hp2].
  assert (Hlast : image_written t <-> pushes t <> []).
  { apply iteration_pass in Ei. rewrite <- image_written_pushes.
    inversion Ei; subst; simpl;
      repeat match goal with H : _ = _ |- _ => rewrite H end;
      split; intros Hne; try congruence; discriminate. }
  unfold orderly. repeat split; try assumption; try apply Hlast.
  intros Hs. apply Hlast. apply steps_inv in Hs. destruct Hs as [e [He Hse]].
  destruct e; simpl in Hse; try discriminate.
  - destruct data; discriminate.
  - destruct request; discriminate.
  - apply (pushes_nonempty _ _ He).
Qed.

End Order.

(* ================================================================= *)
(** ** The whole of [main] *)

Section Main.
Context {R : Runtime}.

Lemma prepare_emits b : emits setup_event (prepare b).
Proof.
  unfold prepare, load_background, ensureDirSync, readJsonl. cbv zeta.
  repeat first
    [ apply emits_ret | apply emits_emit; exact I
    | apply emits_call; intros; exact I
    | apply emits_call_or_throw; intros; exact I
    | apply emits_try_catch; [|intros ?]
    | apply emits_bind; [|intros ?]
    | match goal with |- emits _ (match ?x with _ => _ end) => destruct x end
    | match goal with |- emits _ (if ?x then _ else _) => destruct x end ].
Qed.

Lemma prepare_trace_facts b w r w' t :
  prepare b w = (r, w', t) ->
  pushes t = [] /\ written_images t = [] /\ manifests t = [].
Proof.
  intros E. pose proof (prepare_emits b w) as H. rewrite E in H.
  unfold trace_of in H. simpl in H.
  repeat split; (eapply flat_map_nil_Forall; [|exact H]);
    intros [] He; simpl in He; try contradiction; reflexivity.
Qed.

Lemma prepare_limit b w p w' t :
  prepare b w = (Ok p, w', t) -> limit (fst p) = cli_limit /\ which (fst p) = b.
Proof.
  unfold prepare. cbv zeta. unfold bind at 1.
  destruct (load_background b _ w) as [[[bg|e|e|] w1] t1]; try discriminate.
  unfold bind at 1.
  destruct (ensureDirSync _ w1) as [[[u2|e|e|] w2] t2]; try discriminate.
  unfold bind at 1.
  destruct (ensureDirSync _ w2) as [[[u3|e|e|] w3] t3]; try discriminate.
  unfold bind at 1.
  match goal with
  | |- context [match ?m w3 with _ => _ end] =>
      destruct (m w3) as [[[u4|e|e|] w4] t4]; try discriminate
  end.
  unfold bind at 1.
  destruct (readJsonl _ w4) as [[[actions|e|e|] w5] t5]; try discriminate.
  simpl. intros H. inversion H; subst. simpl. split; reflexivity.
Qed.

(** [main], stage by stage. *)
Lemma main_run b w :
  main b w =
  match prepare b w with
  | (Ok p, w1, t1) =>
      match for_await (fst p) (snd p) start w1 with
      | (Ok r, w2, t2) =>
          let path := data_json_path (finalDir (fst p)) in
          let text := JSON_stringify_indent2 (JArr (outputs (snd r))) in
          match fs_writeFileSync path (Text text) w2 with
          | (inl e, w3) => (Throw e, w3, t1 ++ t2 ++ [WriteFile path (Text text) (inl e)])
          | (inr u, w3) =>
              (Ok tt, w3,
               t1 ++ t2
                 ++ [WriteFile path (Text text) (inr u);
                     ConsoleLog (lit "Wrote " ++ decimal (List.length (outputs (snd r)))
                                   ++ lit " records to " ++ path)])
          end
      | (Throw e, w2, t2) => (Throw e, w2, t1 ++ t2)
      | (Fatal e, w2, t2) => (Fatal e, w2, t1 ++ t2)
      | (Pending, w2, t2) => (Pending, w2, t1 ++ t2)
      end
  | (Throw e, w1, t1) => (Throw e, w1, t1)
  | (Fatal e, w1, t1) => (Fatal e, w1, t1)
  | (Pending, w1, t1) => (Pending, w1, t1)
  end.
Proof.
  unfold main. unfold bind at 1.
  destruct (prepare b w) as [[[p|e|e|] w1] t1]; try reflexivity.
  unfold bind at 1.
  destruct (for_await (fst p) (snd p) start w1) as [[[r|e|e|] w2] t2]; try reflexivity.
  unfold write_manifest. cbv zeta. rewrite bind_call_or_throw_run.
  destruct (fs_writeFileSync _ _ w2) as [[e|u] w3]; reflexivity.
Qed.

(** What [main] writes as the manifest: nothing when it is cut short,
    otherwise the records pushed, once. *)
Lemma main_manifest b w :
  let t := trace_of (main b w) in
  List.length (pushes t) = List.length (written_images t)
  /\ (manifests t = []
      \/ exists path, manifests t = [(path, JSON_stringify_indent2 (JArr (pushes t)))]).
Proof.
  cbv zeta. rewrite main_run.
  destruct (prepare b w) as [[[p|e|e|] w1] t1] eqn:Ep;
    destruct (prepare_trace_facts _ _ Ep) as [P1 [W1 M1]];
    unfold trace_of; simpl; try (rewrite P1, W1, M1; split; [reflexivity | left; reflexivity]).
  destruct (for_await (fst p) (snd p) start w1) as [[[[ctl st']|e|e|] w2] t2] eqn:El;
    destruct (loop_pushes_written _ _ _ _ El) as [Hpw M2];
    assert (Hlen : List.length (pushes t2) = List.length (written_images t2))
      by (rewrite <- (length_map local_file), Hpw, length_map; reflexivity);
    simpl;
    try (rewrite pushes_app, written_images_app, manifests_app, P1, W1, M1, M2;
         simpl; split; [exact Hlen | left; reflexivity]).
  destruct (loop_state _ _ _ _ El) as [Ho _]. simpl in Ho.
  destruct (fs_writeFileSync _ _ w2) as [[e|u] w3]; simpl;
    rewrite !pushes_app, !written_images_app, !manifests_app, P1, W1, M1, M2; simpl;
    rewrite !app_nil_r, Ho;
    (split; [exact Hlen | right; eexists; reflexivity]).
Qed.

Lemma prepare_reads b w p w' t :
  prepare b w = (Ok p, w', t) ->
  exists path content, In (ReadTextFile path (inr content)) t.
Proof.
  unfold prepare. cbv zeta. unfold bind at 1.
  destruct (load_background b _ w) as [[[bg|e|e|] w1] t1]; try discriminate.
  unfold bind at 1.
  destruct (ensureDirSync _ w1) as [[[u2|e|e|] w2] t2]; try discriminate.
  unfold bind at 1.
  destruct (ensureDirSync _ w2) as [[[u3|e|e|] w3] t3]; try discriminate.
  unfold bind at 1.
  match goal with
  | |- context [match ?m w3 with _ => _ end] =>
      destruct (m w3) as [[[u4|e|e|] w4] t4]; try discriminate
  end.
  unfold readJsonl. unfold bind at 1. rewrite bind_call_or_throw_run.
  match goal with
  | |- context [fs_readFileSync_utf8 ?path w4] =>
      destruct (fs_readFileSync_utf8 path w4) as [[e|content] w5]; try discriminate;
      intros H; inversion H; subst; exists path, content
  end.
  rewrite !in_app_iff. simpl. auto 10.
Qed.

Lemma split_after_prefix (P : event -> Prop) t1 rest before e after :
  Forall P t1 -> ~ P e -> t1 ++ rest = before ++ e :: after ->
  exists middle, before = t1 ++ middle.
Proof.
  revert before. induction t1 as [|x t1 IH]; intros before Hall Hne Heq.
  - exists before. reflexivity.
  - inversion Hall as [|? ? Hx Hrest]; subst.
    destruct before as [|y before]; simpl in Heq; inversion Heq; subst.
    + contradiction.
    + destruct (IH before Hrest Hne H1) as [middle ->].
      exists middle. reflexivity.
Qed.

(** In a run of [main] a download starts only after the input file has
    been read. *)
Lemma main_reads_first b w before e after :
  trace_of (main b w) = before ++ e :: after ->
  step_of e = Some Download ->
  exists path content, In (ReadTextFile path (inr content)) before.
Proof.
  intros Heq Hstep.
  assert (Hne : ~ setup_event e) by (destruct e; simpl in *; try discriminate; auto).
  rewrite main_run in Heq.
  pose proof (prepare_emits b w) as Hall.
  destruct (prepare b w) as [[[p|err|err|] w1] t1] eqn:Ep;
    unfold trace_of in Hall; simpl in Hall.
  - destruct (prepare_reads _ _ Ep) as [path [content Hin]].
    assert (Hmid : exists rest, trace_of (main b w) = t1 ++ rest).
    { rewrite main_run, Ep.
      destruct (for_await (fst p) (snd p) start w1) as [[[r|err|err|] w2] t2];
        try (eexists; reflexivity).
      cbv zeta. destruct (fs_writeFileSync _ _ w2) as [[err|u] w3]; eexists; reflexivity. }
    destruct Hmid as [rest Hrest].
    rewrite main_run, Ep in Hrest. rewrite Hrest in Heq.
    destruct (split_after_prefix _ _ _ _ Hall Hne Heq) as [middle ->].
    exists path, content. apply in_or_app. left. exact Hin.
  - unfold trace_of in Heq. simpl in Heq. rewrite Heq in Hall.
    apply Forall_app in Hall. destruct Hall as [_ Hall].
    inversion Hall; subst. contradiction.
  - unfold trace_of in Heq. simpl in Heq. rewrite Heq in Hall.
    apply Forall_app in Hall. destruct Hall as [_ Hall].
    inversion Hall; subst. contradiction.
  - unfold trace_of in Heq. simpl in Heq. rewrite Heq in Hall.
    apply Forall_app in Hall. destruct Hall as [_ Hall].
    inversion Hall; subst. contradiction.
Qed.

End Main.

(* ================================================================= *)
(** ** The lines of the input file *)

Lemma split_newlines_nonempty cur content : split_newlines cur content <> [].
Proof.
  revert cur. induction content as [|c rest IH]; intros cur; simpl; [discriminate|].
  destruct (c =? 10); [discriminate|].
  destruct (c =? 13); [|apply IH].
  destruct rest as [|d rest']; [discriminate|].
  destruct (d =? 10); [discriminate | apply IH].
Qed.

Lemma join_lines_cons l rest :
  rest <> [] -> join_lines (l :: rest) = l ++ 10 :: join_lines rest.
Proof. destruct rest; [contradiction | reflexivity]. Qed.

Lemma split_newlines_join n :
  forall content cur, (List.length content <= n)%nat ->
  join_lines (split_newlines cur content) = rev cur ++ without_cr content.
Proof.
  induction n as [|n IH]; intros [|c rest] cur Hlen; simpl in Hlen;
    try (simpl; rewrite app_nil_r; reflexivity); try lia.
  cbn [split_newlines without_cr].
  destruct (c =? 10) eqn:Elf.
  - apply N.eqb_eq in Elf. subst c. cbn [N.eqb Pos.eqb andb].
    rewrite join_lines_cons by apply split_newlines_nonempty.
    rewrite IH by lia. reflexivity.
  - destruct (c =? 13) eqn:Ecr.
    + apply N.eqb_eq in Ecr. subst c.
      destruct rest as [|d rest'].
      * reflexivity.
      * destruct (d =? 10) eqn:Ed.
        -- cbn [andb]. apply N.eqb_eq in Ed. subst d.
           rewrite join_lines_cons by apply split_newlines_nonempty.
           rewrite IH by (simpl in Hlen; lia).
           cbn [without_cr N.eqb Pos.eqb andb rev app]. reflexivity.
        -- cbn [andb]. rewrite IH by lia.
           cbn [rev]. rewrite <- app_assoc. reflexivity.
    + cbn [andb]. rewrite IH by lia. cbn [rev]. rewrite <- app_assoc. reflexivity.
Qed.

Lemma split_newlines_no_lf content :
  forall cur, ~ In 10 cur -> Forall (fun l => ~ In 10 l) (split_newlines cur content).
Proof.
  assert (Hrev : forall cur : jsstring, ~ In 10 cur -> ~ In 10 (rev cur)).
  { intros cur H Hin. apply H. apply in_rev. exact Hin. }
  assert (Hn : forall n, (List.length content <= n)%nat ->
               forall cur, ~ In 10 cur -> Forall (fun l => ~ In 10 l) (split_newlines cur content)).
  { intros n. revert content. induction n as [|n IH]; intros [|c rest] Hlen cur Hcur;
      simpl in Hlen; try lia;
      try (simpl; constructor; [apply Hrev; exact Hcur | constructor]).
    cbn [split_newlines].
    destruct (c =? 10) eqn:Elf.
    - constructor; [apply Hrev; exact Hcur|]. apply IH; [lia | intros []].
    - assert (Hc : ~ In 10 (c :: cur)).
      { intros [E|E]; [|exact (Hcur E)]. subst c. discriminate Elf. }
      destruct (c =? 13); [|apply IH; [lia | exact Hc]].
      destruct rest as [|d rest']; [apply IH; [simpl; lia | exact Hc]|].
      destruct (d =? 10).
      + constructor; [apply Hrev; exact Hcur|].
        apply IH; [simpl in Hlen; lia | intros []].
      + apply IH; [lia | exact Hc]. }
  apply (Hn (List.length content)). lia.
Qed.

Section Lines.
Context {R : Runtime}.

Lemma readJsonl_lines_yielded lines :
  yielded (readJsonl_lines lines) = choose JSON_parse lines.
Proof.
  induction lines as [|line rest IH]; [reflexivity|].
  rewrite choose_cons. unfold readJsonl_lines in *. simpl.
  destruct (JSON_parse line); simpl; rewrite IH; reflexivity.
Qed.

Lemma readJsonl_lines_rejected lines :
  rejected (readJsonl_lines lines)
  = filter (fun line => match JSON_parse line with Some _ => false | None => true end) lines.
Proof.
  induction lines as [|line rest IH]; [reflexivity|].
  unfold readJsonl_lines in *. simpl.
  destruct (JSON_parse line); simpl; rewrite IH; reflexivity.
Qed.

End Lines.

(* ================================================================= *)
(** ** Properties of the pipeline *)

Section Properties.
Context {R : Runtime}.

Lemma steps_in e s t : In e t -> step_of e = Some s -> In s (steps t).
Proof.
  intros He Hs. unfold steps. apply in_flat_map. exists e.
  split; [exact He|]. rewrite Hs. left. reflexivity.
Qed.

Lemma pass_pushes_le c item st r t : pass c item st r t -> (List.length (pushes t) <= 1)%nat.
Proof.
  intros H. inversion H; subst; simpl;
    repeat match goal with E : pushes _ = _ |- _ => rewrite E end; simpl; lia.
Qed.

Lemma base_name_inv item index baseName :
  base_name item index = Some baseName ->
  exists b n,
    ToString (brand_of item) = Some b /\ ToString (name_of item index) = Some n
    /\ baseName = toSafeFilename (lit "" ++ b ++ lit "_" ++ n ++ lit "").
Proof.
  unfold base_name.
  destruct (ToString (brand_of item)) as [b|]; [|discriminate].
  destruct (ToString (name_of item index)) as [n|]; [|discriminate].
  intros H. inversion H. exists b, n. repeat split.
Qed.

Lemma truthy_get_object item k :
  truthy (get item k) = true -> exists fields, item = JObj fields.
Proof.
  destruct item; simpl; try discriminate. intros _. eexists. reflexivity.
Qed.

(** A record whose download, enhancement and write succeed is appended. *)
Lemma iteration_success c item st w url baseName w1 t1 buf w2 t2 w3 :
  when_truthy (get item "imageUrl") = Some url ->
  base_name item (S (index st)) = Some baseName ->
  downloadFile url (working_file c baseName) w = (Ok tt, w1, t1) ->
  enhance c url (working_file c baseName) w1 = (Ok buf, w2, t2) ->
  fs_writeFileSync (final_file c baseName) (Bytes buf) w2 = (inr tt, w3) ->
  iteration c item st w
  = (Ok (if limit_reached (limit c) (S (processed st)) then Break else Next,
         appended st (output_record item (final_file c baseName))),
     w3,
     ConsoleLog (lit "Began working on: " ++ image_name baseName)
       :: t1 ++ t2
       ++ [WriteFile (final_file c baseName) (Bytes buf) (inr tt);
           Push (output_record item (final_file c baseName));
           ConsoleLog (lit "Completed work: " ++ image_name baseName)]).
Proof.
  intros Hurl Hbase Hd He Hw.
  destruct (base_name_inv _ _ Hbase) as [b [n [Eb [En ->]]]].
  destruct (when_truthy_some _ Hurl) as [Ht _].
  destruct (truthy_get_object _ _ Ht) as [fields ->].
  rewrite iteration_run, Eb, En, Hurl, attempt_run. cbv zeta.
  unfold working_file, final_file in *. rewrite Hd, He, Hw. reflexivity.
Qed.

Lemma well_formed_names item index :
  well_formed item = true -> exists baseName, base_name item index = Some baseName.
Proof.
  unfold well_formed, base_name, brand_of, name_of, printable, or_else.
  destruct item; try discriminate; intros H; apply andb_true_iff in H;
    destruct H as [Hb Hn];
    try (simpl; eexists; reflexivity).
  destruct (get (JObj fields) "brand") as [vb|];
    destruct (get (JObj fields) "name") as [vn|];
    repeat match goal with
           | |- context [if truthy ?v then _ else _] => destruct (truthy v)
           | H : context [if truthy ?v then _ else _] |- _ => destruct (truthy v)
           | |- context [ToString ?v] =>
               lazymatch v with
               | JStr _ => fail
               | _ => destruct (ToString v); try discriminate
               end
           end;
    simpl; eexists; reflexivity.
Qed.

End Properties.

Section Claims.
Context {R : Runtime}.

(** C2. In every pass through the loop a record is appended if and only
    if its download, its API call and the write of its final file all
    succeeded, and at most one is; in every run of the loop the records
    appended answer one to one, in order, to the image files written, and
    [outputs] and [processed] at the end are the records appended and their
    number; the manifest that [main] writes holds exactly these records. *)
Theorem manifest_holds_the_successes :
  (forall c item st w,
     let t := trace_of (iteration c item st w) in
     (pushes t <> [] <-> download_completed t /\ api_answered t /\ image_written t)
     /\ (List.length (pushes t) <= 1)%nat)
  /\ (forall c actions st w,
        let run := for_await c actions st w in
        map local_file (pushes (trace_of run))
        = map (fun p => Some (JStr p)) (written_images (trace_of run))
        /\ forall ctl st', result_of run = Ok (ctl, st') ->
             outputs st' = outputs st ++ pushes (trace_of run)
             /\ processed st' = (processed st + List.length (pushes (trace_of run)))%nat)
  /\ (forall b w,
        let t := trace_of (main b w) in
        List.length (pushes t) = List.length (written_images t)
        /\ (manifests t = []
            \/ exists path, manifests t = [(path, JSON_stringify_indent2 (JArr (pushes t)))])).
Proof.
  split; [|split].
  - intros c item st w. cbv zeta. split; [split|].
    + intros Hp. destruct (iteration_orderly c item st w) as [H1 [H2 [_ H4]]].
      apply H4 in Hp. destruct Hp as [p [bytes Hin]].
      assert (Hs : In WriteFinal (steps (trace_of (iteration c item st w))))
        by (eapply steps_in; [exact Hin | reflexivity]).
      split; [|split].
      * apply (H1 _ Hs). simpl. lia.
      * apply (H2 _ Hs). simpl. lia.
      * exists p, bytes. exact Hin.
    + intros [_ [_ Hw]]. apply (iteration_orderly c item st w). exact Hw.
    + destruct (iteration c item st w) as [[r w'] t] eqn:E.
      apply iteration_pass in E. apply (pass_pushes_le E).
  - intros c actions st w. cbv zeta.
    destruct (for_await c actions st w) as [[r w'] t] eqn:E.
    unfold result_of, trace_of. simpl. split.
    + apply (loop_pushes_written _ _ _ _ E).
    + intros ctl st' ->. apply (loop_state _ _ _ _ E).
  - intros b w. apply main_manifest.
Qed.

(** C3, as amended. A record appended for an item is the item with
    [localUpdatedFile] set to the path of the final image: the field is
    added last when the item has none and replaces the old value when it
    has one, every other field and the order of the keys are kept.  A run
    of [main] whose set-up and loop end without an uncaught error passes
    the list of the records appended, empty or not, as one JSON array to
    one write of [data.json] in the final directory, and to no other; when
    that write succeeds the file holds the list and [main] returns, and
    when it fails [main] throws the error of the write and no manifest has
    been written. *)
Theorem output_record_keeps_other_fields :
  (forall c item st w record,
     In record (pushes (trace_of (iteration c item st w))) ->
     exists baseName,
       base_name item (S (index st)) = Some baseName
       /\ record = output_record item (final_file c baseName)
       /\ field record (lit "localUpdatedFile") = Some (JStr (final_file c baseName))
       /\ (forall k, k <> lit "localUpdatedFile" -> field record k = field item k)
       /\ (keys record = keys item \/ keys record = keys item ++ [lit "localUpdatedFile"]))
  /\ (forall b w p w1 t1 r w2 t2,
        prepare b w = (Ok p, w1, t1) ->
        for_await (fst p) (snd p) start w1 = (Ok r, w2, t2) ->
        let path := data_json_path (finalDir (fst p)) in
        let json := JSON_stringify_indent2 (JArr (outputs (snd r))) in
        outputs (snd r) = pushes (trace_of (main b w))
        /\ manifests (trace_of (main b w)) = [(path, json)]
        /\ (forall w3,
              fs_writeFileSync path (Text json) w2 = (inr tt, w3) ->
              result_of (main b w) = Ok tt
              /\ In (WriteFile path (Text json) (inr tt)) (trace_of (main b w)))
        /\ (forall e w3,
              fs_writeFileSync path (Text json) w2 = (inl e, w3) ->
              result_of (main b w) = Throw e
              /\ forall path' json',
                   ~ In (WriteFile path' (Text json') (inr tt)) (trace_of (main b w)))).
Proof.
  split.
  - intros c item st w record Hin.
    destruct (iteration c item st w) as [[r w'] t] eqn:E.
    unfold trace_of in Hin. simpl in Hin.
    apply iteration_pass in E.
    inversion E; subst;
      repeat match goal with H : pushes _ = _ |- _ => rewrite H in Hin end;
      try contradiction; try (simpl in Hin; contradiction).
    destruct Hin as [<-|[]].
    match goal with H : when_truthy _ = Some _ |- _ =>
      apply when_truthy_some in H; destruct H as [Ht _] end.
    destruct (truthy_get_object _ _ Ht) as [fields ->].
    exists baseName. repeat split; try assumption.
    + apply local_file_output.
    + intros k Hk. unfold output_record, field. simpl.
      apply assoc_set_other. exact Hk.
    + unfold output_record, keys. simpl.
      destruct (in_dec (list_eq_dec N.eq_dec) (lit "localUpdatedFile") (map fst fields))
        as [Hin|Hout].
      * left. apply keys_set_present. exact Hin.
      * right. apply keys_set_absent. exact Hout.
  - intros b w p w1 t1 r w2 t2 Hp Hl. rewrite main_run, Hp, Hl. cbv zeta.
    destruct (prepare_trace_facts _ _ Hp) as [P1 [_ M1]].
    destruct r as [ctl st'].
    destruct (loop_pushes_written _ _ _ _ Hl) as [_ M2].
    destruct (loop_state _ _ _ _ Hl) as [Ho _]. simpl in Ho.
    assert (Hnone : forall t path' json',
              manifests t = [] -> ~ In (WriteFile path' (Text json') (inr tt)) t).
    { intros t path' json' Hm Hin. apply manifests_in in Hin. rewrite Hm in Hin. exact Hin. }
    destruct (fs_writeFileSync _ _ w2) as [[e|[]] w3]; unfold trace_of, result_of; simpl;
      rewrite !pushes_app, !manifests_app, P1, M1, M2; simpl;
      rewrite ?app_nil_r; (split; [exact Ho|]); (split; [reflexivity|]); split.
    + intros w4 H. discriminate H.
    + intros e' w4 H. inversion H; subst. split; [reflexivity|].
      intros path' json' Hin. apply in_app_or in Hin. destruct Hin as [Hin|Hin];
        [exact (Hnone _ _ _ M1 Hin)|].
      apply in_app_or in Hin. destruct Hin as [Hin|[Hin|[]]];
        [exact (Hnone _ _ _ M2 Hin) | discriminate Hin].
    + intros w4 _. split; [reflexivity|].
      apply in_or_app. right. apply in_or_app. right. left. reflexivity.
    + intros e' w4 H. discriminate H.
Qed.

(** C6. In a run of [main] a download starts only after the input file has
    been read; in every pass through the loop the stages leave their events
    in the order download, API call, decoding, write of the final file,
    append; a stage from the API call on runs only after the download has
    streamed to its end, a stage from the decoding on only after the API has
    answered, and a record is appended only after its final file has been
    written. *)
Theorem stages_run_in_order :
  (forall b w before e after,
     trace_of (main b w) = before ++ e :: after -> step_of e = Some Download ->
     exists path content, In (ReadTextFile path (inr content)) before)
  /\ (forall c item st w,
        let t := trace_of (iteration c item st w) in
        StronglySorted in_order (steps t)
        /\ (forall s, In s (steps t) -> (rank CallApi <= rank s)%nat -> download_completed t)
        /\ (forall s, In s (steps t) -> (rank Decode <= rank s)%nat -> api_answered t)
        /\ (In Append (steps t) -> image_written t)).
Proof.
  split; [apply main_reads_first|].
  intros c item st w. cbv zeta. split; [apply (iteration_staged c item st w)|].
  destruct (iteration_orderly c item st w) as [H1 [H2 [H3 _]]].
  split; [|split]; assumption.
Qed.

(** C5, as amended. With [--limit N], [N >= 1], at most [N] records are
    appended, the loop leaves by [break] exactly when the [N]-th record has
    been appended, and whatever the generator would have yielded after that
    is never run; without [--limit] the loop never leaves by [break], and a
    loop that ends without an uncaught error has run its body for every
    record and started the download of every record that has an image URL.
    [main] takes the limit from the argument that follows [--limit]. *)
Theorem limit_caps_the_batch :
  (forall c N actions w,
     (1 <= N)%nat -> limit c = Some (Finite (inject_Z (Z.of_nat N))) ->
     let run := for_await c actions start w in
     (List.length (pushes (trace_of run)) <= N)%nat
     /\ (forall ctl st', result_of run = Ok (ctl, st') ->
           List.length (outputs st') = processed st'
           /\ (ctl = Break <-> List.length (outputs st') = N))
     /\ (forall st', result_of run = Ok (Break, st') ->
           forall later, for_await c (actions ++ later) start w = run))
  /\ (forall c actions st w,
        limit c = None ->
        let run := for_await c actions st w in
        forall ctl st', result_of run = Ok (ctl, st') ->
          ctl = Next
          /\ index st' = (index st + List.length (yielded actions))%nat
          /\ attempts (trace_of run) = due c (index st) actions)
  /\ (forall b w p w1 t1, prepare b w = (Ok p, w1, t1) -> limit (fst p) = cli_limit)
  /\ (limit_argument process_argv = None -> cli_limit = None)
  /\ (forall arg, limit_argument process_argv = Some (Some arg) ->
        cli_limit = Some (Number_of_string arg)).
Proof.
  split; [|split; [|split; [|split]]].
  - intros c N actions w HN Hl. cbv zeta.
    pose proof (integer_limit_stops c HN Hl) as Hstop.
    destruct (for_await c actions start w) as [[r w'] t] eqn:E.
    unfold result_of, trace_of. simpl.
    assert (Hlt : (processed start < N)%nat) by (simpl; lia).
    destruct (loop_limit _ _ _ Hstop Hlt E) as [Hb Hc]. simpl in Hb.
    split; [exact Hb | split].
    + intros ctl st' ->.
      destruct (loop_state _ _ _ _ E) as [Ho Hp]. simpl in Ho, Hp.
      rewrite Ho. split; [symmetry; exact Hp|].
      rewrite <- Hp. apply (Hc _ _ eq_refl).
    + intros st' -> later. rewrite for_await_app, E. reflexivity.
  - intros c actions st w Hl. cbv zeta.
    destruct (for_await c actions st w) as [[r w'] t] eqn:E.
    unfold result_of, trace_of. simpl. intros ctl st' ->.
    assert (Hn : never_stops c) by (apply empty_limit_never_stops; left; exact Hl).
    pose proof (@loop_never_breaks R c actions st w ctl st' w' t Hn E) as ->.
    destruct (loop_attempts_all _ _ _ _ E) as [Ha Hi].
    split; [reflexivity | split; assumption].
  - intros b w p w1 t1 Hp. apply (prepare_limit _ _ Hp).
  - unfold cli_limit. intros ->. reflexivity.
  - unfold cli_limit. intros arg ->. reflexivity.
Qed.

(** C10, as amended. A pass that logs a failure leaves [processed] and
    [outputs] as they were and goes on to the next record; with
    [--limit N], [N >= 1], a loop that ends without an uncaught error has
    either left by [break] with [processed = N], or has used up its input
    with [processed < N] after trying every record that was due; a limit of
    [0] or [NaN] runs the loop as no limit does, and [--limit] with nothing
    after it gives [NaN]. *)
Theorem limit_counts_successes :
  (forall c item st w ctl st' w' t,
     iteration c item st w = (Ok (ctl, st'), w', t) -> failures_logged t <> [] ->
     ctl = Next /\ processed st' = processed st /\ outputs st' = outputs st)
  /\ (forall c N actions w ctl st' w' t,
        (1 <= N)%nat -> limit c = Some (Finite (inject_Z (Z.of_nat N))) ->
        for_await c actions start w = (Ok (ctl, st'), w', t) ->
        (ctl = Break /\ processed st' = N)
        \/ (ctl = Next /\ (processed st' < N)%nat /\ attempts t = due c 0 actions))
  /\ (forall c l actions st w,
        l = Some NaN \/ (exists q, l = Some (Finite q) /\ Qeq q 0) ->
        for_await (with_limit l c) actions st w
        = for_await (with_limit None c) actions st w)
  /\ Number_of None = NaN.
Proof.
  split; [|split; [|split]].
  - intros c item st w ctl st' w' t E Hf. apply iteration_pass in E.
    inversion E; subst; simpl in Hf;
      repeat match goal with H : failures_logged _ = _ |- _ => rewrite H in Hf end;
      try (exfalso; apply Hf; reflexivity).
    repeat split.
  - intros c N actions w ctl st' w' t HN Hl E.
    pose proof (integer_limit_stops c HN Hl) as Hstop.
    assert (Hlt : (processed start < N)%nat) by (simpl; lia).
    destruct (loop_limit _ _ _ Hstop Hlt E) as [Hb Hc].
    destruct (loop_state _ _ _ _ E) as [_ Hp]. simpl in Hb, Hp.
    specialize (Hc _ _ eq_refl). destruct ctl.
    + right. split; [reflexivity|]. split.
      * destruct (Nat.eq_dec (processed st') N) as [Heq|Hne]; [|lia].
        apply Hc in Heq. discriminate.
      * apply (loop_attempts_all _ _ _ _ E).
    + left. split; [reflexivity|]. apply Hc. reflexivity.
  - intros c l actions st w Hl. apply for_await_limit. intros p.
    assert (H1 : never_stops (with_limit l c)).
    { apply empty_limit_never_stops. right. exact Hl. }
    exact (H1 p).
  - reflexivity.
Qed.

(** C7, as amended. When the loop reaches a record that has an image URL
    and printable names, its download succeeds, the enhancement returns
    image bytes and the write of the final file succeeds, then the run
    writes those bytes to the final file named from the sanitised brand and
    name and appends the record with that path; the record is in [outputs]
    when the loop ends. *)
Theorem record_is_produced c pre item post st0 w0 st w t0 url baseName w1 t1 buf w2 t2 w3 :
  for_await c pre st0 w0 = (Ok (Next, st), w, t0) ->
  when_truthy (get item "imageUrl") = Some url ->
  base_name item (S (index st)) = Some baseName ->
  downloadFile url (working_file c baseName) w = (Ok tt, w1, t1) ->
  enhance c url (working_file c baseName) w1 = (Ok buf, w2, t2) ->
  fs_writeFileSync (final_file c baseName) (Bytes buf) w2 = (inr tt, w3) ->
  let run := for_await c (pre ++ Yield item :: post) st0 w0 in
  In (WriteFile (final_file c baseName) (Bytes buf) (inr tt)) (trace_of run)
  /\ In (output_record item (final_file c baseName)) (pushes (trace_of run))
  /\ (forall ctl st', result_of run = Ok (ctl, st') ->
        In (output_record item (final_file c baseName)) (outputs st')).
Proof.
  intros Hpre Hurl Hbase Hd He Hw. cbv zeta.
  pose proof (@iteration_success R c item st w url baseName w1 t1 buf w2 t2 w3
                Hurl Hbase Hd He Hw) as Hi.
  set (record := output_record item (final_file c baseName)) in *.
  set (ti := ConsoleLog _ :: _) in Hi.
  assert (Hin : In (WriteFile (final_file c baseName) (Bytes buf) (inr tt)) ti).
  { unfold ti. right. apply in_or_app. right. apply in_or_app. right. left. reflexivity. }
  assert (Hpush : In record (pushes ti)).
  { unfold pushes. apply in_flat_map. exists (Push record). split; [|left; reflexivity].
    unfold ti. right. apply in_or_app. right. apply in_or_app. right.
    right. left. reflexivity. }
  clearbody ti.
  rewrite for_await_app, Hpre, for_await_cons_yield, Hi.
  destruct (limit_reached (limit c) (S (processed st))).
  - unfold trace_of, result_of. simpl. split; [|split].
    + apply in_or_app. right. exact Hin.
    + rewrite pushes_app. apply in_or_app. right. exact Hpush.
    + intros ctl st' H. inversion H; subst. simpl.
      apply in_or_app. right. left. reflexivity.
  - destruct (for_await c post (appended st record) w3) as [[r3 w4] t3] eqn:E3.
    unfold trace_of, result_of. simpl. split; [|split].
    + apply in_or_app. right. apply in_or_app. left. exact Hin.
    + rewrite !pushes_app. apply in_or_app. right. apply in_or_app. left. exact Hpush.
    + intros ctl st' ->.
      destruct (loop_state _ _ _ _ E3) as [Ho _]. rewrite Ho. simpl.
      apply in_or_app. left. apply in_or_app. right. left. reflexivity.
Qed.

(** C8, as amended. The lines of the file are the pieces between line
    ends, the empty ones left out; [readJsonl] yields, in the order of the
    file, the parsed value of each line that parses and reports each line
    that does not; a line that does not parse costs a warning and the loop
    goes on with the same locals; a record without image URL that is not
    [null], and whose brand and name can be put in a string where they are
    set, is skipped with one warning and no other event. *)
Theorem readJsonl_skips_bad_lines :
  (forall content,
     join_lines (split_newlines [] content) = without_cr content
     /\ Forall (fun l => ~ In 10 l) (split_newlines [] content)
     /\ Forall (fun l => l <> []) (jsonl_lines content)
     /\ yielded (readJsonl_lines (jsonl_lines content))
        = choose JSON_parse (filter nonempty (split_newlines [] content))
     /\ rejected (readJsonl_lines (jsonl_lines content))
        = filter (fun line => match JSON_parse line with Some _ => false | None => true end)
            (filter nonempty (split_newlines [] content)))
  /\ (forall path w content w1,
        fs_readFileSync_utf8 path w = (inr content, w1) ->
        readJsonl path w
        = (Ok (readJsonl_lines (jsonl_lines content)), w1, [ReadTextFile path (inr content)]))
  /\ (forall c line rest st w,
        for_await c (InvalidLine line :: rest) st w
        = match for_await c rest st w with
          | (r, w', t) => (r, w', ConsoleWarn [lit "Skipping invalid JSONL line:"; line] :: t)
          end)
  /\ (forall c item st w,
        well_formed item = true -> truthy (get item "imageUrl") = false ->
        exists message,
          iteration c item st w = (Ok (Next, counted st), w, [ConsoleWarn [message]])).
Proof.
  split; [|split; [|split]].
  - intros content. split; [|split; [|split; [|split]]].
    + rewrite (split_newlines_join (n := List.length content)) by lia. reflexivity.
    + apply split_newlines_no_lf. intros [].
    + unfold jsonl_lines. apply Forall_forall. intros l Hl.
      apply filter_In in Hl. destruct Hl as [_ Hl]. destruct l; [discriminate Hl | discriminate].
    + apply readJsonl_lines_yielded.
    + apply readJsonl_lines_rejected.
  - intros path w content w1 E. unfold readJsonl.
    rewrite bind_call_or_throw_run, E. reflexivity.
  - intros. apply for_await_cons_invalid.
  - intros c item st w Hwf Hno.
    destruct (well_formed_names item (S (index st)) Hwf) as [baseName Hb].
    destruct (base_name_inv _ _ Hb) as [b [n [Eb [En _]]]].
    assert (Hw : when_truthy (get item "imageUrl") = None)
      by (unfold when_truthy; rewrite Hno; reflexivity).
    eexists. rewrite iteration_run, Eb, En, Hw.
    destruct item; try discriminate Hwf; reflexivity.
Qed.

(** C9. [toSafeFilename] keeps the length of its input, keeps every
    character of [[A-Za-z0-9._-]] and puts an underscore for every other
    one, so its result holds characters of that set only; the working file
    and the final file of every record are named by such a result followed
    by [.jpg]. *)
Theorem toSafeFilename_spec :
  (forall base,
     List.length (toSafeFilename base) = List.length base
     /\ (forall i, nth_error (toSafeFilename base) i
                   = option_map (fun c => if safe_char c then c else 95) (nth_error base i))
     /\ Forall (fun c => safe_char c = true) (toSafeFilename base))
  /\ (forall c item st w path,
        let t := trace_of (iteration c item st w) in
        In path (attempts t) \/ In path (written_images t) ->
        exists stem,
          Forall (fun ch => safe_char ch = true) stem
          /\ (path = path_join (workingDir c) (stem ++ lit ".jpg")
              \/ path = path_join (finalDir c) (stem ++ lit ".jpg"))).
Proof.
  assert (Hsafe : forall base, Forall (fun c => safe_char c = true) (toSafeFilename base)).
  { intros base. rewrite replace_unsafe_map. apply Forall_forall. intros ch Hin.
    apply in_map_iff in Hin. destruct Hin as [x [<- _]].
    destruct (safe_char x) eqn:E; [exact E | reflexivity]. }
  split.
  - intros base. split; [|split].
    + rewrite replace_unsafe_map. apply length_map.
    + intros i. rewrite replace_unsafe_map. apply nth_error_map.
    + apply Hsafe.
  - intros c item st w path. cbv zeta.
    destruct (iteration c item st w) as [[r w'] t] eqn:E.
    unfold trace_of. simpl. apply iteration_pass in E.
    inversion E; subst;
      repeat match goal with
             | H : attempts _ = _ |- _ => rewrite H
             | H : written_images _ = _ |- _ => rewrite H
             end; simpl; intros Hin;
      try (destruct Hin as [[]|[]]; fail);
      match goal with H : base_name _ _ = Some _ |- _ =>
        destruct (base_name_inv _ _ H) as [b [n [_ [_ ->]]]] end;
      eexists; (split; [apply Hsafe|]);
      destruct Hin as [[<-|[]]|Hin]; try (left; reflexivity);
      try (destruct Hin as [<-|[]]; right; reflexivity); try contradiction.
Qed.

End Claims.

(* ================================================================= *)
(** ** The properties on the sample runs *)

(** C1. A download that is redirected to a relative URL is a failure that
    no [catch] sees: the nested [https.get] throws inside the response
    callback, the run ends there, nothing is logged for the record and the
    next record is never tried. *)
Theorem relative_redirect_ends_the_batch :
  let run := @for_await redirecting (sample_config Gemini None)
               [Yield item_a; Yield item_b] start tt in
  result_of run = Fatal TypeError
  /\ failures_logged (trace_of run) = []
  /\ attempts (trace_of run) = [lit "/app/working/Afnan_9am.jpg"].
Proof. vm_compute. repeat split. Qed.

(** C3, as stated, fails on a record that already has the field: its
    value is replaced, and no field is added.  And it fails on a run that
    cannot write into the final directory: the set-up and the loop end as
    they should, the write of [data.json] throws, no manifest is written. *)
Lemma existing_field_is_replaced :
  (let t := trace_of (@iteration fair (sample_config Gemini None) item_old start tt) in
   exists record,
     pushes t = [record]
     /\ field item_old (lit "localUpdatedFile") = Some (text "old.jpg")
     /\ field record (lit "localUpdatedFile") <> Some (text "old.jpg")
     /\ keys record = keys item_old)
  /\ (let run := @main read_only Gemini tt in
      result_of run = Throw (Error (lit "EROFS: read-only file system"))
      /\ forall path json, ~ In (WriteFile path (Text json) (inr tt)) (trace_of run)).
Proof.
  split.
  - vm_compute. eexists. split; [reflexivity|]. split; [reflexivity|].
    split; [discriminate | reflexivity].
  - vm_compute. split; [reflexivity|].
    intros path json H. repeat destruct H as [H|H]; try discriminate H. exact H.
Qed.

(** C5, as stated, fails on a run that an uncaught error ends: without
    [--limit], after a redirect to a relative URL, and after a line that
    holds [null], the record that follows is due and is never tried. *)
Lemma uncaught_error_leaves_records_untried :
  let c := sample_config Gemini None in
  let first := lit "/app/working/Afnan_9am.jpg" in
  (let actions := [Yield item_a; Yield item_b] in
   let run := @for_await redirecting c actions start tt in
   result_of run = Fatal TypeError
   /\ attempts (trace_of run) = [first]
   /\ @due redirecting c 0 actions = [first; lit "/app/working/brand_item_2.jpg"])
  /\ (let actions := [Yield item_a; Yield JNull; Yield item_b] in
      let run := @for_await fair c actions start tt in
      result_of run = Throw TypeError
      /\ attempts (trace_of run) = [first]
      /\ @due fair c 0 actions = [first; lit "/app/working/brand_item_3.jpg"]).
Proof. vm_compute. repeat split. Qed.

(** C8, as stated, fails on a record without image URL whose brand cannot
    be put in a string, and on a line that holds [null]: the pass throws a
    [TypeError] and warns of nothing, and the loop ends there. *)
Lemma unusable_record_is_not_skipped :
  let c := sample_config Gemini None in
  truthy (get item_unprintable "imageUrl") = false
  /\ @iteration fair c item_unprintable start tt = (Throw TypeError, tt, [])
  /\ @iteration fair c JNull start tt = (Throw TypeError, tt, [])
  /\ @for_await fair c [Yield item_unprintable; Yield item_a] start tt
     = (Throw TypeError, tt, []).
Proof. vm_compute. repeat split. Qed.

(** C10, as stated, fails on a run that an uncaught error ends: with
    [--limit 2], after a redirect to a relative URL, and after a line that
    holds [null], no record has succeeded and a record that is due has not
    been tried. *)
Lemma uncaught_error_ends_a_limited_run :
  let c := sample_config Gemini (Some (Finite (inject_Z (Z.of_nat 2)))) in
  let first := lit "/app/working/Afnan_9am.jpg" in
  (let actions := [Yield item_a; Yield item_b] in
   let run := @for_await redirecting c actions start tt in
   result_of run = Fatal TypeError
   /\ pushes (trace_of run) = []
   /\ attempts (trace_of run) = [first]
   /\ @due redirecting c 0 actions = [first; lit "/app/working/brand_item_2.jpg"])
  /\ (let actions := [Yield JNull; Yield item_b] in
      let run := @for_await fair c actions start tt in
      result_of run = Throw TypeError
      /\ pushes (trace_of run) = []
      /\ attempts (trace_of run) = []
      /\ @due fair c 0 actions = [lit "/app/working/brand_item_2.jpg"]).
Proof. vm_compute. repeat split. Qed.

(** C4, as stated, fails when the first shape that matches is a URL that
    cannot be fetched: the decoder throws although a later shape, the
    string content, holds image bytes. *)
Lemma failed_fetch_stops_the_decoder :
  let run := @extractImageBufferFromOpenRouterResponse offline mixed_answer tt in
  result_of run = Throw (Error (lit "fetch failed"))
  /\ exists later bytes,
       In later (candidates mixed_answer)
       /\ result_of (@use_candidate offline later tt) = Ok bytes.
Proof.
  split; [vm_compute; reflexivity|].
  exists (Payload (Some (text "QUJD"))). eexists.
  split; [vm_compute; right; left; reflexivity | vm_compute; reflexivity].
Qed.

(** C7, as stated, fails when the final file cannot be written: the
    download succeeds and the API returns an image, yet no file and no
    record are produced. *)
Lemma write_failure_leaves_no_record :
  let c := sample_config Gemini None in
  let workingFile := lit "/app/working/Afnan_9am.jpg" in
  let url := text "https://example.com/afnan-9am.jpg" in
  let t := trace_of (@iteration full_disk c item_a start tt) in
  @well_formed full_disk item_a = true
  /\ when_truthy (get item_a "imageUrl") = Some url
  /\ result_of (@downloadFile full_disk url workingFile tt) = Ok tt
  /\ (exists bytes, result_of (@enhance full_disk c url workingFile tt) = Ok bytes)
  /\ pushes t = [] /\ written_images t = [].
Proof.
  vm_compute. repeat split. eexists. reflexivity.
Qed.

(** C2 on a run of three records, one of them without image URL. *)
Lemma manifest_holds_the_successes_witness :
  let c := sample_config Gemini None in
  let t := trace_of (@iteration fair c item_a start tt) in
  let run := @for_await fair c [Yield item_a; Yield item_without_url; Yield item_b] start tt in
  (download_completed t /\ api_answered t /\ image_written t)
  /\ (exists ctl st', result_of run = Ok (ctl, st')
                      /\ outputs st' = outputs start ++ pushes (trace_of run)).
Proof.
  cbv zeta. split.
  - apply (proj1 (proj1 (@manifest_holds_the_successes fair) _ item_a start tt)).
    vm_compute. discriminate.
  - eexists. eexists. split; [vm_compute; reflexivity|].
    refine (proj1 (proj2 (proj1 (proj2 (@manifest_holds_the_successes fair))
                            _ _ start tt) _ _ _)).
    vm_compute. reflexivity.
Defined.

(** C3 on the record that already has the field, and on a whole run. *)
Lemma output_record_keeps_other_fields_witness :
  let c := sample_config Gemini None in
  let record := output_record item_old (lit "/app/final/brand_item_1.jpg") in
  (field record (lit "localUpdatedFile") = Some (text "/app/final/brand_item_1.jpg")
   /\ field record (lit "imageUrl") = field item_old (lit "imageUrl"))
  /\ exists path json,
       In (WriteFile path (Text json) (inr tt)) (trace_of (@main fair Gemini tt)).
Proof.
  cbv zeta. split.
  - destruct (proj1 (@output_record_keeps_other_fields fair)
                (sample_config Gemini None) item_old start tt
                (output_record item_old (lit "/app/final/brand_item_1.jpg")))
      as [baseName [_ [_ [Hset [Hkeep _]]]]].
    + vm_compute. left. reflexivity.
    + split; [vm_compute; reflexivity|]. apply Hkeep. vm_compute. discriminate.
  - edestruct (proj2 (@output_record_keeps_other_fields fair) Gemini tt) as [_ [_ [Hok _]]].
    + vm_compute. reflexivity.
    + vm_compute. reflexivity.
    + destruct (Hok tt) as [_ Hin]; [vm_compute; reflexivity|].
      eexists. eexists. exact Hin.
Defined.

(** C6 on one record of the OpenRouter backend. *)
Lemma stages_run_in_order_witness :
  let t := trace_of (@iteration fair (sample_config OpenRouter None) item_a start tt) in
  download_completed t /\ api_answered t /\ image_written t.
Proof.
  cbv zeta.
  destruct (proj2 (@stages_run_in_order fair) (sample_config OpenRouter None)
              item_a start tt) as [_ [H1 [H2 H3]]].
  split; [|split].
  - apply (H1 WriteFinal); [vm_compute; auto 10 | simpl; lia].
  - apply (H2 WriteFinal); [vm_compute; auto 10 | simpl; lia].
  - apply H3. vm_compute. auto 10.
Defined.

(** C5 on three records, with [--limit 2] and without a limit. *)
Lemma limit_caps_the_batch_witness :
  let two := Some (Finite (inject_Z (Z.of_nat 2))) in
  let actions := [Yield item_a; Yield item_b; Yield item_a] in
  (List.length (pushes (trace_of (@for_await fair (sample_config Gemini two)
                                    actions start tt))) <= 2)%nat
  /\ attempts (trace_of (@for_await fair (sample_config Gemini None) actions start tt))
     = @due fair (sample_config Gemini None) 0 actions
  /\ @cli_limit fair = Some (Finite (inject_Z 2)).
Proof.
  cbv zeta. split; [|split].
  - apply (proj1 (@limit_caps_the_batch fair) (sample_config Gemini _) 2%nat);
      [lia | reflexivity].
  - refine (proj2 (proj2 (proj1 (proj2 (@limit_caps_the_batch fair))
                            (sample_config Gemini None) _ start tt _ Next _ _)));
      [reflexivity | vm_compute; reflexivity].
  - rewrite (proj2 (proj2 (proj2 (proj2 (@limit_caps_the_batch fair)))) (lit "2"));
      [reflexivity | vm_compute; reflexivity].
Defined.

(** C10 on a failed write, on [--limit 2] and on a limit of zero. *)
Lemma limit_counts_successes_witness :
  let two := Some (Finite (inject_Z (Z.of_nat 2))) in
  let c := sample_config Gemini two in
  (exists st', result_of (@iteration full_disk c item_a start tt) = Ok (Next, st')
               /\ processed st' = 0%nat)
  /\ (exists st', result_of (@for_await fair c [Yield item_a; Yield item_b; Yield item_a]
                               start tt) = Ok (Break, st')
                  /\ processed st' = 2%nat)
  /\ @for_await fair (with_limit (Some (Finite 0)) c) [Yield item_a] start tt
     = @for_await fair (with_limit None c) [Yield item_a] start tt.
Proof.
  cbv zeta. split; [|split].
  - edestruct (proj1 (@limit_counts_successes full_disk)
                 (sample_config Gemini (Some (Finite (inject_Z (Z.of_nat 2)))))
                 item_a start tt) as [Hc [Hp _]].
    + vm_compute. reflexivity.
    + vm_compute. discriminate.
    + eexists. split; [vm_compute; reflexivity | exact Hp].
  - edestruct (proj1 (proj2 (@limit_counts_successes fair))
                 (sample_config Gemini (Some (Finite (inject_Z (Z.of_nat 2))))) 2%nat
                 [Yield item_a; Yield item_b; Yield item_a] tt) as [[Hc Hp]|[Hc _]].
    + lia.
    + reflexivity.
    + vm_compute. reflexivity.
    + eexists. split; [vm_compute; reflexivity | exact Hp].
    + discriminate Hc.
  - apply (proj1 (proj2 (proj2 (@limit_counts_successes fair)))).
    right. exists 0%Q. split; reflexivity.
Defined.

(** C7 on the second of three records. *)
Lemma record_is_produced_witness :
  let c := sample_config OpenRouter None in
  let run := @for_await fair c ([Yield item_without_url] ++ Yield item_a :: [Yield item_b])
               start tt in
  In (output_record item_a (@final_file fair c (lit "Afnan_9am"))) (pushes (trace_of run)).
Proof.
  cbv zeta.
  refine (proj1 (proj2 (@record_is_produced fair (sample_config OpenRouter None)
                          [Yield item_without_url] item_a [Yield item_b] start tt
                          (counted start) tt _
                          (text "https://example.com/afnan-9am.jpg") (lit "Afnan_9am")
                          tt _ _ tt _ tt _ _ _ _ _ _))).
  - vm_compute. reflexivity.
  - vm_compute. reflexivity.
  - vm_compute. reflexivity.
  - vm_compute. reflexivity.
  - vm_compute. reflexivity.
  - vm_compute. reflexivity.
Defined.

(** C8 on a file with an empty line and a line that does not parse. *)
Lemma readJsonl_skips_bad_lines_witness :
  result_of (@readJsonl fair (lit "/app/fragrances_with_images_fast.jsonl") tt)
  = Ok [Yield (JObj []); InvalidLine (lit "oops"); Yield (JObj [])]
  /\ exists message,
       @iteration fair (sample_config Gemini None) item_without_url start tt
       = (Ok (Next, counted start), tt, [ConsoleWarn [message]]).
Proof.
  split.
  - rewrite (proj1 (proj2 (@readJsonl_skips_bad_lines fair)) _ tt sample_content tt);
      [vm_compute; reflexivity | reflexivity].
  - apply (proj2 (proj2 (proj2 (@readJsonl_skips_bad_lines fair)))).
    + vm_compute. reflexivity.
    + vm_compute. reflexivity.
Defined.

(** C9 on the working file of a record. *)
Lemma toSafeFilename_spec_witness :
  exists stem,
    Forall (fun ch => safe_char ch = true) stem
    /\ (lit "/app/working/Afnan_9am.jpg" = lit "/app/working" ++ lit "/" ++ stem ++ lit ".jpg"
        \/ lit "/app/working/Afnan_9am.jpg" = lit "/app/final" ++ lit "/" ++ stem ++ lit ".jpg").
Proof.
  apply (proj2 (@toSafeFilename_spec fair) (sample_config Gemini None) item_a start tt).
  left. vm_compute. left. reflexivity.
Defined.

(* ================================================================= *)
(** ** Data URLs *)

Lemma strip_prefix_ci_spec pattern s rest :
  strip_prefix_ci pattern s = Some rest
  <-> exists head, s = head ++ rest /\ same_letters head pattern.
Proof.
  unfold same_letters. revert s. induction pattern as [|p pattern IH]; intros s; simpl.
  - split.
    + intros H. inversion H. exists []. split; reflexivity.
    + intros [head [-> H]]. destruct head; [reflexivity | discriminate H].
  - destruct s as [|c s'].
    + split; [discriminate|]. intros [head [H1 H2]].
      destruct head; [discriminate H2 | discriminate H1].
    + destruct (canonicalize p =? canonicalize c) eqn:E.
      * apply N.eqb_eq in E. rewrite IH. split.
        -- intros [head [-> H]]. exists (c :: head). split; [reflexivity|].
           simpl. rewrite H, E. reflexivity.
        -- intros [head [H1 H2]]. destruct head as [|d head]; [discriminate H2|].
           simpl in H1, H2. injection H1 as -> ->. injection H2 as _ H2.
           exists head. split; [reflexivity | exact H2].
      * apply N.eqb_neq in E. split; [discriminate|].
        intros [head [H1 H2]]. destruct head as [|d head]; [discriminate H2|].
        simpl in H1, H2. injection H1 as -> ->. injection H2 as H2 _.
        exfalso. apply E. symmetry. exact H2.
Qed.

Lemma skip_class_run (class : code_unit -> bool) run rest :
  forallb class run = true ->
  match rest with c :: _ => class c = false | [] => True end ->
  skip_class class (run ++ rest) = rest.
Proof.
  intros Hrun Hrest. induction run as [|c run IH]; simpl.
  - destruct rest as [|c rest]; [reflexivity|]. simpl. rewrite Hrest. reflexivity.
  - simpl in Hrun. apply andb_true_iff in Hrun. destruct Hrun as [Hc Hrun].
    rewrite Hc. apply IH. exact Hrun.
Qed.

Lemma skip_class_split (class : code_unit -> bool) s :
  exists run,
    s = run ++ skip_class class s /\ forallb class run = true.
Proof.
  induction s as [|c s [run [E H]]]; simpl.
  - exists []. split; reflexivity.
  - destruct (class c) eqn:Ec.
    + exists (c :: run). simpl. rewrite Ec, H. split; [f_equal; exact E | reflexivity].
    + exists []. split; reflexivity.
Qed.

Lemma canonicalize_semicolon c : canonicalize c = canonicalize 59 -> c = 59.
Proof.
  change (canonicalize 59) with 59. unfold canonicalize, between.
  destruct ((97 <=? c) && (c <=? 122)) eqn:E; [|tauto].
  apply andb_true_iff in E. destruct E as [E1 E2]. apply N.leb_le in E1, E2. lia.
Qed.

Lemma base64_mark_starts sep :
  same_letters sep (lit ";base64,") ->
  match sep with c :: _ => media_type_class c = false | [] => True end.
Proof.
  unfold same_letters. destruct sep as [|c sep]; [trivial|].
  intros H. simpl in H. inversion H as [[Hc Hrest]].
  apply canonicalize_semicolon in Hc. subst c. reflexivity.
Qed.

(** X1. [extractBase64FromDataUrl] returns a payload for exactly the strings
    [data:image/<subtype>;base64,<payload>], the fixed parts in any case of
    their letters, the subtype a non-empty run of letters, digits, [+], [.]
    and [-], and the payload non-empty and free of line terminators; the
    payload is returned as it stands.  For every other value, a string or
    not, the result is [null]. *)
Theorem data_url_spec v payload :
  extractBase64FromDataUrl v = Some payload
  <-> exists head subtype sep,
        v = Some (JStr (head ++ subtype ++ sep ++ payload))
        /\ same_letters head (lit "data:image/")
        /\ subtype <> [] /\ forallb media_type_class subtype = true
        /\ same_letters sep (lit ";base64,")
        /\ payload <> [] /\ forallb dot payload = true.
Proof.
  unfold extractBase64FromDataUrl. split.
  - destruct v as [[| | |s| |]|]; try discriminate.
    destruct (strip_prefix_ci (lit "data:image/") s) as [[|c after]|] eqn:E1;
      try discriminate.
    destruct (media_type_class c) eqn:Ec; [|discriminate].
    destruct (strip_prefix_ci (lit ";base64,") (skip_class media_type_class after))
      as [p|] eqn:E2; [|discriminate].
    destruct (nonempty p && forallb dot p) eqn:E3; [|discriminate].
    intros H. inversion H; subst p. clear H.
    apply andb_true_iff in E3. destruct E3 as [Hne Hdot].
    apply strip_prefix_ci_spec in E1. destruct E1 as [head [-> Hhead]].
    apply strip_prefix_ci_spec in E2. destruct E2 as [sep [Hsep Hs]].
    destruct (skip_class_split media_type_class after) as [run [Hafter Hrun]].
    exists head, (c :: run), sep. repeat split; try assumption.
    + rewrite Hafter at 1. rewrite Hsep. reflexivity.
    + discriminate.
    + simpl. rewrite Ec, Hrun. reflexivity.
    + intros ->. discriminate Hne.
  - intros [head [subtype [sep [-> [Hhead [Hne [Hsub [Hsep [Hp Hdot]]]]]]]]].
    assert (E1 : strip_prefix_ci (lit "data:image/") (head ++ subtype ++ sep ++ payload)
                 = Some (subtype ++ sep ++ payload)).
    { apply strip_prefix_ci_spec. exists head. split; [reflexivity | exact Hhead]. }
    rewrite E1. destruct subtype as [|c run]; [contradiction|].
    simpl in Hsub. apply andb_true_iff in Hsub. destruct Hsub as [Hc Hrun].
    cbn [app]. rewrite Hc.
    rewrite (skip_class_run media_type_class run (sep ++ payload) Hrun).
    + assert (E2 : strip_prefix_ci (lit ";base64,") (sep ++ payload) = Some payload).
      { apply strip_prefix_ci_spec. exists sep. split; [reflexivity | exact Hsep]. }
      rewrite E2, Hdot. destruct payload; [contradiction | reflexivity].
    + pose proof (base64_mark_starts Hsep) as Hm.
      destruct sep as [|d sep]; [discriminate Hsep | exact Hm].
Qed.

(** X1 on a data URL with its fixed parts partly in upper case. *)
Lemma data_url_spec_witness :
  extractBase64FromDataUrl (Some (JStr (lit "DATA:Image/svg+xml;Base64,QUJD")))
  = Some (lit "QUJD").
Proof.
  apply (proj2 (data_url_spec _ _)).
  exists (lit "DATA:Image/"), (lit "svg+xml"), (lit ";Base64,").
  repeat split; try reflexivity; discriminate.
Defined.

(* ================================================================= *)
(** ** Names, the command line, the lines of a file *)

(** X2. [toSafeFilename] leaves a name as it is exactly when the name holds
    characters of [[A-Za-z0-9._-]] only, and so a second pass changes
    nothing. *)
Theorem toSafeFilename_fixes_safe_names base :
  (toSafeFilename base = base <-> Forall (fun c => safe_char c = true) base)
  /\ toSafeFilename (toSafeFilename base) = toSafeFilename base.
Proof.
  assert (Hfix : forall s, Forall (fun c => safe_char c = true) s -> toSafeFilename s = s).
  { intros s H. rewrite replace_unsafe_map.
    induction H as [|c s Hc _ IH]; simpl; [reflexivity|]. rewrite Hc, IH. reflexivity. }
  assert (Hsafe : forall s, Forall (fun c => safe_char c = true) (toSafeFilename s)).
  { intros s. rewrite replace_unsafe_map. apply Forall_forall. intros ch Hin.
    apply in_map_iff in Hin. destruct Hin as [x [<- _]].
    destruct (safe_char x) eqn:E; [exact E | reflexivity]. }
  split; [split|].
  - intros E. rewrite <- E. apply Hsafe.
  - apply Hfix.
  - apply Hfix. apply Hsafe.
Qed.

(** X2 on a name that is safe already. *)
Lemma toSafeFilename_fixes_safe_names_witness :
  toSafeFilename (lit "Afnan_9am.v2-final") = lit "Afnan_9am.v2-final".
Proof.
  apply (proj2 (proj1 (toSafeFilename_fixes_safe_names _))).
  repeat constructor.
Defined.

Lemma limit_argument_skips before rest :
  ~ In (lit "--limit") before ->
  limit_argument (before ++ rest) = limit_argument rest.
Proof.
  induction before as [|a before IH]; intros H; [reflexivity|].
  simpl. rewrite str_eqb_neq.
  - apply IH. intros Hin. apply H. right. exact Hin.
  - intros E. apply H. left. exact E.
Qed.

(** X3. Of several [--limit] on the command line the first one counts: the
    argument read is the one that follows it, or none when it stands last;
    and no limit is read exactly when [--limit] is not on the command
    line. *)
Theorem first_limit_flag_counts :
  (forall before after,
     ~ In (lit "--limit") before ->
     limit_argument (before ++ lit "--limit" :: after) = Some (hd_error after))
  /\ (forall argv, limit_argument argv = None <-> ~ In (lit "--limit") argv).
Proof.
  split.
  - intros before after H. rewrite limit_argument_skips by exact H.
    simpl. reflexivity.
  - intros argv. induction argv as [|a argv IH]; simpl.
    + split; [intros _ [] | reflexivity].
    + destruct (str_eqb a (lit "--limit")) eqn:E.
      * apply str_eqb_eq in E. split; [discriminate|].
        intros H. exfalso. apply H. left. exact E.
      * rewrite IH. split.
        -- intros H [Ha|Hin]; [|exact (H Hin)].
           subst a. rewrite str_eqb_refl in E. discriminate E.
        -- intros H Hin. apply H. right. exact Hin.
Qed.

(** X3 on a command line with [--limit] twice. *)
Lemma first_limit_flag_counts_witness :
  limit_argument ([lit "node"; lit "process_images.js"]
                    ++ lit "--limit" :: [lit "5"; lit "--limit"; lit "9"])
  = Some (Some (lit "5")).
Proof.
  apply (proj1 first_limit_flag_counts [lit "node"; lit "process_images.js"]).
  intros [H|[H|[]]]; discriminate H.
Defined.

Lemma split_newlines_line (l : jsstring) : forall (cur rest : jsstring),
  ~ In 10 l -> ~ In 13 l ->
  split_newlines cur (l ++ 10 :: rest) = (rev cur ++ l) :: split_newlines [] rest
  /\ split_newlines cur (l ++ 13 :: 10 :: rest) = (rev cur ++ l) :: split_newlines [] rest
  /\ split_newlines cur l = [rev cur ++ l].
Proof.
  induction l as [|c l IH]; intros cur rest Hlf Hcr.
  - simpl. rewrite app_nil_r. repeat split; reflexivity.
  - assert (Ec : (c =? 10) = false).
    { apply N.eqb_neq. intros E. apply Hlf. left. exact E. }
    assert (Ed : (c =? 13) = false).
    { apply N.eqb_neq. intros E. apply Hcr. left. exact E. }
    assert (Hlf' : ~ In 10 l) by (intros H; apply Hlf; right; exact H).
    assert (Hcr' : ~ In 13 l) by (intros H; apply Hcr; right; exact H).
    destruct (IH (c :: cur) rest Hlf' Hcr') as [H1 [H2 H3]].
    cbn [app split_newlines]. rewrite Ec, Ed. cbv iota.
    cbn [rev] in H1, H2, H3. rewrite <- !app_assoc in H1, H2, H3.
    repeat split; assumption.
Qed.

Lemma filter_line l (rest : list jsstring) :
  filter nonempty (l :: rest) = filter nonempty [l] ++ filter nonempty rest.
Proof. simpl. destruct (nonempty l); reflexivity. Qed.

Lemma Array_join_cons sep (l : jsstring) (rest : list jsstring) :
  rest <> [] -> Array_join sep (l :: rest) = l ++ sep ++ Array_join sep rest.
Proof. destruct rest; [contradiction | reflexivity]. Qed.

(** X4. A file written line by line, with line feeds or with carriage return
    and line feed, with a line end after the last line or with line ends
    between the lines only, reads back as its lines, in order and without
    the empty ones. *)
Theorem jsonl_round_trip lines :
  Forall (fun l => ~ In 10 l /\ ~ In 13 l) lines ->
  jsonl_lines (written_lines [10] lines) = filter nonempty lines
  /\ jsonl_lines (written_lines [13; 10] lines) = filter nonempty lines
  /\ jsonl_lines (join_lines lines) = filter nonempty lines
  /\ jsonl_lines (Array_join [13; 10] lines) = filter nonempty lines.
Proof.
  unfold jsonl_lines. intros H.
  induction H as [|l rest [Hlf Hcr] Hrest [IH1 [IH2 [IH3 IH4]]]];
    [repeat split; reflexivity|].
  destruct (@split_newlines_line l [] (written_lines [10] rest) Hlf Hcr) as [H1 _].
  destruct (@split_newlines_line l [] (written_lines [13; 10] rest) Hlf Hcr) as [_ [H2 _]].
  destruct (@split_newlines_line l [] (join_lines rest) Hlf Hcr) as [H3 [_ H4]].
  destruct (@split_newlines_line l [] (Array_join [13; 10] rest) Hlf Hcr) as [_ [H5 _]].
  simpl in H1, H2, H3, H4, H5.
  assert (Hcons : forall content tail : list jsstring,
            filter nonempty content = filter nonempty tail ->
            filter nonempty (l :: content) = filter nonempty (l :: tail)).
  { intros content tail E. simpl. destruct (nonempty l); [f_equal|]; exact E. }
  split; [|split; [|split]].
  - transitivity (filter nonempty (l :: split_newlines [] (written_lines [10] rest)));
      [exact (f_equal (filter nonempty) H1) | apply Hcons; exact IH1].
  - transitivity (filter nonempty (l :: split_newlines [] (written_lines [13; 10] rest)));
      [exact (f_equal (filter nonempty) H2) | apply Hcons; exact IH2].
  - destruct rest as [|l' rest'].
    + exact (f_equal (filter nonempty) H4).
    + transitivity (filter nonempty (l :: split_newlines [] (join_lines (l' :: rest'))));
        [exact (f_equal (filter nonempty) H3) | apply Hcons; exact IH3].
  - destruct rest as [|l' rest'].
    + exact (f_equal (filter nonempty) H4).
    + rewrite Array_join_cons by discriminate.
      transitivity (filter nonempty (l :: split_newlines [] (Array_join [13; 10] (l' :: rest'))));
        [exact (f_equal (filter nonempty) H5) | apply Hcons; exact IH4].
Qed.

(** X4 on three lines, one of them empty, joined with carriage returns
    and line feeds. *)
Lemma jsonl_round_trip_witness :
  jsonl_lines (Array_join [13; 10] [lit "{}"; []; lit "[1]"]) = [lit "{}"; lit "[1]"].
Proof.
  refine (proj2 (proj2 (proj2 (@jsonl_round_trip [lit "{}"; []; lit "[1]"] _)))).
  repeat constructor; intros H; simpl in H; repeat destruct H as [H|H]; try discriminate H;
    exact H.
Defined.

(* ================================================================= *)
(** ** Limits that are no positive integers *)

Section Limits.
Context {R : Runtime}.

(** The loop asks whether the limit is reached only after a success. *)
Lemma for_await_limit_after_success c l1 l2 actions st w :
  (forall p, limit_reached l1 (S p) = limit_reached l2 (S p)) ->
  for_await (with_limit l1 c) actions st w = for_await (with_limit l2 c) actions st w.
Proof.
  intros H. revert st w. induction actions as [|[item|line] rest IH]; intros st w.
  - reflexivity.
  - rewrite !for_await_cons_yield.
    assert (Hi : iteration (with_limit l1 c) item st w = iteration (with_limit l2 c) item st w).
    { rewrite !iteration_run.
      change (which (with_limit l1 c)) with (which c).
      change (which (with_limit l2 c)) with (which c).
      destruct item; try reflexivity;
        destruct (ToString _); try reflexivity;
        destruct (ToString _); try reflexivity;
        destruct (when_truthy _); try reflexivity;
        rewrite !attempt_run; cbv zeta;
        change (workingDir (with_limit l1 c)) with (workingDir c);
        change (workingDir (with_limit l2 c)) with (workingDir c);
        change (finalDir (with_limit l1 c)) with (finalDir c);
        change (finalDir (with_limit l2 c)) with (finalDir c);
        change (limit (with_limit l1 c)) with l1;
        change (limit (with_limit l2 c)) with l2;
        change (enhance (with_limit l1 c)) with (enhance c);
        change (enhance (with_limit l2 c)) with (enhance c);
        rewrite H; reflexivity. }
    rewrite Hi. clear Hi.
    destruct (iteration (with_limit l2 c) item st w) as [[[[[|] st1]|e|e|] w1] t1]; try reflexivity.
    rewrite IH. reflexivity.
  - rewrite !for_await_cons_invalid, IH. reflexivity.
Qed.

(** X5. A limit that is not a whole number stops the loop as the next whole
    number does, a limit below one (negative ones too, zero apart) as the
    limit one does; minus infinity stops the loop at the first success and
    plus infinity never. *)
Theorem limits_round_up c actions st w :
  (forall q N,
     (1 <= N)%nat -> ~ (q == 0)%Q -> (q <= inject_Z (Z.of_nat N))%Q ->
     (N = 1%nat \/ (inject_Z (Z.of_nat N) - 1 < q)%Q) ->
     for_await (with_limit (Some (Finite q)) c) actions st w
     = for_await (with_limit (Some (Finite (inject_Z (Z.of_nat N)))) c) actions st w)
  /\ for_await (with_limit (Some (Infinity true)) c) actions st w
     = for_await (with_limit (Some (Finite 1)) c) actions st w
  /\ for_await (with_limit (Some (Infinity false)) c) actions st w
     = for_await (with_limit None c) actions st w.
Proof.
  split; [|split].
  - intros q N HN Hq Hle Hgt. apply for_await_limit_after_success. intros p.
    unfold limit_reached. rewrite (positive_integer_truthy HN).
    assert (Ht : number_truthy (Finite q) = true).
    { unfold number_truthy. destruct (Qeq_bool q 0) eqn:E; [|reflexivity].
      apply Qeq_bool_iff in E. contradiction. }
    rewrite Ht. cbn [andb].
    destruct (counter_ge (S p) (Finite (inject_Z (Z.of_nat N)))) eqn:E.
    + apply counter_ge_integer in E. unfold counter_ge. apply Qle_bool_iff.
      eapply Qle_trans; [exact Hle|]. rewrite <- Zle_Qle. lia.
    + destruct (counter_ge (S p) (Finite q)) eqn:E'; [|reflexivity].
      exfalso. unfold counter_ge in E'. apply Qle_bool_iff in E'.
      assert (Hn : ~ (N <= S p)%nat).
      { intros Hc. apply counter_ge_integer in Hc. congruence. }
      destruct Hgt as [->|Hgt]; [lia|].
      assert (Hlt : (inject_Z (Z.of_nat N) - 1 < inject_Z (Z.of_nat (S p)))%Q)
        by (eapply Qlt_le_trans; [exact Hgt | exact E']).
      unfold Qlt, Qminus, Qplus, Qopp, inject_Z in Hlt. simpl in Hlt. lia.
  - apply for_await_limit_after_success. intros p. unfold limit_reached. simpl.
    symmetry. apply Qle_bool_iff. unfold Qle. simpl. lia.
  - apply for_await_limit_after_success. intros p. reflexivity.
Qed.

End Limits.

(** X5 on [--limit 2.5], which stops the loop at the third success, and on
    [--limit -3], which stops it at the first. *)
Lemma limits_round_up_witness :
  let c := sample_config Gemini None in
  let actions := [Yield item_a; Yield item_b; Yield item_a; Yield item_b] in
  @for_await fair (with_limit (Some (Finite (5 # 2))) c) actions start tt
  = @for_await fair (with_limit (Some (Finite (inject_Z (Z.of_nat 3)))) c) actions start tt
  /\ @for_await fair (with_limit (Some (Finite (-3 # 1))) c) actions start tt
     = @for_await fair (with_limit (Some (Finite (inject_Z (Z.of_nat 1)))) c) actions start tt.
Proof.
  cbv zeta. split.
  - apply (proj1 (@limits_round_up fair _ _ _ _)).
    + lia.
    + intros H. discriminate H.
    + unfold Qle. simpl. lia.
    + right. unfold Qlt. simpl. lia.
  - apply (proj1 (@limits_round_up fair _ _ _ _)).
    + lia.
    + intros H. discriminate H.
    + unfold Qle. simpl. lia.
    + left. reflexivity.
Defined.

(* ================================================================= *)
(** ** Records the loop cannot take, and the end of the script *)

Section Endings.
Context {R : Runtime}.

(** X6. A record the loop cannot take, [null] or one whose brand or name cannot
    be put in a string, ends the loop with a [TypeError] that no [catch] of
    the loop sees: nothing is logged for it and the records after it are
    never tried. *)
Theorem unusable_record_ends_the_loop c before item after st0 w0 st w t0 :
  for_await c before st0 w0 = (Ok (Next, st), w, t0) ->
  well_formed item = false ->
  for_await c (before ++ Yield item :: after) st0 w0 = (Throw TypeError, w, t0).
Proof.
  intros Hb H. rewrite for_await_app, Hb, for_await_cons_yield.
  assert (Hi : iteration c item st w = (Throw TypeError, w, [])).
  { rewrite iteration_run.
    destruct item as [| | | | |fields]; try reflexivity; try discriminate H.
    unfold well_formed in H. apply andb_false_iff in H.
    destruct H as [H|H]; unfold printable in H.
    - destruct (get (JObj fields) "brand") as [x|] eqn:Eg; [|discriminate H].
      destruct (truthy (Some x)) eqn:Et; [|discriminate H].
      destruct (ToString x) eqn:Es; [discriminate H|].
      unfold brand_of, or_else. rewrite Eg, Et, Es. reflexivity.
    - destruct (get (JObj fields) "name") as [x|] eqn:Eg; [|discriminate H].
      destruct (truthy (Some x)) eqn:Et; [|discriminate H].
      destruct (ToString x) eqn:Es; [discriminate H|].
      destruct (ToString (brand_of (JObj fields))); [|reflexivity].
      unfold name_of, or_else. rewrite Eg, Et, Es. reflexivity. }
  rewrite Hi, app_nil_r. reflexivity.
Qed.

(** X7. A line that holds a JSON value other than [null] and an object, a
    number, a string, a truth value or an array, is passed over as a record
    without image URL, under the names [brand] and [item_] with its number. *)
Theorem plain_values_are_skipped c item st w :
  plain_value item = true ->
  iteration c item st w
  = (Ok (Next, counted st), w,
     [ConsoleWarn [lit "Skipping item without imageUrl: brand item_"
                     ++ decimal (S (index st))]]).
Proof.
  intros H. rewrite iteration_run.
  destruct item; try discriminate H; simpl; rewrite app_nil_r; reflexivity.
Qed.

Lemma for_await_emits c (P : event -> Prop) :
  (forall item st, emits P (iteration c item st)) ->
  (forall args, P (ConsoleWarn args)) ->
  forall actions st, emits P (for_await c actions st).
Proof.
  intros Hi Hw actions. induction actions as [|[item|line] rest IH]; intros st; simpl.
  - apply emits_ret.
  - apply emits_bind; [apply Hi|]. intros [[|] st']; [apply IH | apply emits_ret].
  - apply emits_bind; [apply emits_emit; apply Hw|]. intros _. apply IH.
Qed.

Lemma iteration_main_events c item st : emits main_event (iteration c item st).
Proof.
  unfold iteration, attempt. cbv zeta.
  repeat first
    [ apply emits_ret | apply emits_lift | apply emits_emit; exact I
    | apply emits_call_or_throw; intros; exact I
    | eapply emits_weaken; [|apply downloadFile_emits];
      intros [] He; simpl in He; try discriminate He; exact I
    | eapply emits_weaken; [|apply enhance_emits];
      intros [] [He|He]; simpl in He; try discriminate He; exact I
    | apply emits_try_catch; [|intros ?]
    | apply emits_bind; [|intros ?]
    | match goal with |- emits _ (match ?x with _ => _ end) => destruct x end ].
Qed.

Lemma main_main_events b : emits main_event (main b).
Proof.
  unfold main, write_manifest. cbv zeta.
  apply emits_bind.
  - eapply emits_weaken; [|apply prepare_emits].
    intros [] He; simpl in He; try contradiction; exact I.
  - intros p. apply emits_bind.
    + apply for_await_emits; [apply iteration_main_events | intros; exact I].
    + intros r. apply emits_bind; [apply emits_call_or_throw; intros; exact I|].
      intros _. apply emits_emit. exact I.
Qed.

(** How [main] ends, and the manifest. *)
Lemma main_outcomes b w :
  match result_of (main b w) with
  | Ok _ =>
      exists path,
        In (WriteFile path (Text (JSON_stringify_indent2 (JArr (pushes (trace_of (main b w))))))
              (inr tt))
          (trace_of (main b w))
  | Throw _ =>
      forall path json, ~ In (WriteFile path (Text json) (inr tt)) (trace_of (main b w))
  | Fatal _ | Pending => True
  end.
Proof.
  rewrite main_run.
  destruct (prepare b w) as [[[p|e|e|] w1] t1] eqn:Ep;
    destruct (prepare_trace_facts _ _ Ep) as [P1 [_ M1]];
    unfold result_of, trace_of; simpl; try exact I.
  2:{ intros path json Hin. apply manifests_in in Hin. rewrite M1 in Hin. exact Hin. }
  destruct (for_await (fst p) (snd p) start w1) as [[[[ctl st']|e|e|] w2] t2] eqn:El;
    destruct (loop_pushes_written _ _ _ _ El) as [_ M2]; simpl; try exact I.
  2:{ intros path json Hin. apply manifests_in in Hin.
      rewrite manifests_app, M1, M2 in Hin. exact Hin. }
  destruct (loop_state _ _ _ _ El) as [Ho _]. simpl in Ho.
  destruct (fs_writeFileSync _ _ w2) as [[e|[]] w3]; simpl.
  - intros path json Hin.
    apply in_app_or in Hin. destruct Hin as [Hin|Hin];
      [apply manifests_in in Hin; rewrite M1 in Hin; exact Hin|].
    apply in_app_or in Hin. destruct Hin as [Hin|[Hin|[]]];
      [apply manifests_in in Hin; rewrite M2 in Hin; exact Hin|].
    discriminate Hin.
  - eexists. rewrite !pushes_app, P1. simpl. rewrite app_nil_r, <- Ho.
    apply in_or_app. right. apply in_or_app. right. left. reflexivity.
Qed.

(** X8. The script never ends in a rejection of its own; it sets the exit code,
    and then to [1], exactly when [main] threw; a run that sets it has
    written no manifest, and a run that ends without setting it has written
    the manifest of the records appended. *)
Theorem exit_code_tells_of_the_manifest b w :
  let t := trace_of (script b w) in
  (forall e, result_of (script b w) <> Throw e)
  /\ (forall n, In (SetExitCode n) t <-> n = 1%nat /\ exists e, result_of (main b w) = Throw e)
  /\ (In (SetExitCode 1) t ->
      forall path json, ~ In (WriteFile path (Text json) (inr tt)) t)
  /\ (result_of (script b w) = Ok tt -> ~ In (SetExitCode 1) t ->
      exists path,
        In (WriteFile path (Text (JSON_stringify_indent2 (JArr (pushes t)))) (inr tt)) t).
Proof.
  cbv zeta. pose proof (main_outcomes b w) as Hm.
  pose proof (main_main_events b w) as He.
  unfold script, try_catch. unfold result_of, trace_of in *.
  destruct (main b w) as [[[[]|e|e|] w1] t1]; simpl in *.
  - assert (Hno : forall n, ~ In (SetExitCode n) t1).
    { intros n Hin. rewrite Forall_forall in He. exact (He _ Hin). }
    split; [discriminate|]. split; [|split].
    + intros n. split; [intros Hin; destruct (Hno _ Hin) | intros [_ [e H]]; discriminate H].
    + intros Hin. destruct (Hno _ Hin).
    + intros _ _. exact Hm.
  - assert (Hno : forall n, ~ In (SetExitCode n) t1).
    { intros n Hin. rewrite Forall_forall in He. exact (He _ Hin). }
    split; [discriminate|]. split; [|split].
    + intros n. split.
      * intros Hin. apply in_app_or in Hin. destruct Hin as [Hin|[Hin|[Hin|[]]]];
          [destruct (Hno _ Hin) | discriminate Hin |].
        inversion Hin. split; [reflexivity | exists e; reflexivity].
      * intros [-> _]. apply in_or_app. right. right. left. reflexivity.
    + intros _ path json Hin. apply in_app_or in Hin.
      destruct Hin as [Hin|[Hin|[Hin|[]]]]; try discriminate Hin.
      exact (Hm _ _ Hin).
    + intros _ Hn. exfalso. apply Hn. apply in_or_app. right. right. left. reflexivity.
  - assert (Hno : forall n, ~ In (SetExitCode n) t1).
    { intros n Hin. rewrite Forall_forall in He. exact (He _ Hin). }
    split; [discriminate|]. split; [|split].
    + intros n. split; [intros Hin; destruct (Hno _ Hin) | intros [_ [e' H]]; discriminate H].
    + intros Hin. destruct (Hno _ Hin).
    + discriminate.
  - assert (Hno : forall n, ~ In (SetExitCode n) t1).
    { intros n Hin. rewrite Forall_forall in He. exact (He _ Hin). }
    split; [discriminate|]. split; [|split].
    + intros n. split; [intros Hin; destruct (Hno _ Hin) | intros [_ [e' H]]; discriminate H].
    + intros Hin. destruct (Hno _ Hin).
    + discriminate.
Qed.

End Endings.

(* ================================================================= *)
(** ** The download *)

Section Download.
Context {R : Runtime}.

Lemma is_redirect_spec status location l :
  is_redirect status location = Some l
  <-> location = Some l /\ 300 <= status < 400 /\ l <> [].
Proof.
  unfold is_redirect.
  destruct location as [l'|]; [|split; [discriminate | intros [H _]; discriminate H]].
  destruct (negb (status =? 0) && (300 <=? status) && (status <? 400) && nonempty l') eqn:E.
  - apply andb_true_iff in E. destruct E as [E Hl].
    apply andb_true_iff in E. destruct E as [E H2].
    apply andb_true_iff in E. destruct E as [_ H1].
    apply N.leb_le in H1. apply N.ltb_lt in H2.
    split.
    + intros H. inversion H; subst. repeat split; try assumption.
      intros ->. discriminate Hl.
    + intros [H _]. exact H.
  - split; [discriminate|]. intros [H [[H1 H2] Hl]]. inversion H; subst.
    assert (E0 : (status =? 0) = false) by (apply N.eqb_neq; lia).
    assert (E1 : (300 <=? status) = true) by (apply N.leb_le; lia).
    assert (E2 : (status <? 400) = true) by (apply N.ltb_lt; lia).
    rewrite E0, E1, E2 in E. destruct l; [contradiction | discriminate E].
Qed.

Lemma is_failure_spec status : is_failure status = true <-> 400 <= status.
Proof.
  unfold is_failure. split.
  - intros H. apply andb_true_iff in H. destruct H as [_ H]. apply N.leb_le. exact H.
  - intros H. apply andb_true_iff. split.
    + apply negb_true_iff. apply N.eqb_neq. lia.
    + apply N.leb_le. exact H.
Qed.

Lemma download_error_run url statusCode w :
  download_error url statusCode w
  = (match ToString url with
     | Some s =>
         Throw (Error (lit "Failed to download " ++ s ++ lit ": "
                         ++ decimal (N.to_nat statusCode)))
     | None => Fatal TypeError
     end, w, []).
Proof. unfold download_error. destruct (ToString url); reflexivity. Qed.

Lemma pipe_to_file_run destPath on_error w :
  pipe_to_file destPath on_error w =
  match stream_pipe destPath w with
  | (Finished, w1) => (Ok tt, w1, [StreamToFile destPath])
  | (WriteFails e, w1) => (Fatal e, w1, [WriteStreamError destPath e])
  | (RequestFails first e, w1) =>
      match on_error first e w1 with
      | (r, w2, t) => (r, w2, LateRequestError first e :: t)
      end
  | (BreaksOff, w1) => (Pending, w1, [])
  end.
Proof.
  unfold pipe_to_file, bind at 1, ask.
  destruct (stream_pipe destPath w) as [[|e|first e|] w1]; try reflexivity.
  rewrite bind_emit_run. destruct (on_error first e w1) as [[r w2] t]. reflexivity.
Qed.

(** The end of a download whose last answer has the status [statusCode]:
    the refusal, or the body piped to the file. *)
Lemma download_end_run url destPath on_error (unlinks : bool -> bool) statusCode w :
  (forall first err w0,
     on_error first err w0
     = (Throw err, w0, if unlinks first then [Unlink destPath] else [])) ->
  (if is_failure statusCode then download_error url statusCode
   else pipe_to_file destPath on_error) w
  = if is_failure statusCode then
      (match ToString url with
       | Some s =>
           Throw (Error (lit "Failed to download " ++ s ++ lit ": "
                           ++ decimal (N.to_nat statusCode)))
       | None => Fatal TypeError
       end, w, [])
    else
      match stream_pipe destPath w with
      | (Finished, w1) => (Ok tt, w1, [StreamToFile destPath])
      | (WriteFails e, w1) => (Fatal e, w1, [WriteStreamError destPath e])
      | (RequestFails first e, w1) =>
          (Throw e, w1,
           LateRequestError first e :: if unlinks first then [Unlink destPath] else [])
      | (BreaksOff, w1) => (Pending, w1, [])
      end.
Proof.
  intros Hh. destruct (is_failure statusCode); [apply download_error_run|].
  rewrite pipe_to_file_run.
  destruct (stream_pipe destPath w) as [[|e|first e|] w1]; try reflexivity.
  rewrite Hh. reflexivity.
Qed.

(** [downloadFile], answer by answer. *)
Lemma downloadFile_run url destPath w :
  downloadFile url destPath w =
  match https_get url w with
  | (reply, w1) =>
      let head := [CreateWriteStream destPath; HttpsGet url reply] in
      match fs_createWriteStream destPath w1 with
      | (inl e, w2) => (Fatal e, w2, head ++ [WriteStreamError destPath e])
      | (inr _, w2) =>
          match reply with
          | RequestThrows e => (Throw e, w2, head)
          | RequestError e => (Throw e, w2, head ++ [Unlink destPath])
          | Response statusCode location =>
              match is_redirect statusCode location with
              | Some l =>
                  match https_get (JStr l) w2 with
                  | (redirected, w3) =>
                      let head2 := head ++ [HttpsGet (JStr l) redirected] in
                      match redirected with
                      | RequestThrows e => (Fatal e, w3, head2)
                      | RequestError e => (Throw e, w3, head2)
                      | Response statusCode' _ =>
                          match (if is_failure statusCode' then download_error url statusCode'
                                 else pipe_to_file destPath
                                        (fun first err =>
                                           if first then emit (Unlink destPath) ;; throw err
                                           else throw err)) w3 with
                          | (r, w4, t) => (r, w4, head2 ++ t)
                          end
                      end
                  end
              | None =>
                  match (if is_failure statusCode then download_error url statusCode
                         else pipe_to_file destPath
                                (fun _ err => emit (Unlink destPath) ;; throw err)) w2 with
                  | (r, w3, t) => (r, w3, head ++ t)
                  end
              end
          end
      end
  end.
Proof.
  unfold downloadFile. cbv zeta. rewrite bind_emit_run. unfold bind at 1, call at 1.
  destruct (https_get url w) as [reply w1].
  unfold bind at 1, open_stream at 1, bind at 1, ask at 1.
  destruct (fs_createWriteStream destPath w1) as [[e|u] w2]; [reflexivity|].
  cbn [ret app].
  destruct reply as [e|e|statusCode location]; try reflexivity.
  destruct (is_redirect statusCode location) as [l|].
  - unfold bind at 1, call at 1.
    destruct (https_get (JStr l) w2) as [[e|e|statusCode' location'] w3]; try reflexivity.
    match goal with
    | |- context [match ?m w3 with _ => _ end] => destruct (m w3) as [[r w4] t]
    end.
    reflexivity.
  - match goal with
    | |- context [match ?m w2 with _ => _ end] => destruct (m w2) as [[r w3] t]
    end.
    reflexivity.
Qed.

(** No request of a download throws at once but the first, which rejects
    it, or the second, which ends the process. *)
Lemma downloadFile_throws url destPath w reply w1 w2 r w' t :
  https_get url w = (reply, w1) ->
  fs_createWriteStream destPath w1 = (inr tt, w2) ->
  downloadFile url destPath w = (r, w', t) ->
  (forall e, reply = RequestThrows e -> r = Throw e)
  /\ (forall u e,
        In (HttpsGet u (RequestThrows e)) t -> (forall e', reply <> RequestThrows e') ->
        r = Fatal e).
Proof.
  intros Hget Hopen. rewrite downloadFile_run, Hget, Hopen. cbv zeta.
  assert (Hend : forall (on_error : bool -> exn -> M unit) (unlinks : bool -> bool)
                   status w0 r0 w0' t0,
            (forall first err w5,
               on_error first err w5
               = (Throw err, w5, if unlinks first then [Unlink destPath] else [])) ->
            (if is_failure status then download_error url status
             else pipe_to_file destPath on_error) w0
            = (r0, w0', t0) ->
            forall u rp, ~ In (HttpsGet u rp) t0).
  { intros on_error unlinks status w0 r0 w0' t0 Hh E u rp Hin.
    rewrite (download_end_run url destPath on_error unlinks status w0 Hh) in E.
    destruct (is_failure status).
    - inversion E; subst. exact Hin.
    - destruct (stream_pipe destPath w0) as [[|e0|first e0|] w5];
        inversion E; subst; simpl in Hin;
        try (destruct (unlinks first); simpl in Hin);
        repeat (destruct Hin as [Hin|Hin]; [discriminate Hin|]); exact Hin. }
  destruct reply as [e|e|status location].
  - intros H; inversion H; subst. split.
    + intros e' He'. inversion He'; subst. reflexivity.
    + intros u e' _ Hno. exfalso. exact (Hno e eq_refl).
  - intros H; inversion H; subst. split; [discriminate|].
    intros u e' Hin _. simpl in Hin.
    repeat (destruct Hin as [Hin|Hin]; [discriminate Hin|]). contradiction.
  - split; [discriminate|]. revert H.
    destruct (is_redirect status location) as [l|].
    + destruct (https_get (JStr l) w2) as [[e|e|status' location'] w3].
      * intros H u e' Hin _. inversion H; subst. simpl in Hin.
        destruct Hin as [Hin|[Hin|[Hin|[]]]]; try discriminate Hin.
        inversion Hin; subst. reflexivity.
      * intros H u e' Hin _. inversion H; subst. simpl in Hin.
        repeat (destruct Hin as [Hin|Hin]; [discriminate Hin|]). contradiction.
      * match goal with
        | |- context [match ?m w3 with _ => _ end] =>
            destruct (m w3) as [[r4 w4] t4] eqn:E4
        end.
        intros H u e' Hin _. inversion H; subst. exfalso.
        simpl in Hin. repeat (destruct Hin as [Hin|Hin]; [discriminate Hin|]).
        revert Hin.
        apply (Hend (fun first err =>
                       if first then emit (Unlink destPath) ;; throw err
                       else throw err)
                    (fun first : bool => first) status' w3 r w' t4);
          [intros [|] err w5; reflexivity | exact E4].
    + match goal with
      | |- context [match ?m w2 with _ => _ end] =>
          destruct (m w2) as [[r3 w3] t3] eqn:E3
      end.
      intros H u e' Hin _. inversion H; subst. exfalso.
      simpl in Hin. repeat (destruct Hin as [Hin|Hin]; [discriminate Hin|]).
      revert Hin.
      apply (Hend (fun _ err => emit (Unlink destPath) ;; throw err)
                  (fun _ : bool => true) status w2 r w' t3);
        [intros first err w5; reflexivity | exact E3].
Qed.

(** X9. [downloadFile] creates the write stream and asks for the URL; it
    asks once more, for the [Location], exactly when the first answer is a
    redirect (a status from 300 to 399 with a [Location] that is not
    empty), and never a third time.  It resolves exactly when the stream to
    the file has finished.  A first request that throws at once rejects it
    with what was thrown; a second request that throws at once ends the
    process with it.  An answer with a status of 400 or more rejects it
    with an error that names the URL and the status (and ends the process
    with a [TypeError] when the URL cannot be put in a string); an
    ['error'] of a request, before its answer or after, rejects it with
    that error, and the file is removed exactly when that request is the
    first one.  Nothing listens to the ['error'] of the write stream: a
    file that cannot be opened ends the process with that error whatever
    answer the first request gets (a request that throws at once is left
    aside there), and so does a file that cannot be written. *)
Theorem download_outcomes url destPath w reply w1 opened w2 r w' t :
  https_get url w = (reply, w1) ->
  fs_createWriteStream destPath w1 = (opened, w2) ->
  downloadFile url destPath w = (r, w', t) ->
  (exists rest, t = CreateWriteStream destPath :: HttpsGet url reply :: rest)
  /\ (forall e, opened = inl e -> (forall e', reply <> RequestThrows e') ->
        r = Fatal e
        /\ t = [CreateWriteStream destPath; HttpsGet url reply; WriteStreamError destPath e])
  /\ (opened = inr tt ->
      (r = Ok tt <-> In (StreamToFile destPath) t)
      /\ (forall e, reply = RequestThrows e -> r = Throw e)
      /\ (forall u e,
            In (HttpsGet u (RequestThrows e)) t -> (forall e', reply <> RequestThrows e') ->
            r = Fatal e)
      /\ (forall status l,
            reply = Response status (Some l) -> 300 <= status < 400 -> l <> [] ->
            requests t = [url; JStr l])
      /\ (requests t = [url]
          \/ exists status l,
               reply = Response status (Some l) /\ 300 <= status < 400 /\ l <> []
               /\ requests t = [url; JStr l])
      /\ (forall u status location,
            In (HttpsGet u (Response status location)) t -> 400 <= status ->
            r = match ToString url with
                | Some s =>
                    Throw (Error (lit "Failed to download " ++ s ++ lit ": "
                                    ++ decimal (N.to_nat status)))
                | None => Fatal TypeError
                end)
      /\ (forall u e, In (HttpsGet u (RequestError e)) t -> r = Throw e)
      /\ (forall first e, In (LateRequestError first e) t -> r = Throw e)
      /\ (In (Unlink destPath) t
          <-> (exists e, reply = RequestError e)
              \/ (exists first e,
                    In (LateRequestError first e) t
                    /\ (first = true \/ requests t = [url])))
      /\ (forall e, In (WriteStreamError destPath e) t -> r = Fatal e)).
Proof.
  intros Hget Hopen Hrun.
  assert (Hthrows : opened = inr tt ->
            (forall e, reply = RequestThrows e -> r = Throw e)
            /\ (forall u e,
                  In (HttpsGet u (RequestThrows e)) t ->
                  (forall e', reply <> RequestThrows e') -> r = Fatal e)).
  { intros E. rewrite E in Hopen. exact (downloadFile_throws _ _ _ Hget Hopen Hrun). }
  revert Hrun. rewrite downloadFile_run, Hget, Hopen. cbv zeta.
  destruct opened as [e|[]].
  { intros H; inversion H; subst. split; [eexists; reflexivity|].
    split; [|discriminate].
    intros e' He' _. inversion He'; subst. split; reflexivity. }
  intros Hrun. split; [|split; [discriminate|intros _]].
  { destruct reply as [e|e|status location].
    - inversion Hrun; subst. eexists; reflexivity.
    - inversion Hrun; subst. eexists; reflexivity.
    - destruct (is_redirect status location) as [l|].
      + destruct (https_get (JStr l) w2) as [[e|e|status' location'] w3].
        * inversion Hrun; subst. eexists; reflexivity.
        * inversion Hrun; subst. eexists; reflexivity.
        * match type of Hrun with
          | (let (_, _) := ?m in _) = _ => destruct m as [[r4 w4] t4]
          end.
          inversion Hrun; subst. eexists; reflexivity.
      + match type of Hrun with
        | (let (_, _) := ?m in _) = _ => destruct m as [[r4 w4] t4]
        end.
        inversion Hrun; subst. eexists; reflexivity. }
  (* the last stage, by cases *)
  assert (Hend : forall (on_error : bool -> exn -> M unit) (unlinks : bool -> bool)
                        status w0 r0 w0' t0,
            (forall first err w3,
               on_error first err w3
               = (Throw err, w3, if unlinks first then [Unlink destPath] else [])) ->
            (if is_failure status then download_error url status
             else pipe_to_file destPath on_error) w0
            = (r0, w0', t0) ->
            (r0 = Ok tt <-> In (StreamToFile destPath) t0)
            /\ requests t0 = []
            /\ (400 <= status ->
                r0 = match ToString url with
                     | Some s =>
                         Throw (Error (lit "Failed to download " ++ s ++ lit ": "
                                         ++ decimal (N.to_nat status)))
                     | None => Fatal TypeError
                     end)
            /\ (forall ev, In ev t0 ->
                  ev = StreamToFile destPath
                  \/ (exists e, ev = WriteStreamError destPath e /\ r0 = Fatal e)
                  \/ (exists first e, ev = LateRequestError first e /\ r0 = Throw e)
                  \/ ev = Unlink destPath)
            /\ (In (Unlink destPath) t0
                <-> exists first e,
                      In (LateRequestError first e) t0 /\ unlinks first = true)).
  { intros on_error unlinks status w0 r0 w0' t0 Hh.
    rewrite (download_end_run _ _ _ unlinks _ _ Hh).
    destruct (is_failure status) eqn:Ef.
    - intros H; inversion H; subst.
      split; [split; [destruct (ToString url); discriminate | intros []]|].
      split; [reflexivity|]. split; [reflexivity|]. split; [intros ev []|].
      split; [intros [] | intros [first [e [[] _]]]].
    - assert (Hlt : ~ 400 <= status).
      { intros Hge. apply is_failure_spec in Hge. congruence. }
      destruct (stream_pipe destPath w0) as [[|e|first e|] w5]; intros H; inversion H; subst.
      + split; [split; [intros _; left; reflexivity | reflexivity]|].
        split; [reflexivity|]. split; [intros Hge; contradiction|].
        split; [intros ev [<-|[]]; left; reflexivity|].
        split; [intros [Hin|[]]; discriminate Hin
               | intros [first [e [[Hin|[]] _]]]; discriminate Hin].
      + split; [split; [discriminate | intros [Hin|[]]; discriminate Hin]|].
        split; [reflexivity|]. split; [intros Hge; contradiction|].
        split; [intros ev [<-|[]]; right; left; exists e; split; reflexivity|].
        split; [intros [Hin|[]]; discriminate Hin
               | intros [first [e' [[Hin|[]] _]]]; discriminate Hin].
      + split.
        { split; [discriminate|].
          intros [Hin|Hin]; [discriminate Hin|].
          destruct (unlinks first); simpl in Hin;
            [destruct Hin as [Hin|[]]; discriminate Hin | contradiction]. }
        split; [destruct (unlinks first); reflexivity|].
        split; [intros Hge; contradiction|].
        split.
        { intros ev [<-|Hin].
          - right. right. left. exists first, e. split; reflexivity.
          - destruct (unlinks first); simpl in Hin; [|contradiction].
            destruct Hin as [<-|[]]. right. right. right. reflexivity. }
        split.
        { intros [Hin|Hin]; [discriminate Hin|].
          destruct (unlinks first) eqn:Eb; [|destruct Hin].
          exists first, e. split; [left; reflexivity | exact Eb]. }
        { intros [first' [e' [[Hin|Hin] Hc]]].
          - inversion Hin; subst. rewrite Hc. right. left. reflexivity.
          - destruct (unlinks first); simpl in Hin;
              [destruct Hin as [Hin|[]]; discriminate Hin | contradiction]. }
      + split; [split; [discriminate | intros []]|].
        split; [reflexivity|]. split; [intros Hge; contradiction|].
        split; [intros ev []|]. split; [intros [] | intros [first [e [[] _]]]]. }
  destruct (Hthrows eq_refl) as [Hfirst Hsecond]. clear Hthrows.
  refine ((fun H => conj (proj1 H) (conj Hfirst (conj Hsecond (proj2 H)))) _).
  clear Hfirst Hsecond.
  destruct reply as [e|e|status location].
  - inversion Hrun; subst. simpl.
    split; [split; [discriminate | intros [H|[H|[]]]; discriminate H]|].
    split; [discriminate|]. split; [left; reflexivity|].
    split; [intros u s l [H|[H|[]]]; discriminate H|].
    split; [intros u e' [H|[H|[]]]; discriminate H|].
    split; [intros first e' [H|[H|[]]]; discriminate H|].
    split.
    { split; [intros [H|[H|[]]]; discriminate H|].
      intros [[e' H]|[first [e' [[H|[H|[]]] _]]]]; discriminate H. }
    intros e' [H|[H|[]]]; discriminate H.
  - inversion Hrun; subst. simpl.
    split; [split; [discriminate | intros [H|[H|[H|[]]]]; discriminate H]|].
    split; [discriminate|]. split; [left; reflexivity|].
    split; [intros u s l [H|[H|[H|[]]]]; discriminate H|].
    split; [intros u e' [H|[H|[H|[]]]]; try discriminate H; inversion H; reflexivity|].
    split; [intros first e' [H|[H|[H|[]]]]; discriminate H|].
    split; [split; [intros _; left; eexists; reflexivity
                   | intros _; right; right; left; reflexivity]|].
    intros e' [H|[H|[H|[]]]]; discriminate H.
  - destruct (is_redirect status location) as [l|] eqn:Er.
    + apply is_redirect_spec in Er. destruct Er as [-> [Hs Hl]].
      assert (Hlow : ~ 400 <= status) by lia.
      destruct (https_get (JStr l) w2) as [[e|e|status' location'] w3].
      * inversion Hrun; subst. simpl.
        split; [split; [discriminate | intros [H|[H|[H|[]]]]; discriminate H]|].
        split; [intros s0 l0 E _ _; inversion E; reflexivity|].
        split; [right; exists status, l; repeat split; try assumption; lia|].
        split; [intros u s0 l0 [H|[H|[H|[]]]]; try discriminate H;
                inversion H; subst; intros Hge; contradiction|].
        split; [intros u e' [H|[H|[H|[]]]]; discriminate H|].
        split; [intros first e' [H|[H|[H|[]]]]; discriminate H|].
        split.
        { split; [intros [H|[H|[H|[]]]]; discriminate H|].
          intros [[e' H]|[first [e' [[H|[H|[H|[]]]] _]]]]; discriminate H. }
        intros e' [H|[H|[H|[]]]]; discriminate H.
      * inversion Hrun; subst. simpl.
        split; [split; [discriminate | intros [H|[H|[H|[]]]]; discriminate H]|].
        split; [intros s0 l0 E _ _; inversion E; reflexivity|].
        split; [right; exists status, l; repeat split; try assumption; lia|].
        split; [intros u s0 l0 [H|[H|[H|[]]]]; try discriminate H;
                inversion H; subst; intros Hge; contradiction|].
        split; [intros u e' [H|[H|[H|[]]]]; try discriminate H; inversion H; reflexivity|].
        split; [intros first e' [H|[H|[H|[]]]]; discriminate H|].
        split.
        { split; [intros [H|[H|[H|[]]]]; discriminate H|].
          intros [[e' H]|[first [e' [[H|[H|[H|[]]]] _]]]]; discriminate H. }
        intros e' [H|[H|[H|[]]]]; discriminate H.
      * match type of Hrun with
        | (let (_, _) := ?m in _) = _ => destruct m as [[r4 w4] t4] eqn:E4
        end.
        destruct (Hend (fun first err =>
                          if first then emit (Unlink destPath) ;; throw err else throw err)
                    (fun first : bool => first) status' w3 r4 w4 t4)
          as [Hok [Hreq [Hrej [Hev Hun]]]];
          [intros [|] err w5; reflexivity | exact E4 |].
        inversion Hrun; subst. simpl.
        unfold requests in *. rewrite Hreq.
        split.
        { rewrite Hok. split; [intros H; right; right; right; exact H|].
          intros [H|[H|[H|H]]]; try discriminate H. exact H. }
        split; [intros s0 l0 E _ _; inversion E; reflexivity|].
        split; [right; exists status, l; repeat split; try assumption; lia|].
        split.
        { intros u s0 l0 [H|[H|[H|H]]]; try discriminate H.
          - inversion H; subst. intros Hge. contradiction.
          - inversion H; subst. exact Hrej.
          - destruct (Hev _ H) as [E|[[e [E _]]|[[f [e [E _]]]|E]]]; discriminate E. }
        split.
        { intros u e' [H|[H|[H|H]]]; try discriminate H.
          destruct (Hev _ H) as [E|[[e [E _]]|[[f [e [E _]]]|E]]]; discriminate E. }
        split.
        { intros first e' [H|[H|[H|H]]]; try discriminate H.
          destruct (Hev _ H) as [E|[[e [E _]]|[[f [e [E Hr]]]|E]]]; try discriminate E.
          inversion E; subst. reflexivity. }
        split.
        { split.
          - intros [H|[H|[H|H]]]; try discriminate H.
            apply Hun in H. destruct H as [first [e [Hin Hf]]].
            right. exists first, e. split; [|left; exact Hf].
            right. right. right. exact Hin.
          - intros [[e' H]|[first [e' [Hin Hc]]]]; [discriminate H|].
            destruct Hc as [Hc|Hc]; [|discriminate Hc].
            destruct Hin as [H|[H|[H|H]]]; try discriminate H.
            right. right. right. apply Hun. exists first, e'. split; [exact H | exact Hc]. }
        intros e' [H|[H|[H|H]]]; try discriminate H.
        destruct (Hev _ H) as [E|[[e [E Hr]]|[[f [e [E _]]]|E]]]; try discriminate E.
        inversion E; subst. reflexivity.
    + match type of Hrun with
      | (let (_, _) := ?m in _) = _ => destruct m as [[r4 w4] t4] eqn:E4
      end.
      destruct (Hend (fun _ err => emit (Unlink destPath) ;; throw err)
                  (fun _ : bool => true) status w2 r4 w4 t4)
        as [Hok [Hreq [Hrej [Hev Hun]]]];
        [intros first err w5; reflexivity | exact E4 |].
      inversion Hrun; subst. simpl.
      unfold requests in *. rewrite Hreq.
      split.
      { rewrite Hok. split; [intros H; right; right; exact H|].
        intros [H|[H|H]]; try discriminate H. exact H. }
      split.
      { intros s0 l0 E Hs Hl. inversion E; subst.
        assert (Hr : is_redirect s0 (Some l0) = Some l0)
          by (apply is_redirect_spec; repeat split; [apply Hs | apply Hs | exact Hl]).
        congruence. }
      split; [left; reflexivity|].
      split.
      { intros u s0 l0 [H|[H|H]]; try discriminate H.
        - inversion H; subst. exact Hrej.
        - destruct (Hev _ H) as [E|[[e [E _]]|[[f [e [E _]]]|E]]]; discriminate E. }
      split.
      { intros u e' [H|[H|H]]; try discriminate H.
        destruct (Hev _ H) as [E|[[e [E _]]|[[f [e [E _]]]|E]]]; discriminate E. }
      split.
      { intros first e' [H|[H|H]]; try discriminate H.
        destruct (Hev _ H) as [E|[[e [E _]]|[[f [e [E Hr]]]|E]]]; try discriminate E.
        inversion E; subst. reflexivity. }
      split.
      { split.
        - intros [H|[H|H]]; try discriminate H.
          apply Hun in H. destruct H as [first [e [Hin _]]].
          right. exists first, e. split; [right; right; exact Hin | right; reflexivity].
        - intros [[e' H]|[first [e' [Hin _]]]]; [discriminate H|].
          destruct Hin as [H|[H|H]]; try discriminate H.
          right. right. apply Hun. exists first, e'. split; [exact H | reflexivity]. }
      intros e' [H|[H|H]]; try discriminate H.
      destruct (Hev _ H) as [E|[[e [E Hr]]|[[f [e [E _]]]|E]]]; try discriminate E.
      inversion E; subst. reflexivity.
Qed.

(** X10. A redirect is followed once: when the second answer is a redirect
    too, or any answer with a status below 400, its body is what is piped
    to the file, and no third request is made; and a redirect without
    [Location] is not followed at all, its own body is what is piped to the
    file.  The download then ends as the piping does: it resolves when the
    stream has finished; the process ends when the file cannot be written;
    it is rejected when a request emits ['error'], the file being removed
    when that request is the first one; and the promise is never settled
    when the body breaks off. *)
Theorem second_redirect_is_saved url destPath w :
  (forall status location w1 w2 status' location' w3 ended w4,
     https_get url w = (Response status (Some location), w1) ->
     300 <= status < 400 -> location <> [] ->
     fs_createWriteStream destPath w1 = (inr tt, w2) ->
     https_get (JStr location) w2 = (Response status' location', w3) ->
     status' < 400 ->
     stream_pipe destPath w3 = (ended, w4) ->
     let requested :=
       [CreateWriteStream destPath; HttpsGet url (Response status (Some location));
        HttpsGet (JStr location) (Response status' location')] in
     downloadFile url destPath w
     = match ended with
       | Finished => (Ok tt, w4, requested ++ [StreamToFile destPath])
       | WriteFails e => (Fatal e, w4, requested ++ [WriteStreamError destPath e])
       | RequestFails first e =>
           (Throw e, w4,
            requested ++ LateRequestError first e
              :: if first then [Unlink destPath] else [])
       | BreaksOff => (Pending, w4, requested)
       end)
  /\ (forall status w1 w2 ended w3,
        https_get url w = (Response status None, w1) -> status < 400 ->
        fs_createWriteStream destPath w1 = (inr tt, w2) ->
        stream_pipe destPath w2 = (ended, w3) ->
        let requested := [CreateWriteStream destPath; HttpsGet url (Response status None)] in
        downloadFile url destPath w
        = match ended with
          | Finished => (Ok tt, w3, requested ++ [StreamToFile destPath])
          | WriteFails e => (Fatal e, w3, requested ++ [WriteStreamError destPath e])
          | RequestFails first e =>
              (Throw e, w3, requested ++ [LateRequestError first e; Unlink destPath])
          | BreaksOff => (Pending, w3, requested)
          end).
Proof.
  assert (Hfail : forall status, status < 400 -> is_failure status = false).
  { intros status Hok. destruct (is_failure status) eqn:E; [|reflexivity].
    apply is_failure_spec in E. lia. }
  split.
  - intros status location w1 w2 status' location' w3 ended w4 H1 Hs Hloc Ho H2 Hok Hp.
    assert (Hr : is_redirect status (Some location) = Some location)
      by (apply is_redirect_spec; repeat split; [apply Hs | apply Hs | exact Hloc]).
    cbv zeta. rewrite downloadFile_run, H1, Ho. cbv zeta. rewrite Hr, H2.
    rewrite (download_end_run _ _ _ (fun first : bool => first));
      [|intros [|] err w5; reflexivity].
    rewrite (Hfail _ Hok), Hp.
    destruct ended as [|e|first e|]; reflexivity.
  - intros status w1 w2 ended w3 H1 Hok Ho Hp.
    cbv zeta. rewrite downloadFile_run, H1, Ho. cbv zeta.
    change (is_redirect status None) with (@None jsstring). cbv iota.
    rewrite (download_end_run _ _ _ (fun _ : bool => true));
      [|intros first err w5; reflexivity].
    rewrite (Hfail _ Hok), Hp.
    destruct ended as [|e|first e|]; reflexivity.
Qed.

End Download.

(* ================================================================= *)
(** ** The answers of the two APIs *)

Section Answers.
Context {R : Runtime}.

(** Parts without inline data are passed over. *)
Lemma first_inline_image_none parts w :
  ~ In JNull parts -> choose inline_payload parts = [] ->
  first_inline_image parts w = throw (Error (lit "Gemini did not return an image")) w.
Proof.
  induction parts as [|part rest IH]; intros Hn Hc; [reflexivity|].
  assert (Hr : ~ In JNull rest) by (intros H; apply Hn; right; exact H).
  rewrite choose_cons in Hc. unfold inline_payload at 1 in Hc.
  cbn [first_inline_image].
  assert (E : prop part "inlineData" = Ok (get part "inlineData")).
  { destruct part; try reflexivity. exfalso. apply Hn. left. reflexivity. }
  rewrite E, bind_lift_run. cbv zeta.
  destruct (when_truthy (opt_get (get part "inlineData") "data")) as [data|] eqn:Ew;
    [discriminate Hc|].
  rewrite (when_truthy_none _ Ew). apply IH; assumption.
Qed.

(** X11. The Gemini decoder goes by the first part that holds inline data:
    parts without it, text parts for one, are passed over, and when no part
    holds any the decoder throws its own error. *)
Theorem gemini_uses_first_inline_image parts w :
  ~ In JNull parts ->
  first_inline_image parts w
  = match choose inline_payload parts with
    | [] => throw (Error (lit "Gemini did not return an image")) w
    | data :: _ => Buffer_from (Some data) w
    end.
Proof.
  induction parts as [|part rest IH]; intros Hn; [reflexivity|].
  assert (Hp : part <> JNull) by (intros E; apply Hn; left; exact E).
  assert (Hr : ~ In JNull rest) by (intros H; apply Hn; right; exact H).
  rewrite choose_cons. cbn [first_inline_image].
  assert (E : prop part "inlineData" = Ok (get part "inlineData"))
    by (destruct part; try reflexivity; contradiction).
  rewrite E, bind_lift_run. cbv zeta. unfold inline_payload at 1.
  destruct (when_truthy (opt_get (get part "inlineData") "data")) as [data|] eqn:Ew.
  - destruct (when_truthy_some _ Ew) as [Ht Hv]. rewrite Ht, Hv. reflexivity.
  - rewrite (when_truthy_none _ Ew). apply IH. exact Hr.
Qed.

(** A part that is [null] stops the loop over the parts. *)
Lemma first_inline_image_null parts w :
  In JNull parts -> choose inline_payload parts = [] ->
  first_inline_image parts w = (Throw TypeError, w, []).
Proof.
  induction parts as [|part rest IH]; intros Hn Hc; [contradiction|].
  rewrite choose_cons in Hc. unfold inline_payload at 1 in Hc.
  cbn [first_inline_image].
  destruct (when_truthy (opt_get (get part "inlineData") "data")) as [data|] eqn:Ew;
    [discriminate Hc|].
  destruct part; try reflexivity;
    (destruct Hn as [Hn|Hn]; [discriminate Hn|]);
    unfold prop; rewrite bind_lift_run; cbv zeta;
    rewrite (when_truthy_none _ Ew); apply IH; assumption.
Qed.

(** X12. An answer of Gemini in which no part holds inline data fails the
    record, the call having been made once: with the error [Gemini did not
    return an image] when the answer has no candidate or no parts, or parts
    none of which is [null], text parts for one; with a [TypeError] when a
    part is [null], when the parts are neither a list nor a string, or when
    the answer itself is [null]. *)
Theorem gemini_answer_without_image inputBuffer bg w r w' t request response :
  enhanceImageWithGemini inputBuffer bg w = (r, w', t) ->
  In (GenerateContent request (inr response)) t ->
  t = [GenerateContent request (inr response)]
  /\ (response = JNull -> r = Throw TypeError)
  /\ (response <> JNull ->
      ((forall elems, iterate (response_parts response) <> Ok elems) -> r = Throw TypeError)
      /\ forall elems,
           iterate (response_parts response) = Ok elems ->
           choose inline_payload elems = [] ->
           (In JNull elems -> r = Throw TypeError)
           /\ (~ In JNull elems -> r = Throw (Error (lit "Gemini did not return an image")))).
Proof.
  unfold enhanceImageWithGemini. cbv zeta. rewrite bind_call_or_throw_run.
  destruct (generateContent _ w) as [[e|response'] w1].
  - intros H; inversion H; subst. intros [Hin|[]]. discriminate Hin.
  - intros Hrun Hin.
    assert (Hsame : response' = response /\ t = [GenerateContent request (inr response)]).
    { match type of Hrun with
      | (let (_, _) := ?m in _) = _ =>
          assert (Q : trace_of m = []);
          [ apply emits_nothing; emits_auto; apply first_inline_image_quiet
          | destruct m as [[r2 w2] t2] ]
      end.
      unfold trace_of in Q. simpl in Q. subst t2.
      inversion Hrun; subst. destruct Hin as [Hin|[]]. inversion Hin; subst.
      split; reflexivity. }
    destruct Hsame as [-> Ht]. split; [exact Ht|]. clear Hin Ht. split.
    + intros ->. simpl in Hrun. inversion Hrun. reflexivity.
    + intros Hne.
      assert (E : prop response "candidates" = Ok (get response "candidates"))
        by (destruct response; try reflexivity; contradiction).
      rewrite E, bind_lift_run in Hrun. fold (response_parts response) in Hrun.
      rewrite bind_lift_run in Hrun. split.
      * intros Hnot.
        assert (Ei : iterate (response_parts response) = Throw TypeError).
        { destruct (iterate (response_parts response)) as [elems|e|e|] eqn:Ei.
          - destruct (Hnot elems eq_refl).
          - unfold iterate in Ei. destruct (response_parts response); inversion Ei; reflexivity.
          - unfold iterate in Ei. destruct (response_parts response); discriminate Ei.
          - unfold iterate in Ei. destruct (response_parts response); discriminate Ei. }
        rewrite Ei in Hrun. inversion Hrun. reflexivity.
      * intros elems Ei Hnone. rewrite Ei in Hrun. split.
        -- intros Hnull. rewrite (first_inline_image_null elems w1 Hnull Hnone) in Hrun.
           inversion Hrun. reflexivity.
        -- intros Hnull. rewrite (first_inline_image_none elems w1 Hnull Hnone) in Hrun.
           simpl in Hrun. inversion Hrun. reflexivity.
Qed.

End Answers.

(* ================================================================= *)
(** ** The OpenRouter call *)

Section OpenRouterCall.
Context {R : Runtime}.

Lemma enhance_without_key promptText imageUrl bg w :
  process_env "OPENROUTER_API_KEY" = None \/ process_env "OPENROUTER_API_KEY" = Some [] ->
  enhanceImageWithOpenRouter promptText imageUrl bg w
  = (Throw (Error (lit "Missing OPENROUTER_API_KEY env var")), w, []).
Proof.
  intros [H|H]; unfold enhanceImageWithOpenRouter; rewrite H; reflexivity.
Qed.

Lemma iteration_without_key c item st :
  process_env "OPENROUTER_API_KEY" = None \/ process_env "OPENROUTER_API_KEY" = Some [] ->
  which c = OpenRouter ->
  emits offline_event (iteration c item st).
Proof.
  intros Hkey Hc w. rewrite iteration_run.
  destruct item; try (constructor; fail).
  all: destruct (ToString _); [|constructor].
  all: destruct (ToString _); [|constructor].
  all: destruct (when_truthy _) as [url|]; [|repeat constructor].
  all: rewrite attempt_run; cbv zeta.
  all: match goal with
       | |- context [downloadFile ?u ?p ?w0] =>
           pose proof (downloadFile_emits u p w0) as Hd;
           destruct (downloadFile u p w0) as [[[[]|e|e|] w1] t1]
       end.
  all: unfold trace_of in *; simpl in Hd.
  all: assert (Ht1 : Forall offline_event t1)
         by (eapply Forall_impl; [|exact Hd];
             intros [] He; simpl in He; try discriminate He; try exact I;
             match type of He with
             | match ?d with _ => _ end = _ => destruct d; discriminate He
             end).
  all: try (unfold enhance; rewrite Hc, (enhance_without_key _ _ _ _ Hkey)).
  all: simpl; rewrite ?app_nil_r; constructor; try exact I.
  all: try (apply Forall_app; split; [exact Ht1 | repeat constructor]); try exact Ht1.
Qed.

(** X13. Without [OPENROUTER_API_KEY], unset or empty, the OpenRouter call throws
    before any request is made, and a whole loop of the OpenRouter script
    sends nothing to the API, writes no image and appends no record,
    whatever it downloads. *)
Theorem openrouter_needs_its_key :
  process_env "OPENROUTER_API_KEY" = None \/ process_env "OPENROUTER_API_KEY" = Some [] ->
  (forall promptText imageUrl bg w,
     enhanceImageWithOpenRouter promptText imageUrl bg w
     = (Throw (Error (lit "Missing OPENROUTER_API_KEY env var")), w, []))
  /\ (forall c actions st w,
        which c = OpenRouter ->
        let t := trace_of (for_await c actions st w) in
        Forall offline_event t /\ pushes t = [] /\ written_images t = []).
Proof.
  intros Hkey. split.
  - intros. apply enhance_without_key. exact Hkey.
  - intros c actions st w Hc. cbv zeta.
    assert (H : Forall offline_event (trace_of (for_await c actions st w))).
    { apply for_await_emits; [|intros; exact I].
      intros item st'. apply iteration_without_key; assumption. }
    split; [exact H|].
    split; (eapply flat_map_nil_Forall; [|exact H]);
      intros [] He; simpl in He; try contradiction; reflexivity.
Qed.

(** X14. An answer of OpenRouter with a status that is not OK is never decoded:
    the call throws an error that names the status and holds the body of
    the answer (or the error of reading that body), and nothing is fetched
    after it. *)
Theorem openrouter_error_is_not_decoded
    promptText imageUrl bg w r w' t url headers body res :
  enhanceImageWithOpenRouter promptText imageUrl bg w = (r, w', t) ->
  In (Fetch (FetchPost url headers body) (inr res)) t ->
  res_ok res = false ->
  t = [Fetch (FetchPost url headers body) (inr res)]
  /\ r = match res_text res with
         | inl e => Throw e
         | inr errText =>
             Throw (Error (lit "OpenRouter error: " ++ decimal (res_status res) ++ lit " "
                             ++ res_statusText res ++ lit " - " ++ errText))
         end.
Proof.
  unfold enhanceImageWithOpenRouter.
  destruct (when_truthy _) as [[| | |apiKey| |]|];
    try (intros H; inversion H; subst; intros []).
  rewrite bind_call_or_throw_run.
  match goal with |- context [fetch ?req w] => set (request := req) end.
  destruct (fetch request w) as [[e|res'] w1].
  - intros H; inversion H; subst. intros [Hin|[]]. discriminate Hin.
  - destruct (res_ok res') eqn:Hok; simpl.
    + rewrite bind_lift_run. destruct (res_json res') as [e|json]; simpl.
      * intros H; inversion H; subst. intros [Hin|[]]. inversion Hin; subst. congruence.
      * pose proof (extract_emits json w1) as He.
        destruct (extractImageBufferFromOpenRouterResponse json w1) as [[r2 w2] t2].
        unfold trace_of in He. simpl in He.
        intros H; inversion H; subst. intros [Hin|Hin].
        -- inversion Hin; subst. congruence.
        -- rewrite Forall_forall in He. specialize (He _ Hin). discriminate He.
    + rewrite bind_lift_run.
      destruct (res_text res') as [e|errText] eqn:Et; simpl;
        intros H; inversion H; subst; (intros [Hin|[]]); inversion Hin; subst;
        intros _; rewrite Et; split; reflexivity.
Qed.

End OpenRouterCall.

(* ================================================================= *)
(** ** The background image *)

Section Background.
Context {R : Runtime}.

Lemma load_background_run b bgPath w :
  load_background b bgPath w =
  match fs_existsSync bgPath w with
  | (true, w1) =>
      match fs_readFileSync bgPath w1 with
      | (inl e, w2) => (Ok None, w2, [ExistsSync bgPath true; ReadFile bgPath (inl e)])
      | (inr bytes, w2) =>
          (Ok (Some match b with
                    | Gemini => base64_encode bytes
                    | OpenRouter => lit "data:image/png;base64," ++ base64_encode bytes
                    end),
           w2, [ExistsSync bgPath true; ReadFile bgPath (inr bytes)])
      end
  | (false, w1) =>
      (Ok None, w1,
       [ExistsSync bgPath false;
        ConsoleWarn [lit "Background image ./bg.png not found. Proceeding without background."]])
  end.
Proof.
  unfold load_background, bind at 1, call at 1.
  destruct (fs_existsSync bgPath w) as [[|] w1]; [|reflexivity].
  unfold try_catch. rewrite bind_call_or_throw_run.
  destruct (fs_readFileSync bgPath w1) as [[e|bytes] w2]; reflexivity.
Qed.

(** X15. The background image is optional: loading it never throws.  It is
    taken when, and only when, the file is there and can be read, as its
    base64 text for Gemini and as a PNG data URL of it for OpenRouter;
    a file that is missing is reported with a warning, one that cannot be
    read is passed over in silence. *)
Theorem background_is_optional b bgPath w :
  let run := load_background b bgPath w in
  (exists bg, result_of run = Ok bg)
  /\ (forall bytes,
        In (ReadFile bgPath (inr bytes)) (trace_of run) ->
        result_of run
        = Ok (Some match b with
                   | Gemini => base64_encode bytes
                   | OpenRouter => lit "data:image/png;base64," ++ base64_encode bytes
                   end))
  /\ ((forall bytes, ~ In (ReadFile bgPath (inr bytes)) (trace_of run)) ->
      result_of run = Ok None)
  /\ ((exists args, In (ConsoleWarn args) (trace_of run))
      <-> In (ExistsSync bgPath false) (trace_of run)).
Proof.
  cbv zeta. rewrite load_background_run.
  destruct (fs_existsSync bgPath w) as [[|] w1].
  - destruct (fs_readFileSync bgPath w1) as [[e|bytes] w2];
      unfold result_of, trace_of; simpl.
    + split; [eexists; reflexivity|]. split; [|split; [reflexivity|]].
      * intros bytes [H|[H|[]]]; discriminate H.
      * split; [intros [args [H|[H|[]]]]; discriminate H | intros [H|[H|[]]]; discriminate H].
    + split; [eexists; reflexivity|]. split; [|split].
      * intros bytes' [H|[H|[]]]; [discriminate H|]. inversion H; subst. reflexivity.
      * intros H. exfalso. apply (H bytes). right. left. reflexivity.
      * split; [intros [args [H|[H|[]]]]; discriminate H | intros [H|[H|[]]]; discriminate H].
  - unfold result_of, trace_of. simpl.
    split; [eexists; reflexivity|]. split; [|split; [reflexivity|]].
    + intros bytes [H|[H|[]]]; discriminate H.
    + split; [intros _; left; reflexivity|]. intros _. eexists. right. left. reflexivity.
Qed.

End Background.

(* ================================================================= *)
(** ** Records without names *)

Section Numbering.
Context {R : Runtime}.

Lemma uint_digits_safe u : Forall (fun c => safe_char c = true) (uint_digits u).
Proof. induction u; simpl; constructor; try reflexivity; assumption. Qed.

Lemma decimal_safe n : Forall (fun c => safe_char c = true) (decimal n).
Proof. apply uint_digits_safe. Qed.

Lemma toSafeFilename_app a b :
  toSafeFilename (a ++ b) = toSafeFilename a ++ toSafeFilename b.
Proof. rewrite !replace_unsafe_map. apply map_app. Qed.

Lemma toSafeFilename_safe s :
  Forall (fun c => safe_char c = true) s -> toSafeFilename s = s.
Proof.
  intros H. rewrite replace_unsafe_map.
  induction H as [|c s Hc _ IH]; simpl; [reflexivity|]. rewrite Hc, IH. reflexivity.
Qed.

(** X16. A record without brand and without name is filed under [brand_item_]
    and its number, which is its place among the lines that parsed so far:
    the lines that did not parse are not counted, the records skipped and
    the records that failed are. *)
Theorem unnamed_records_are_numbered c before item st0 w0 st w t0 :
  for_await c before st0 w0 = (Ok (Next, st), w, t0) ->
  truthy (get item "brand") = false -> truthy (get item "name") = false ->
  truthy (get item "imageUrl") = true ->
  attempts (trace_of (iteration c item st w))
  = [path_join (workingDir c)
       (lit "brand_item_" ++ decimal (S (index st0 + List.length (yielded before)))
          ++ lit ".jpg")].
Proof.
  intros Hb Hbrand Hname Hurl.
  destruct (loop_attempts_all _ _ _ _ Hb) as [_ Hi].
  destruct (truthy_get_object _ _ Hurl) as [fields ->].
  assert (Hbase : base_name (JObj fields) (S (index st))
                  = Some (lit "brand_item_" ++ decimal (S (index st)))).
  { unfold base_name, brand_of, name_of, or_else.
    destruct (get (JObj fields) "brand") as [vb|]; rewrite ?Hbrand;
      destruct (get (JObj fields) "name") as [vn|]; rewrite ?Hname;
      cbn [ToString]; f_equal;
      rewrite app_nil_r;
      change (lit "" ++ lit "brand" ++ lit "_" ++ lit "item_" ++ decimal (S (index st)))
        with (lit "brand_item_" ++ decimal (S (index st)));
      rewrite toSafeFilename_app;
      rewrite (toSafeFilename_safe (decimal_safe _)); reflexivity. }
  destruct (iteration c (JObj fields) st w) as [[r w1] t] eqn:E.
  apply iteration_pass in E. unfold trace_of. simpl.
  inversion E; subst.
  - match goal with H : _ \/ _ |- _ => destruct H as [H|H]; [discriminate H|] end.
    rewrite Hbase in *. discriminate.
  - congruence.
  - match goal with H : base_name _ _ = Some _ |- _ => rewrite Hbase in H; inversion H; subst end.
    match goal with H : attempts _ = _ |- _ => rewrite H end.
    unfold working_file, image_name. rewrite Hi. reflexivity.
  - match goal with H : base_name _ _ = Some _ |- _ => rewrite Hbase in H; inversion H; subst end.
    match goal with H : attempts _ = _ |- _ => rewrite H end.
    unfold working_file, image_name. rewrite Hi. reflexivity.
  - match goal with H : base_name _ _ = Some _ |- _ => rewrite Hbase in H; inversion H; subst end.
    match goal with H : attempts _ = _ |- _ => rewrite H end.
    unfold working_file, image_name. rewrite Hi. reflexivity.
  - match goal with H : base_name _ _ = Some _ |- _ => rewrite Hbase in H; inversion H; subst end.
    match goal with H : attempts _ = _ |- _ => rewrite H end.
    unfold working_file, image_name. rewrite Hi. reflexivity.
Qed.

End Numbering.

(* ================================================================= *)
(** ** What each script calls *)

Section Channels.
Context {R : Runtime}.

Lemma iteration_emits c (P : event -> Prop) item st :
  (forall url workingFile, emits P (enhance c url workingFile)) ->
  (forall e, step_of e = Some Download -> P e) ->
  (forall e, match e with
             | ConsoleLog _ | ConsoleWarn _ | ConsoleError _ _ | WriteFile _ _ _ | Push _ => P e
             | _ => True
             end) ->
  emits P (iteration c item st).
Proof.
  intros He Hd Hp. unfold iteration, attempt. cbv zeta.
  repeat first
    [ apply emits_ret | apply emits_lift
    | apply emits_emit;
      match goal with |- P ?e => exact (Hp e) end
    | apply emits_call_or_throw; intros;
      match goal with |- P ?e => exact (Hp e) end
    | eapply emits_weaken; [|apply downloadFile_emits]; exact Hd
    | apply He
    | apply emits_try_catch; [|intros ?]
    | apply emits_bind; [|intros ?]
    | match goal with |- emits _ (match ?x with _ => _ end) => destruct x end ].
Qed.

(** X17. Each script reaches its API in its own way.  The loop of the
    OpenRouter script never reads a downloaded file back and never calls
    the SDK: the API is given the URL of the image, not the file.  The loop
    of the Gemini script never calls [fetch]. *)
Theorem each_script_keeps_to_its_api c actions st w :
  (which c = OpenRouter ->
   Forall (fun e => gemini_only e = false) (trace_of (for_await c actions st w)))
  /\ (which c = Gemini ->
      Forall (fun e => openrouter_only e = false) (trace_of (for_await c actions st w))).
Proof.
  split; intros Hc.
  - apply for_await_emits; [|reflexivity]. intros item st'.
    apply iteration_emits.
    + intros url workingFile. unfold enhance. rewrite Hc.
      unfold enhanceImageWithOpenRouter.
      destruct (when_truthy _) as [[| | |apiKey| |]|]; try apply emits_throw.
      apply emits_bind; [apply emits_call_or_throw; reflexivity|].
      intros res. destruct (negb (res_ok res)); [emits_auto|].
      apply emits_bind; [apply emits_lift|]. intros json.
      eapply emits_weaken; [|apply extract_emits].
      intros [] H; simpl in H; try discriminate H; reflexivity.
    + intros [] H; simpl in H; try discriminate H; reflexivity.
    + intros []; try exact I; reflexivity.
  - apply for_await_emits; [|reflexivity]. intros item st'.
    apply iteration_emits.
    + intros url workingFile. unfold enhance. rewrite Hc.
      apply emits_bind; [apply emits_call_or_throw; reflexivity|].
      intros inputBuffer w0.
      destruct (gemini_trace inputBuffer (background c) w0) as [request [answer [E _]]].
      rewrite E. constructor; [reflexivity | constructor].
    + intros [] H; simpl in H; try discriminate H; try reflexivity.
      match type of H with
      | match ?d with _ => _ end = _ => destruct d; discriminate H
      end.
    + intros []; try exact I; reflexivity.
Qed.

End Channels.

(** X17 on the loop of the OpenRouter script over one record. *)
Lemma each_script_keeps_to_its_api_witness :
  Forall (fun e => gemini_only e = false)
    (trace_of (@for_await fair (sample_config OpenRouter None) [Yield item_a] start tt)).
Proof.
  apply (proj1 (@each_script_keeps_to_its_api fair (sample_config OpenRouter None)
                  [Yield item_a] start tt)).
  reflexivity.
Defined.

(* ================================================================= *)
(** ** The console *)

Section Logging.
Context {R : Runtime}.

Lemma staged_events_are_quiet (P : event -> Prop) t :
  (forall e, P e -> exists s, step_of e = Some s) ->
  Forall P t -> Forall (fun e => console e = false) t.
Proof.
  intros HP H. eapply Forall_impl; [|exact H].
  intros e He. destruct (HP e He) as [s Hs].
  destruct e; simpl in Hs; try discriminate Hs; reflexivity.
Qed.

(** X18. Every pass that tries a record, and is not cut short by an uncaught
    error, tells so on the console: its first event is the line [Began
    working on] with the file name, its last event is either the line
    [Completed work] with the same name, after the record was appended, or
    the one line of the failure, with no record appended; between the two
    nothing is written to the console. *)
Theorem every_attempt_is_logged c item st w ctl st' w' t :
  iteration c item st w = (Ok (ctl, st'), w', t) ->
  truthy (get item "imageUrl") = true ->
  exists baseName middle closing,
    base_name item (S (index st)) = Some baseName
    /\ t = ConsoleLog (lit "Began working on: " ++ image_name baseName) :: middle ++ [closing]
    /\ Forall (fun e => console e = false) middle
    /\ ((closing = ConsoleLog (lit "Completed work: " ++ image_name baseName)
         /\ pushes t = [output_record item (final_file c baseName)])
        \/ (exists line e, closing = ConsoleError line e /\ pushes t = [])).
Proof.
  intros Hrun Hurl. destruct (truthy_get_object _ _ Hurl) as [fields ->].
  rewrite iteration_run in Hrun.
  assert (Hw : when_truthy (get (JObj fields) "imageUrl") = get (JObj fields) "imageUrl")
    by (unfold when_truthy; rewrite Hurl; reflexivity).
  destruct (get (JObj fields) "imageUrl") as [url|] eqn:Eu; [|discriminate Hurl].
  destruct (ToString (brand_of (JObj fields))) as [b|] eqn:Eb; [|discriminate Hrun].
  destruct (ToString (name_of (JObj fields) (S (index st)))) as [n|] eqn:En;
    [|discriminate Hrun].
  rewrite Hw in Hrun. rewrite attempt_run in Hrun. cbv zeta in Hrun.
  set (baseName := toSafeFilename (lit "" ++ b ++ lit "_" ++ n ++ lit "")) in *.
  assert (Hbase : base_name (JObj fields) (S (index st)) = Some baseName)
    by (unfold base_name; rewrite Eb, En; reflexivity).
  fold (working_file c baseName) in Hrun. fold (final_file c baseName) in Hrun.
  exists baseName.
  destruct (downloadFile url (working_file c baseName) w) as [[[u|e|e|] w1] t1] eqn:Ed;
    destruct (download_trace_facts _ _ _ Ed) as [P1 _];
    pose proof (downloadFile_emits url (working_file c baseName) w) as Q1;
    rewrite Ed in Q1; unfold trace_of in Q1; simpl in Q1;
    apply (staged_events_are_quiet (P := fun e => step_of e = Some Download)) in Q1;
    try (intros ev Hev; eexists; exact Hev).
  - destruct (enhance c url (working_file c baseName) w1) as [[[buf|e|e|] w2] t2] eqn:Ee;
      destruct (enhance_trace_facts _ _ _ _ Ee) as [P2 _];
      pose proof (enhance_emits c url (working_file c baseName) w1) as Q2;
      rewrite Ee in Q2; unfold trace_of in Q2; simpl in Q2;
      apply (staged_events_are_quiet
               (P := fun e => step_of e = Some CallApi \/ step_of e = Some Decode)) in Q2;
      try (intros ev [Hev|Hev]; eexists; exact Hev).
    + destruct (fs_writeFileSync (final_file c baseName) (Bytes buf) w2) as [[e|u'] w3];
        inversion Hrun; subst; clear Hrun.
      * exists (t1 ++ t2 ++ [WriteFile (final_file c baseName) (Bytes buf) (inl e)]).
        eexists. split; [exact Hbase|]. split.
        { simpl. rewrite <- !app_assoc. reflexivity. }
        split.
        { apply Forall_app. split; [exact Q1|]. apply Forall_app. split; [exact Q2|].
          repeat constructor. }
        right. eexists. eexists. split; [reflexivity|].
        simpl. rewrite !pushes_app, P1, P2. reflexivity.
      * exists (t1 ++ t2 ++ [WriteFile (final_file c baseName) (Bytes buf) (inr u');
                             Push (output_record (JObj fields) (final_file c baseName))]).
        eexists. split; [exact Hbase|]. split.
        { simpl. f_equal. rewrite <- !app_assoc. reflexivity. }
        split.
        { apply Forall_app. split; [exact Q1|]. apply Forall_app. split; [exact Q2|].
          repeat constructor. }
        left. split; [reflexivity|].
        simpl. rewrite !pushes_app, P1, P2. reflexivity.
    + inversion Hrun; subst; clear Hrun.
      exists (t1 ++ t2). eexists. split; [exact Hbase|]. split.
      { simpl. rewrite <- !app_assoc. reflexivity. }
      split; [apply Forall_app; split; assumption|].
      right. eexists. eexists. split; [reflexivity|].
      simpl. rewrite !pushes_app, P1, P2. reflexivity.
    + discriminate Hrun.
    + discriminate Hrun.
  - inversion Hrun; subst; clear Hrun.
    exists t1. eexists. split; [exact Hbase|]. split; [reflexivity|].
    split; [exact Q1|].
    right. eexists. eexists. split; [reflexivity|].
    simpl. rewrite !pushes_app, P1. reflexivity.
  - discriminate Hrun.
  - discriminate Hrun.
Qed.

End Logging.

(** X18 on a record whose final file cannot be written. *)
Lemma every_attempt_is_logged_witness :
  let t := trace_of (@iteration full_disk (sample_config Gemini None) item_a start tt) in
  exists baseName middle closing,
    @base_name full_disk item_a 1 = Some baseName
    /\ t = ConsoleLog (lit "Began working on: " ++ image_name baseName) :: middle ++ [closing]
    /\ Forall (fun e => console e = false) middle
    /\ ((closing = ConsoleLog (lit "Completed work: " ++ image_name baseName)
         /\ pushes t = [output_record item_a
                          (@final_file full_disk (sample_config Gemini None) baseName)])
        \/ (exists line e, closing = ConsoleError line e /\ pushes t = [])).
Proof.
  cbv zeta.
  apply (@every_attempt_is_logged full_disk (sample_config Gemini None) item_a start tt
           Next (counted start) tt).
  - vm_compute. reflexivity.
  - reflexivity.
Defined.

(* ================================================================= *)
(** ** What the [catch] of the loop does not see *)

Section Uncaught.
Context {R : Runtime}.

Lemma catchable_ret {A} (a : A) : catchable (ret a).
Proof. intros w. split; [|intros e]; discriminate. Qed.

Lemma catchable_throw {A} e : catchable (@throw R A e).
Proof. intros w. split; [|intros e']; discriminate. Qed.

Lemma catchable_of_sum {A} (r : exn + A) : catchable (lift (of_sum r)).
Proof. intros w. destruct r; (split; [|intros e']); discriminate. Qed.

Lemma catchable_bind {A B} (m : M A) (f : A -> M B) :
  catchable m -> (forall a, catchable (f a)) -> catchable (bind m f).
Proof.
  intros Hm Hf w. unfold bind, result_of. specialize (Hm w). unfold result_of in Hm.
  destruct (m w) as [[[a|e1|e1|] w1] t1]; simpl in *.
  - specialize (Hf a w1). unfold result_of in Hf.
    destruct (f a w1) as [[r w2] t2]; simpl in *. exact Hf.
  - split; [|intros e]; discriminate.
  - exfalso. apply (proj2 Hm e1). reflexivity.
  - exfalso. apply (proj1 Hm). reflexivity.
Qed.

Lemma catchable_call_or_throw {A} (oracle : World -> (exn + A) * World) record :
  catchable (call_or_throw oracle record).
Proof.
  intros w. unfold call_or_throw, bind, call, lift, result_of.
  destruct (oracle w) as [[e1|a] w1]; (split; [|intros e]); discriminate.
Qed.

Lemma catchable_prop v k (f : jsval -> M Buffer) :
  (forall x, catchable (f x)) -> catchable (bind (lift (prop v k)) f).
Proof.
  intros Hf w. rewrite bind_lift_run.
  destruct v; simpl; try apply Hf. split; [|intros e]; discriminate.
Qed.

Lemma catchable_Buffer_from data : catchable (Buffer_from data).
Proof.
  unfold Buffer_from. destruct data as [[]|];
    first [apply catchable_ret | apply catchable_of_sum | apply catchable_throw].
Qed.

Lemma catchable_fetchImageAsBuffer url : catchable (fetchImageAsBuffer url).
Proof.
  unfold fetchImageAsBuffer. apply catchable_bind; [apply catchable_call_or_throw|].
  intros res. destruct (negb (res_ok res)); [apply catchable_throw | apply catchable_of_sum].
Qed.

Ltac catchable_auto :=
  repeat first
    [ apply catchable_ret | apply catchable_throw | apply catchable_of_sum
    | apply catchable_Buffer_from | apply catchable_fetchImageAsBuffer
    | apply catchable_call_or_throw
    | apply catchable_bind; [|intros ?]
    | match goal with |- catchable (match ?x with _ => _ end) => destruct x end
    | match goal with |- catchable (if ?x then _ else _) => destruct x end ].

Lemma catchable_first_inline_image parts : catchable (first_inline_image parts).
Proof.
  induction parts as [|part rest IH]; simpl; [apply catchable_throw|].
  apply catchable_prop. intros inlineData.
  destruct (truthy _); [apply catchable_Buffer_from | exact IH].
Qed.

Lemma catchable_scan_images images : catchable (scan_images images).
Proof.
  induction images as [|img rest IH]; simpl; [apply catchable_ret|].
  repeat first [ exact IH | progress catchable_auto ].
Qed.

Lemma catchable_scan_content content : catchable (scan_content content).
Proof.
  induction content as [|part rest IH]; simpl; [apply catchable_ret|].
  apply catchable_bind; [unfold output_image_case; catchable_auto|].
  intros found. repeat first [ exact IH | progress catchable_auto ].
Qed.

Lemma catchable_enhance c url workingFile : catchable (enhance c url workingFile).
Proof.
  unfold enhance. destruct (which c).
  - apply catchable_bind; [apply catchable_call_or_throw|]. intros inputBuffer.
    unfold enhanceImageWithGemini. cbv zeta.
    apply catchable_bind; [apply catchable_call_or_throw|]. intros response.
    apply catchable_prop. intros candidates.
    intros w. rewrite bind_lift_run.
    unfold iterate. destruct (or_else _ _);
      try (split; [|intros e]; discriminate);
      apply catchable_first_inline_image.
  - unfold enhanceImageWithOpenRouter, extractImageBufferFromOpenRouterResponse.
    repeat first
      [ apply catchable_scan_images | apply catchable_scan_content
      | progress catchable_auto ].
Qed.

(** A download that does not settle has not streamed to the file; and the
    ways in which it ends the process. *)
Lemma downloadFile_unsettled url destPath w r w' t :
  downloadFile url destPath w = (r, w', t) ->
  (r = Pending \/ exists e, r = Fatal e) ->
  (forall path, ~ In (StreamToFile path) t)
  /\ forall e, r = Fatal e ->
       (exists location, In (HttpsGet (JStr location) (RequestThrows e)) t)
       \/ (e = TypeError /\ ToString url = None)
       \/ In (WriteStreamError destPath e) t.
Proof.
  rewrite downloadFile_run.
  destruct (https_get url w) as [reply w1]. cbv zeta.
  destruct (fs_createWriteStream destPath w1) as [[e'|[]] w2].
  { intros H _; inversion H; subst. split.
    - intros path [Hin|[Hin|[Hin|[]]]]; discriminate Hin.
    - intros e He. inversion He; subst. right. right. right. right. left. reflexivity. }
  assert (Hend : forall (on_error : bool -> exn -> M unit) (unlinks : bool -> bool)
                        status w0 r0 w0' t0,
            (forall first err w3,
               on_error first err w3
               = (Throw err, w3, if unlinks first then [Unlink destPath] else [])) ->
            (if is_failure status then download_error url status
             else pipe_to_file destPath on_error) w0
            = (r0, w0', t0) ->
            (r0 = Pending \/ exists e, r0 = Fatal e) ->
            (forall path, ~ In (StreamToFile path) t0)
            /\ forall e, r0 = Fatal e ->
                 (e = TypeError /\ ToString url = None) \/ In (WriteStreamError destPath e) t0).
  { intros on_error unlinks status w0 r0 w0' t0 Hh.
    rewrite (download_end_run _ _ _ unlinks _ _ Hh).
    destruct (is_failure status).
    - intros H _; inversion H; subst.
      split; [intros path []|].
      destruct (ToString url); intros e He; inversion He; subst.
      left. split; reflexivity.
    - destruct (stream_pipe destPath w0) as [[|e0|first e0|] w5]; intros H Hr; inversion H; subst.
      + destruct Hr as [Hr|[e Hr]]; discriminate Hr.
      + split; [intros path [Hin|[]]; discriminate Hin|].
        intros e He. inversion He; subst. right. left. reflexivity.
      + destruct Hr as [Hr|[e Hr]]; discriminate Hr.
      + split; [intros path []|]. intros e He. discriminate He. }
  destruct reply as [e0|e0|status location].
  - intros H Hr; inversion H; subst; destruct Hr as [Hr|[e Hr]]; discriminate Hr.
  - intros H Hr; inversion H; subst; destruct Hr as [Hr|[e Hr]]; discriminate Hr.
  - destruct (is_redirect status location) as [l|].
    + destruct (https_get (JStr l) w2) as [[e0|e0|status' location'] w3].
      * intros H _; inversion H; subst. split.
        -- intros path [Hin|[Hin|[Hin|[]]]]; discriminate Hin.
        -- intros e He. inversion He; subst. left. exists l. right. right. left. reflexivity.
      * intros H Hr; inversion H; subst; destruct Hr as [Hr|[e Hr]]; discriminate Hr.
      * match goal with
        | |- (let (_, _) := ?m in _) = _ -> _ => destruct m as [[r4 w4] t4] eqn:E4
        end.
        intros H Hr; inversion H; subst.
        destruct (Hend (fun first err =>
                          if first then emit (Unlink destPath) ;; throw err else throw err)
                    (fun first : bool => first) status' w3 r w' t4) as [Hno Hf];
          [intros [|] err w5; reflexivity | exact E4 | exact Hr |].
        split.
        -- intros path [Hin|[Hin|[Hin|Hin]]]; try discriminate Hin. exact (Hno _ Hin).
        -- intros e He. destruct (Hf e He) as [Hc|Hc]; [right; left; exact Hc|].
           right. right. right. right. right. exact Hc.
    + match goal with
      | |- (let (_, _) := ?m in _) = _ -> _ => destruct m as [[r4 w4] t4] eqn:E4
      end.
      intros H Hr; inversion H; subst.
      destruct (Hend (fun _ err => emit (Unlink destPath) ;; throw err)
                  (fun _ : bool => true) status w2 r w' t4) as [Hno Hf];
        [intros first err w5; reflexivity | exact E4 | exact Hr |].
      split.
      * intros path [Hin|[Hin|Hin]]; try discriminate Hin. exact (Hno _ Hin).
      * intros e He. destruct (Hf e He) as [Hc|Hc]; [right; left; exact Hc|].
        right. right. right. right. exact Hc.
Qed.

(** X19. The [catch] of the loop sees every error of a pass but these.  A
    pass throws past it only a [TypeError], before anything is logged, for
    a record that is [null] or whose brand or name cannot be put in a
    string.  A pass is ended by an error raised inside a callback only in
    the download: when the request to the [Location] of a redirect throws,
    when the URL cannot be put in the message of a refused status, or when
    the write stream of the working file emits ['error'], its file being
    impossible to open or to write.  And a pass never ends only in the
    download, when the body of the answer breaks off.  In all these the
    download has not streamed to its end and no later stage has run: the
    API calls, the decoders and the write of the final file never end a
    pass that way. *)
Theorem what_the_catch_does_not_see c item st w r w' t :
  iteration c item st w = (r, w', t) ->
  (forall e, r = Throw e -> e = TypeError /\ well_formed item = false /\ t = [])
  /\ (forall e, r = Fatal e ->
      exists url,
        when_truthy (get item "imageUrl") = Some url
        /\ ((exists location, In (HttpsGet (JStr location) (RequestThrows e)) t)
            \/ (e = TypeError /\ ToString url = None)
            \/ (exists path, In (WriteStreamError path e) t)))
  /\ (r = Pending \/ (exists e, r = Fatal e) ->
      truthy (get item "imageUrl") = true
      /\ ~ download_completed t
      /\ forall s, In s (steps t) -> s = Download).
Proof.
  rewrite iteration_run. intros Hrun.
  assert (Hquiet : forall e0 : exn, r = Throw e0 -> t = [] ->
            (forall e, r = Fatal e ->
               exists url,
                 when_truthy (get item "imageUrl") = Some url
                 /\ ((exists location, In (HttpsGet (JStr location) (RequestThrows e)) t)
                     \/ (e = TypeError /\ ToString url = None)
                     \/ (exists path, In (WriteStreamError path e) t)))
            /\ (r = Pending \/ (exists e, r = Fatal e) ->
                truthy (get item "imageUrl") = true
                /\ ~ download_completed t
                /\ forall s, In s (steps t) -> s = Download)).
  { intros e0 -> ->. split; [intros e He; discriminate He|].
    intros [H|[e H]]; discriminate H. }
  destruct item as [| | | | |fields];
    try (inversion Hrun; subst;
         split; [intros e He; inversion He; subst; repeat split
                | first [ apply (Hquiet TypeError eq_refl eq_refl)
                        | split; [intros e He; discriminate He
                                 | intros [H|[e H]]; discriminate H] ]]; fail).
  assert (Hbrand : ToString (brand_of (JObj fields)) = None ->
                   printable (get (JObj fields) "brand") = false).
  { unfold brand_of, or_else, printable.
    destruct (get (JObj fields) "brand") as [x|]; [|discriminate].
    destruct (truthy (Some x)); [|discriminate]. intros ->. reflexivity. }
  assert (Hname : ToString (name_of (JObj fields) (S (index st))) = None ->
                  printable (get (JObj fields) "name") = false).
  { unfold name_of, or_else, printable.
    destruct (get (JObj fields) "name") as [x|]; [|discriminate].
    destruct (truthy (Some x)); [|discriminate]. intros ->. reflexivity. }
  destruct (ToString (brand_of (JObj fields))) as [b|] eqn:Eb.
  2:{ inversion Hrun; subst. split; [|apply (Hquiet TypeError eq_refl eq_refl)].
      intros e He. inversion He; subst. repeat split.
      unfold well_formed. rewrite (Hbrand eq_refl). reflexivity. }
  destruct (ToString (name_of (JObj fields) (S (index st)))) as [n|] eqn:En.
  2:{ inversion Hrun; subst. split; [|apply (Hquiet TypeError eq_refl eq_refl)].
      intros e He. inversion He; subst. repeat split.
      unfold well_formed. rewrite (Hname eq_refl). apply andb_false_r. }
  clear Hquiet.
  assert (Hsettled : forall a, r = Ok a ->
            (forall e, r = Throw e -> e = TypeError /\ well_formed (JObj fields) = false /\ t = [])
            /\ (forall e, r = Fatal e ->
                exists url,
                  when_truthy (get (JObj fields) "imageUrl") = Some url
                  /\ ((exists location, In (HttpsGet (JStr location) (RequestThrows e)) t)
                      \/ (e = TypeError /\ ToString url = None)
                      \/ (exists path, In (WriteStreamError path e) t)))
            /\ (r = Pending \/ (exists e, r = Fatal e) ->
                truthy (get (JObj fields) "imageUrl") = true
                /\ ~ download_completed t
                /\ forall s, In s (steps t) -> s = Download)).
  { intros a ->. split; [intros e He; discriminate He|].
    split; [intros e He; discriminate He|]. intros [H|[e H]]; discriminate H. }
  destruct (when_truthy (get (JObj fields) "imageUrl")) as [url|] eqn:Eu.
  2:{ inversion Hrun; subst. eapply Hsettled. reflexivity. }
  destruct (when_truthy_some _ Eu) as [Ht _].
  rewrite attempt_run in Hrun. cbv zeta in Hrun.
  set (workingFile := path_join (workingDir c)
         (image_name (toSafeFilename (lit "" ++ b ++ lit "_" ++ n ++ lit "")))) in *.
  pose proof (downloadFile_emits url workingFile w) as Hd.
  destruct (downloadFile url workingFile w) as [[[u|e1|e1|] w1] t1] eqn:Ed;
    unfold trace_of in Hd; simpl in Hd.
  - pose proof (@catchable_enhance c url workingFile w1) as Hc.
    unfold result_of in Hc.
    destruct (enhance c url workingFile w1) as [[[buf|e2|e2|] w2] t2].
    + destruct (fs_writeFileSync _ (Bytes buf) w2) as [[e3|u3] w3];
        inversion Hrun; subst; eapply Hsettled; reflexivity.
    + inversion Hrun; subst. eapply Hsettled; reflexivity.
    + exfalso. apply (proj2 Hc e2). reflexivity.
    + exfalso. apply (proj1 Hc). reflexivity.
  - inversion Hrun; subst. eapply Hsettled; reflexivity.
  - inversion Hrun; subst. clear Hsettled.
    destruct (downloadFile_unsettled _ _ _ Ed) as [Hno Hf];
      [right; exists e1; reflexivity|].
    split; [intros e He; discriminate He|]. split.
    + intros e He. inversion He; subst. exists url. split; [reflexivity|].
      destruct (Hf e eq_refl) as [[location Hin]|[[H1 H2]|Hin]].
      * left. exists location. right. exact Hin.
      * right. left. split; assumption.
      * right. right. exists workingFile. right. exact Hin.
    + intros _. split; [exact Ht|]. split.
      * intros [path [Hin|Hin]]; [discriminate Hin | exact (Hno _ Hin)].
      * intros s Hs. simpl in Hs. apply (steps_of_download Hd) in Hs.
        destruct s; simpl in Hs; try discriminate Hs; reflexivity.
  - inversion Hrun; subst. clear Hsettled.
    destruct (downloadFile_unsettled _ _ _ Ed) as [Hno _]; [left; reflexivity|].
    split; [intros e He; discriminate He|]. split; [intros e He; discriminate He|].
    intros _. split; [exact Ht|]. split.
    + intros [path [Hin|Hin]]; [discriminate Hin | exact (Hno _ Hin)].
    + intros s Hs. simpl in Hs. apply (steps_of_download Hd) in Hs.
      destruct s; simpl in Hs; try discriminate Hs; reflexivity.
Qed.

End Uncaught.

(** X19 on a working file that cannot be opened. *)
Lemma what_the_catch_does_not_see_witness :
  let e := Error (lit "ENAMETOOLONG: name too long") in
  let t := trace_of (@iteration unopenable (sample_config Gemini None) item_a start tt) in
  exists url,
    when_truthy (get item_a "imageUrl") = Some url
    /\ ((exists location, In (HttpsGet (JStr location) (RequestThrows e)) t)
        \/ (e = TypeError /\ @ToString unopenable url = None)
        \/ (exists path, In (WriteStreamError path e) t)).
Proof.
  cbv zeta.
  refine (proj1 (proj2 (@what_the_catch_does_not_see unopenable (sample_config Gemini None)
                          item_a start tt
                          (Fatal (Error (lit "ENAMETOOLONG: name too long"))) tt _ _))
            (Error (lit "ENAMETOOLONG: name too long")) eq_refl).
  vm_compute. reflexivity.
Defined.

(* ================================================================= *)
(** ** The menu *)

Lemma digit_not_white c : digit c = true -> white_space c = false.
Proof.
  unfold digit, between. intros H.
  apply andb_true_iff in H. destruct H as [H1 H2].
  apply N.leb_le in H1, H2.
  assert (Hlow : between 9 13 c = false).
  { unfold between. apply andb_false_iff. right. apply N.leb_gt. lia. }
  assert (Hhigh : between 8192 8202 c = false).
  { unfold between. apply andb_false_iff. left. apply N.leb_gt. lia. }
  assert (Hother : forall k, k < 48 \/ 57 < k -> (c =? k) = false).
  { intros k Hk. apply N.eqb_neq. lia. }
  unfold white_space. rewrite Hlow, Hhigh. rewrite !Hother by lia. reflexivity.
Qed.

Lemma skip_class_none (class : code_unit -> bool) s :
  match s with c :: _ => class c = false | [] => True end -> skip_class class s = s.
Proof. destruct s as [|c rest]; simpl; [reflexivity|]. intros ->. reflexivity. Qed.

Lemma trim_digits s : forallb digit s = true -> trim s = s.
Proof.
  intros H. unfold trim.
  assert (Hall : forall c, In c s -> white_space c = false).
  { intros c Hc. apply digit_not_white. rewrite forallb_forall in H. apply H. exact Hc. }
  rewrite (skip_class_none white_space s).
  - rewrite (skip_class_none white_space (rev s)); [apply rev_involutive|].
    destruct (rev s) as [|c rest] eqn:E; [exact I|].
    apply Hall. apply in_rev. rewrite E. left. reflexivity.
  - destruct s as [|c rest]; [exact I|]. apply Hall. left. reflexivity.
Qed.

Lemma forallb_removelast {A} (f : A -> bool) l :
  forallb f l = true -> forallb f (removelast l) = true.
Proof.
  induction l as [|x l IH]; [reflexivity|]. intros H.
  apply andb_true_iff in H. destruct H as [Hx Hl].
  destruct l as [|y l]; [reflexivity|].
  change (removelast (x :: y :: l)) with (x :: removelast (y :: l)).
  simpl. rewrite Hx. apply IH. exact Hl.
Qed.

Lemma length_removelast_le {A} (l : list A) :
  (List.length (removelast l) <= List.length l)%nat.
Proof.
  induction l as [|x l IH]; [simpl; lia|].
  destruct l as [|y l]; [simpl; lia|].
  change (removelast (x :: y :: l)) with (x :: removelast (y :: l)).
  simpl in *. lia.
Qed.

Lemma one_digit_inv input : one_digit input = true -> exists c, input = [c] /\ digit c = true.
Proof.
  destruct input as [|c [|d rest]]; try discriminate.
  intros H. exists c. split; [reflexivity | exact H].
Qed.

Lemma kept_initial : kept initial_app.
Proof.
  unfold kept, initial_app. simpl. repeat split; try lia; try discriminate; auto.
Qed.

(** A choice of the menu that is kept: its entry, by cases. *)
Lemma selected_cases s :
  (selected s < List.length options)%nat ->
  selected s = 0%nat \/ selected s = 1%nat \/ selected s = 2%nat.
Proof. simpl. lia. Qed.

Lemma kept_child_exited n code s : kept s -> kept (child_exited n code s).
Proof.
  intros K. unfold child_exited.
  destruct (nth_error (children s) n) as [[command args]|] eqn:E; [|exact K].
  destruct K as [K1 [K2 [K3 [K4 [K5 [K6 K7]]]]]].
  assert (Hrun : running s = true).
  { destruct (running s) eqn:Er; [reflexivity|].
    rewrite (K5 eq_refl) in E. destruct n; discriminate E. }
  destruct (K6 Hrun) as [child Hc].
  unfold kept. simpl.
  split; [exact K1|]. split; [reflexivity|]. split; [lia|].
  split; [intros Ha; destruct (K4 Ha) as [Hr _]; congruence|].
  split; [|split; [discriminate | reflexivity]].
  intros _. rewrite Hc in *. destruct n as [|n]; [reflexivity|].
  destruct n; discriminate E.
Qed.

Ltac kept_auto :=
  unfold kept; simpl; repeat split; intros;
  try assumption; try lia; try discriminate; try congruence; try tauto;
  try (eexists; reflexivity).

Lemma kept_useInput input k s s' effects :
  kept s -> useInput input k s = Some (s', effects) -> kept s'.
Proof.
  intros K. pose proof K as [K1 [K2 [K3 [K4 [K5 [K6 K7]]]]]].
  unfold useInput. destruct (askLimit s) eqn:Ea.
  - destruct (K4 eq_refl) as [Hr Hs].
    destruct (return_key k).
    + unfold start_script.
      assert (Hsel : selected s = 0%nat \/ selected s = 1%nat) by lia.
      rewrite (K5 Hr).
      destruct Hsel as [-> | ->]; simpl; intros H; inversion H; subst; clear H;
        kept_auto.
    + destruct (backspace k || delete k).
      * intros H; inversion H; subst; clear H.
        pose proof (forallb_removelast digit _ K2).
        pose proof (length_removelast_le (limitInput s)).
        kept_auto.
      * destruct (one_digit input) eqn:Ed.
        -- destruct (one_digit_inv _ Ed) as [c [-> Hc]].
           intros H; inversion H; subst; clear H.
           destruct (List.length (limitInput s) <? 6)%nat eqn:El.
           ++ apply Nat.ltb_lt in El.
              assert (forallb digit (limitInput s ++ [c]) = true)
                by (rewrite forallb_app, K2; simpl; rewrite Hc; reflexivity).
              assert (List.length (limitInput s ++ [c]) <= 6)%nat
                by (rewrite length_app; simpl; lia).
              kept_auto.
           ++ kept_auto.
        -- destruct (escape k); intros H; inversion H; subst; clear H; [|exact K].
           kept_auto.
  - destruct (upArrow k).
    + intros H; inversion H; subst; clear H.
      assert ((if (0 <? selected s)%nat then (selected s - 1)%nat
               else (List.length options - 1)%nat) < List.length options)%nat
        by (destruct (0 <? selected s)%nat; simpl in *; lia).
      kept_auto.
    + destruct (downArrow k).
      * intros H; inversion H; subst; clear H.
        assert (((selected s + 1) mod List.length options) < List.length options)%nat
          by (apply Nat.mod_upper_bound; discriminate).
        kept_auto.
      * destruct (return_key k); [|intros H; inversion H; subst; exact K].
        unfold onEnter. destruct (running s) eqn:Er;
          [intros H; inversion H; subst; exact K|].
        destruct (selected_cases _ K1) as [Hs|[Hs|Hs]]; rewrite Hs; simpl;
          intros H; inversion H; subst; clear H; try exact K;
          pose proof (K7 eq_refl eq_refl) as Hli; rewrite Hli in *; kept_auto.
Qed.

Lemma useInput_total input k s : kept s -> exists s' effects, useInput input k s = Some (s', effects).
Proof.
  intros [K1 [K2 [K3 [K4 [K5 [K6 K7]]]]]].
  unfold useInput.
  destruct (askLimit s) eqn:Ea.
  - destruct (K4 eq_refl) as [Hr Hs].
    destruct (return_key k).
    + unfold start_script.
      assert (Hsel : selected s = 0%nat \/ selected s = 1%nat) by lia.
      destruct Hsel as [-> | ->]; simpl; eexists; eexists; reflexivity.
    + destruct (backspace k || delete k); [eexists; eexists; reflexivity|].
      destruct (one_digit input); [eexists; eexists; reflexivity|].
      destruct (escape k); eexists; eexists; reflexivity.
  - destruct (upArrow k); [eexists; eexists; reflexivity|].
    destruct (downArrow k); [eexists; eexists; reflexivity|].
    destruct (return_key k); [|eexists; eexists; reflexivity].
    unfold onEnter. destruct (running s); [eexists; eexists; reflexivity|].
    destruct (selected_cases _ K1) as [Hs|[Hs|Hs]]; rewrite Hs; simpl;
      eexists; eexists; reflexivity.
Qed.

Lemma kept_handle ev s :
  kept s -> exists s' effects, handle ev s = Some (s', effects) /\ kept s'.
Proof.
  intros K. destruct ev as [input k|n code]; simpl.
  - destruct (useInput_total input k K) as [s' [effects E]].
    exists s', effects. split; [exact E|]. apply (kept_useInput _ _ K E).
  - eexists. eexists. split; [reflexivity|]. apply kept_child_exited. exact K.
Qed.

(** X20. The menu never fails, and every state it reaches keeps the selection
    inside the menu, the typed limit at six digits at most, and one script
    running at most, none while the prompt is open. *)
Theorem menu_keeps_its_state events :
  exists s effects, session events initial_app = Some (s, effects) /\ kept s.
Proof.
  pose proof kept_initial as K. revert K. generalize initial_app as s.
  induction events as [|ev rest IH]; intros s K; simpl.
  - exists s, []. split; [reflexivity | exact K].
  - destruct (kept_handle ev K) as [s1 [effects [E K1]]]. rewrite E.
    destruct (exits effects); [exists s1, effects; split; [reflexivity | exact K1]|].
    destruct (IH s1 K1) as [s2 [later [E2 K2]]]. rewrite E2.
    exists s2, (effects ++ later). split; [reflexivity | exact K2].
Qed.

Lemma spawns_app a b : spawns (a ++ b) = spawns a ++ spawns b.
Proof. apply flat_map_app. Qed.

Lemma start_script_command s s' effects :
  kept s -> askLimit s = true -> start_script s = Some (s', effects) ->
  effects = [Spawn (lit "pnpm")
               ([lit "run"; script_of (selected s)] ++ limit_args (limitInput s))]
  /\ running s' = true
  /\ batch_command (lit "pnpm")
       ([lit "run"; script_of (selected s)] ++ limit_args (limitInput s)).
Proof.
  intros [K1 [K2 [K3 [K4 _]]]] Ha. destruct (K4 Ha) as [_ Hs].
  unfold start_script. rewrite (trim_digits _ K2).
  assert (Hb : batch_command (lit "pnpm")
                 ([lit "run"; script_of (selected s)] ++ limit_args (limitInput s))).
  { split; [reflexivity|]. exists (script_of (selected s)). split.
    - destruct (selected s) as [|[|n]]; [left | right | lia]; reflexivity.
    - unfold limit_args. destruct (nonempty (limitInput s)) eqn:En; [|left; reflexivity].
      right. exists (limitInput s). repeat split; try assumption.
      intros E. rewrite E in En. discriminate En. }
  assert (Hsel : selected s = 0%nat \/ selected s = 1%nat) by lia.
  destruct Hsel as [E|E]; rewrite E in *; simpl;
    intros H; inversion H; subst; clear H; (split; [reflexivity | split; [reflexivity | exact Hb]]).
Qed.

(** One event: the commands it starts, and the slots it leaves. *)
Lemma handle_spawns ev s s' effects :
  kept s -> handle ev s = Some (s', effects) ->
  Forall (fun child => batch_command (fst child) (snd child)) (spawns effects)
  /\ (List.length (spawns effects) + free_slots s' <= free_slots s + exit_count ev)%nat.
Proof.
  intros K. pose proof K as [K1 [K2 [K3 [K4 [K5 [K6 K7]]]]]].
  assert (Hquiet : forall s1 : app_state, running s1 = running s ->
            Forall (fun child => batch_command (fst child) (snd child)) (spawns [])
            /\ (List.length (spawns []) + free_slots s1
                <= free_slots s + exit_count ev)%nat).
  { intros s1 E. split; [constructor|]. unfold free_slots. rewrite E. simpl. lia. }
  destruct ev as [input k|n code]; simpl.
  - unfold useInput. destruct (askLimit s) eqn:Ea.
    + destruct (K4 eq_refl) as [Hr _].
      destruct (return_key k).
      * intros H. destruct (start_script_command K Ea H) as [-> [Hr' Hb]].
        unfold free_slots. rewrite Hr, Hr'. simpl. split; [|lia].
        constructor; [exact Hb | constructor].
      * destruct (backspace k || delete k);
          [intros H; inversion H; subst; apply Hquiet; reflexivity|].
        destruct (one_digit input);
          [intros H; inversion H; subst; apply Hquiet; reflexivity|].
        destruct (escape k); intros H; inversion H; subst; apply Hquiet; reflexivity.
    + destruct (upArrow k);
        [intros H; inversion H; subst; apply Hquiet; reflexivity|].
      destruct (downArrow k);
        [intros H; inversion H; subst; apply Hquiet; reflexivity|].
      destruct (return_key k);
        [|intros H; inversion H; subst; apply Hquiet; reflexivity].
      unfold onEnter. destruct (running s) eqn:Er;
        [intros H; inversion H; subst; apply Hquiet; exact Er|].
      destruct (nth_error options (selected s)) as [opt|]; [|discriminate].
      destruct (str_eqb (option_id opt) (lit "quit"));
        intros H; inversion H; subst; unfold free_slots; simpl; rewrite ?Er;
        (split; [constructor | simpl; lia]).
  - intros H; inversion H; subst. simpl. split; [constructor|].
    unfold child_exited, free_slots.
    destruct (nth_error (children s) n) as [[command args]|]; simpl;
      destruct (running s); lia.
Qed.

(** X21. Whatever the keys pressed, the menu starts nothing but [pnpm run] with
    one of its two scripts, followed by nothing or by [--limit] and one to
    six digits; and it starts a script only when the one before has exited:
    at most one more command than children have exited. *)
Theorem menu_starts_batch_commands events s effects :
  session events initial_app = Some (s, effects) ->
  Forall (fun child => batch_command (fst child) (snd child)) (spawns effects)
  /\ (List.length (spawns effects) <= S (child_exits events))%nat.
Proof.
  assert (Hall : forall s0, kept s0 -> session events s0 = Some (s, effects) ->
            Forall (fun child => batch_command (fst child) (snd child)) (spawns effects)
            /\ (List.length (spawns effects) + free_slots s
                <= free_slots s0 + child_exits events)%nat).
  { revert s effects. induction events as [|ev rest IH]; intros s effects s0 K; simpl.
    - intros H; inversion H; subst. simpl.
      split; [constructor | unfold child_exits; simpl; lia].
    - destruct (kept_handle ev K) as [s1 [eff [E K1]]]. rewrite E.
      destruct (handle_spawns _ K E) as [Hb Hn].
      assert (Hc : child_exits (ev :: rest) = (exit_count ev + child_exits rest)%nat).
      { unfold child_exits. simpl. destruct ev; reflexivity. }
      destruct (exits eff).
      + intros H; inversion H; subst. split; [exact Hb | lia].
      + destruct (session rest s1) as [[s2 later]|] eqn:E2; [|discriminate].
        destruct (IH _ _ _ K1 E2) as [Hb2 Hn2].
        intros H; inversion H; subst. rewrite spawns_app, length_app.
        split; [apply Forall_app; split; assumption | lia]. }
  intros H. destruct (Hall _ kept_initial H) as [Hb Hn].
  split; [exact Hb|]. unfold free_slots in Hn at 2. simpl in Hn. lia.
Qed.

Lemma session_quiet ev rest s s1 :
  handle ev s = Some (s1, []) -> session (ev :: rest) s = session rest s1.
Proof.
  intros E. simpl. rewrite E. simpl.
  destruct (session rest s1) as [[s2 later]|]; reflexivity.
Qed.

Lemma firstn_app_full {A} n (l l' : list A) :
  (n <= List.length l)%nat -> firstn n (l ++ l') = firstn n l.
Proof.
  intros H. rewrite firstn_app.
  replace (n - List.length l)%nat with 0%nat by lia.
  simpl. apply app_nil_r.
Qed.

(** Digits typed at the prompt: the first six are kept. *)
Lemma session_typing typed rest sel st run chi l :
  (List.length l <= 6)%nat -> forallb digit typed = true ->
  session (map (fun d => KeyPress [d] plain) typed ++ rest)
    {| selected := sel; status := st; running := run; askLimit := true;
       limitInput := l; children := chi |}
  = session rest
      {| selected := sel; status := st; running := run; askLimit := true;
         limitInput := firstn 6 (l ++ typed); children := chi |}.
Proof.
  revert l. induction typed as [|d typed IH]; intros l Hl Hd.
  - rewrite app_nil_r, firstn_all2 by exact Hl. reflexivity.
  - simpl in Hd. apply andb_true_iff in Hd. destruct Hd as [Hd Ht].
    cbn [map app]. erewrite session_quiet.
    2:{ simpl. unfold useInput. cbn [askLimit return_key backspace delete plain orb limitInput].
        cbn [one_digit]. fold (digit d). rewrite Hd. reflexivity. }
    cbn [selected status running children].
    destruct (List.length l <? 6)%nat eqn:E.
    + apply Nat.ltb_lt in E. rewrite IH by (rewrite ?length_app; simpl; try lia; exact Ht).
      rewrite <- app_assoc. reflexivity.
    + apply Nat.ltb_ge in E. rewrite IH by (try lia; exact Ht).
      rewrite !firstn_app_full by lia. reflexivity.
Qed.

Lemma forallb_firstn {A} (f : A -> bool) n l :
  forallb f l = true -> forallb f (firstn n l) = true.
Proof.
  revert n. induction l as [|x l IH]; intros [|n] H; try reflexivity.
  simpl in *. apply andb_true_iff in H. destruct H as [Hx Hl].
  rewrite Hx. apply IH. exact Hl.
Qed.

(** X22. A round at the prompt: the digits typed, Enter, and the exit of the
    script.  The first six digits are the limit passed to the script of the
    choice, after [--limit], and no argument is passed when there is none;
    when the script exits the status tells how, the prompt is closed and
    empty, and the selection is as before. *)
Theorem prompt_round s typed input code :
  kept s -> askLimit s = true -> forallb digit typed = true ->
  let digits := firstn 6 (limitInput s ++ typed) in
  let args := [lit "run"; script_of (selected s)] ++ limit_args digits in
  session (map (fun d => KeyPress [d] plain) typed
             ++ [KeyPress input enter; ChildExit 0 code]) s
  = Some ({| selected := selected s;
             status := match runScript (lit "pnpm") args code with
                       | Resolved => lit "Done. See ./final for outputs."
                       | Rejected message => lit "Error: " ++ message
                       end;
             running := false; askLimit := false; limitInput := []; children := [] |},
          [Spawn (lit "pnpm") args]).
Proof.
  intros [K1 [K2 [K3 [K4 [K5 _]]]]] Ha Ht. cbv zeta.
  destruct (K4 Ha) as [Hr Hs]. specialize (K5 Hr).
  destruct s as [sel st run ask l chi]. simpl in *. subst ask run chi.
  rewrite session_typing by assumption.
  assert (Hd : forallb digit (firstn 6 (l ++ typed)) = true).
  { apply forallb_firstn. rewrite forallb_app, K2, Ht. reflexivity. }
  set (digits := firstn 6 (l ++ typed)) in *.
  cbn [session handle]. unfold useInput. cbn [askLimit return_key enter].
  unfold start_script. cbn [limitInput selected children status].
  rewrite (trim_digits _ Hd). fold (limit_args digits).
  destruct sel as [|[|n]]; [| |lia]; reflexivity.
Qed.

(** X23. In the menu the arrows undo each other and go round: up then down, and
    down then up, and down as many times as there are options, leave the
    state as it was; nothing is started on the way. *)
Theorem arrows_go_round s i1 i2 i3 :
  askLimit s = false -> (selected s < List.length options)%nat ->
  session [KeyPress i1 up_key; KeyPress i2 down_key] s = Some (s, [])
  /\ session [KeyPress i1 down_key; KeyPress i2 up_key] s = Some (s, [])
  /\ session [KeyPress i1 down_key; KeyPress i2 down_key; KeyPress i3 down_key] s
     = Some (s, []).
Proof.
  destruct s as [sel st run ask l chi]. simpl. intros -> Hs.
  destruct sel as [|[|[|n]]]; [| | |lia]; repeat split; reflexivity.
Qed.

(** X20 on a session that opens the prompt, types, and cancels. *)
Lemma menu_keeps_its_state_witness :
  exists s effects,
    session [KeyPress [] down_key; KeyPress [13] enter; KeyPress [52] plain;
             KeyPress [27] {| upArrow := false; downArrow := false; return_key := false;
                              escape := true; backspace := false; delete := false |}]
      initial_app = Some (s, effects)
    /\ kept s.
Proof. apply menu_keeps_its_state. Defined.

(** X21 on a session that runs the first script with a limit of [25],
    and then the second with none. *)
Lemma menu_starts_batch_commands_witness :
  let events :=
    [KeyPress [13] enter; KeyPress [50] plain; KeyPress [53] plain; KeyPress [13] enter;
     ChildExit 0 (Some 0%nat);
     KeyPress [] down_key; KeyPress [13] enter; KeyPress [13] enter] in
  exists s effects,
    session events initial_app = Some (s, effects)
    /\ spawns effects
       = [(lit "pnpm", [lit "run"; lit "process:images:openrouter"; lit "--limit"; lit "25"]);
          (lit "pnpm", [lit "run"; lit "process:images"])]
    /\ Forall (fun child => batch_command (fst child) (snd child)) (spawns effects).
Proof.
  cbv zeta. eexists. eexists. split; [vm_compute; reflexivity|]. split; [reflexivity|].
  refine (proj1 (@menu_starts_batch_commands
                   [KeyPress [13] enter; KeyPress [50] plain; KeyPress [53] plain;
                    KeyPress [13] enter; ChildExit 0 (Some 0%nat);
                    KeyPress [] down_key; KeyPress [13] enter; KeyPress [13] enter]
                   _ _ _)).
  vm_compute. reflexivity.
Defined.

(** X22 on the prompt of the second script: eight digits typed, the script
    ends with code [1]. *)
Lemma prompt_round_witness :
  option_map (fun r => (status (fst r), snd r))
    (session (map (fun d => KeyPress [d] plain) (lit "12345678")
                ++ [KeyPress [13] enter; ChildExit 0 (Some 1%nat)])
       {| selected := 1; status := []; running := false; askLimit := true;
          limitInput := []; children := [] |})
  = Some (lit "Error: pnpm run process:images --limit 123456 exited with code 1",
          [Spawn (lit "pnpm") [lit "run"; lit "process:images"; lit "--limit"; lit "123456"]]).
Proof.
  rewrite prompt_round.
  - vm_compute. reflexivity.
  - unfold kept. simpl. repeat split; try lia; try discriminate; auto.
  - reflexivity.
  - reflexivity.
Defined.

(** X23 on the last option, from which down wraps to the first. *)
Lemma arrows_go_round_witness :
  session [KeyPress [] down_key; KeyPress [] up_key]
    {| selected := 2; status := []; running := false; askLimit := false;
       limitInput := []; children := [] |}
  = Some ({| selected := 2; status := []; running := false; askLimit := false;
             limitInput := []; children := [] |}, []).
Proof.
  refine (proj1 (proj2 (@arrows_go_round
                          {| selected := 2; status := []; running := false;
                             askLimit := false; limitInput := []; children := [] |}
                          [] [] [] _ _))).
  - reflexivity.
  - simpl. lia.
Defined.

(* ================================================================= *)
(** ** The further properties on the sample runs *)

(** X6 on a [null] line between two records. *)
Lemma unusable_record_ends_the_loop_witness :
  result_of (@for_await fair (sample_config Gemini None)
               ([Yield item_a] ++ Yield JNull :: [Yield item_b]) start tt)
  = Throw TypeError.
Proof.
  erewrite (@unusable_record_ends_the_loop fair (sample_config Gemini None)
              [Yield item_a] JNull [Yield item_b] start tt).
  - reflexivity.
  - vm_compute. reflexivity.
  - reflexivity.
Defined.

(** X7 on a line that holds the number [42]. *)
Lemma plain_values_are_skipped_witness :
  @iteration fair (sample_config Gemini None) (JNum (Finite (inject_Z 42))) start tt
  = (Ok (Next, counted start), tt,
     [ConsoleWarn [lit "Skipping item without imageUrl: brand item_1"]]).
Proof.
  apply (@plain_values_are_skipped fair). reflexivity.
Defined.

(** X8 on a run that cannot write its manifest, and on a run that can. *)
Lemma exit_code_tells_of_the_manifest_witness :
  In (SetExitCode 1) (trace_of (@script read_only Gemini tt))
  /\ exists path,
       In (WriteFile path
             (Text (@JSON_stringify_indent2 fair
                      (JArr (pushes (trace_of (@script fair Gemini tt)))))) (inr tt))
          (trace_of (@script fair Gemini tt)).
Proof.
  split.
  - apply (proj1 (proj2 (@exit_code_tells_of_the_manifest read_only Gemini tt))).
    split; [reflexivity|]. eexists. vm_compute. reflexivity.
  - apply (proj2 (proj2 (proj2 (@exit_code_tells_of_the_manifest fair Gemini tt)))).
    + vm_compute. reflexivity.
    + vm_compute. intros H. repeat destruct H as [H|H]; try discriminate H. exact H.
Defined.

(** X9 on an image that the server does not know. *)
Lemma download_outcomes_witness :
  result_of (@downloadFile missing (text "https://example.com/a.jpg")
               (lit "/app/working/a.jpg") tt)
  = Throw (Error (lit "Failed to download https://example.com/a.jpg: 404")).
Proof.
  destruct (@downloadFile missing (text "https://example.com/a.jpg")
              (lit "/app/working/a.jpg") tt) as [[r w'] t] eqn:E.
  destruct (@download_outcomes missing (text "https://example.com/a.jpg")
              (lit "/app/working/a.jpg") tt (Response 404 None) tt (inr tt) tt r w' t
              eq_refl eq_refl E) as [_ [_ H]].
  destruct (H eq_refl) as [_ [_ [_ [_ [_ [Hrej _]]]]]].
  unfold result_of. simpl.
  rewrite (Hrej (text "https://example.com/a.jpg") 404 None).
  - vm_compute. reflexivity.
  - vm_compute in E. inversion E. right. left. reflexivity.
  - lia.
Defined.

(** X10 on a redirect that leads to a redirect, the body of which breaks
    off. *)
Lemma second_redirect_is_saved_witness :
  let next := text "https://cdn.example.com/next" in
  let reply := Response 302 (Some (lit "https://cdn.example.com/next")) in
  @downloadFile stalling (text "https://example.com/a.jpg") (lit "/app/working/a.jpg") tt
  = (Pending, tt,
     [CreateWriteStream (lit "/app/working/a.jpg");
      HttpsGet (text "https://example.com/a.jpg") reply;
      HttpsGet next reply]).
Proof.
  cbv zeta.
  apply (proj1 (@second_redirect_is_saved stalling (text "https://example.com/a.jpg")
                  (lit "/app/working/a.jpg") tt)
           302 (lit "https://cdn.example.com/next") tt tt
           302 (Some (lit "https://cdn.example.com/next")) tt BreaksOff tt).
  - reflexivity.
  - lia.
  - discriminate.
  - reflexivity.
  - reflexivity.
  - lia.
  - reflexivity.
Defined.

(** X11 on the parts of the sample answer: a text part, then the image. *)
Lemma gemini_uses_first_inline_image_witness :
  @first_inline_image fair
    [obj [("text", text "done")]; obj [("inlineData", obj [("data", text "QUJD")])]]%string tt
  = @Buffer_from fair (Some (text "QUJD")) tt.
Proof.
  rewrite (@gemini_uses_first_inline_image fair).
  - reflexivity.
  - intros [H|[H|[]]]; discriminate H.
Defined.

(** X12 on an answer of text only. *)
Lemma gemini_answer_without_image_witness :
  result_of (@enhanceImageWithGemini wordy [Init.Byte.x41] None tt)
  = Throw (Error (lit "Gemini did not return an image")).
Proof.
  destruct (@enhanceImageWithGemini wordy [Init.Byte.x41] None tt) as [[r w'] t] eqn:E.
  assert (Hin : exists request, In (GenerateContent request (inr text_answer)) t).
  { vm_compute in E. inversion E. eexists. left. reflexivity. }
  destruct Hin as [request Hin].
  destruct (@gemini_answer_without_image wordy [Init.Byte.x41] None tt r w' t
              request text_answer E Hin) as [_ [_ H]].
  assert (Hne : text_answer <> JNull) by (intros H0; discriminate H0).
  destruct (H Hne) as [_ Hparts].
  destruct (Hparts [obj [("text", text "I cannot.")]]%string eq_refl eq_refl) as [_ Hno].
  apply Hno. intros [H0|[]]. discriminate H0.
Defined.

(** X13 on a loop of two records without the key. *)
Lemma openrouter_needs_its_key_witness :
  pushes (trace_of (@for_await keyless (sample_config OpenRouter None)
                      [Yield item_a; Yield item_b] start tt)) = []
  /\ attempts (trace_of (@for_await keyless (sample_config OpenRouter None)
                           [Yield item_a; Yield item_b] start tt))
     = [lit "/app/working/Afnan_9am.jpg"; lit "/app/working/brand_item_2.jpg"].
Proof.
  split.
  - apply (proj2 (@openrouter_needs_its_key keyless (or_introl eq_refl))
             (sample_config OpenRouter None) [Yield item_a; Yield item_b] start tt eq_refl).
  - vm_compute. reflexivity.
Defined.

(** X14 on a refusal of OpenRouter. *)
Lemma openrouter_error_is_not_decoded_witness :
  result_of (@enhanceImageWithOpenRouter throttled openrouter_prompt
               (text "https://example.com/a.jpg") None tt)
  = Throw (Error (lit "OpenRouter error: 429 Too Many Requests - slow down")).
Proof.
  destruct (@enhanceImageWithOpenRouter throttled openrouter_prompt
              (text "https://example.com/a.jpg") None tt) as [[r w'] t] eqn:E.
  refine (proj2 (@openrouter_error_is_not_decoded throttled _ _ _ tt r w' t _ _ _
                   refusal E _ eq_refl)).
  vm_compute in E. inversion E. left. reflexivity.
Defined.

(** X15 on the background of the sample runs, for both scripts. *)
Lemma background_is_optional_witness :
  result_of (@load_background fair OpenRouter (lit "/app/bg.png") tt)
  = Ok (Some (lit "data:image/png;base64,A"))
  /\ result_of (@load_background fair Gemini (lit "/app/bg.png") tt) = Ok (Some (lit "A")).
Proof.
  split.
  - apply (proj1 (proj2 (@background_is_optional fair OpenRouter (lit "/app/bg.png") tt))
             [Init.Byte.x41]).
    vm_compute. right. left. reflexivity.
  - apply (proj1 (proj2 (@background_is_optional fair Gemini (lit "/app/bg.png") tt))
             [Init.Byte.x41]).
    vm_compute. right. left. reflexivity.
Defined.

(** X16 on the second record of a file, without brand and name. *)
Lemma unnamed_records_are_numbered_witness :
  attempts (trace_of (@iteration fair (sample_config Gemini None) item_b
                        (counted start) tt))
  = [lit "/app/working/brand_item_2.jpg"].
Proof.
  apply (@unnamed_records_are_numbered fair (sample_config Gemini None)
           [Yield item_without_url] item_b start tt (counted start) tt
           [ConsoleWarn [lit "Skipping item without imageUrl: Afnan item_1"]]).
  - vm_compute. reflexivity.
  - reflexivity.
  - reflexivity.
  - reflexivity.
Defined.
